(** * Self-driving car simulation: a shallow embedding of [self_driving_car.py]

    The development embeds the decision and control core of the simulation
    (class [Car] and the body of the loop in [main]) and proves properties
    of it.

    Modelling conventions.
    - Python [float] values (positions, speeds, lane-change progress) are
      exact rationals in lowest terms, [Qc]; [float('inf')] is the extra
      point [PInf] of [ExtQ].  Rounding of binary floating point is not
      modelled.
    - Python [int] values are [Z] (frame counters, timers) or [nat] (lane
      indices, which the code only ever produces in [0 .. LANE_COUNT-1]).
    - Object identity ([car == self]; class [Car] defines no [__eq__]) is
      the position of the object in the list [cars]: every method takes the
      index [i] of [self] next to the current value of [self].
    - In-place mutation of the objects held by the shared list [cars] is
      explicit state passing on [list Car.t].
    - The module [random] is an oracle: each call site receives a [Draw].
    - An [IndexError] of [LANE_CENTERS[...]] is [None].
    - Rendering ([draw], [draw_road], colours, sensor rays) is left out; it
      reads the state and never writes a field modelled here. *)

From Stdlib Require Import ZArith QArith Qcanon Qcabs Lia Lqa String DecimalString.
From stdpp Require Import base numbers option list sorting.

Local Open Scope Qc_scope.

(** ** Numbers *)

(** A float literal. *)
Notation "'#' q" := (Q2Qc q%Q) (at level 1, q at level 0, format "'#' q") : Qc_scope.

(** Comparisons of floats, as booleans. *)
Definition Qcltb (a b : Qc) : bool := bool_decide (a < b).
Definition Qcleb (a b : Qc) : bool := bool_decide (a <= b).

(** A float that may be [float('inf')]. *)
Inductive ExtQ : Type :=
| Fin (q : Qc)
| PInf.

(** [a < b] on floats that may be infinite. *)
Definition ext_ltb (a b : ExtQ) : bool :=
  match a, b with
  | Fin p, Fin q => Qcltb p q
  | Fin _, PInf => true
  | PInf, _ => false
  end.

(** The order of [ExtQ] as propositions. *)
Definition ext_lt (a b : ExtQ) : Prop :=
  match a, b with
  | Fin p, Fin q => p < q
  | Fin _, PInf => True
  | PInf, _ => False
  end.

Definition ext_le (a b : ExtQ) : Prop :=
  match a, b with
  | Fin p, Fin q => p <= q
  | _, PInf => True
  | PInf, Fin _ => False
  end.

(** ** Constants and configuration *)

Definition WIDTH : Z := 1000.
Definition HEIGHT : Z := 800.

Definition ROAD_WIDTH : Z := 450.
Definition LANE_COUNT : nat := 3.
Definition LANE_WIDTH : Z := (ROAD_WIDTH / Z.of_nat LANE_COUNT)%Z.
Definition ROAD_LEFT : Z := ((WIDTH - ROAD_WIDTH) / 2)%Z.
Definition ROAD_RIGHT : Z := (ROAD_LEFT + ROAD_WIDTH)%Z.
Definition LANE_CENTERS : list Z :=
  map (fun i => (ROAD_LEFT + LANE_WIDTH / 2 + Z.of_nat i * LANE_WIDTH)%Z)
      (seq 0 LANE_COUNT).

Definition CAR_WIDTH : Z := 30.
Definition CAR_HEIGHT : Z := 50.
Definition PLAYER_SPEED_MIN : Qc := #4.0.
Definition PLAYER_SPEED_MAX : Qc := #5.0.
Definition NPC_SPEED_MIN : Qc := #3.0.
Definition NPC_SPEED_MAX : Qc := #4.5.

Definition CHANGE_LANE_DISTANCE : Z := 150.
Definition REAR_THREAT_DISTANCE : Z := 100.

(** [self.min_lane_change_interval]: assigned once in [__init__] and never
    reassigned, the same for every instance. *)
Definition min_lane_change_interval : Z := 60.

(** ** The random oracle *)

(** What the calls of [random] at one site return: the entropy behind
    [random.randint] for the lane, behind [random.randint] for the start
    position, and the value of [random.random()] behind [random.uniform]. *)
Record Draw : Type := mkDraw {
  draw_lane : nat;
  draw_y : nat;
  draw_unit : Qc
}.

(** [random.randint(lo, lo + span)] on naturals. *)
Definition randint (lo span entropy : nat) : nat :=
  (lo + entropy mod (S span))%nat.

(** [random.randint(lo, lo + span)] on integers. *)
Definition randintZ (lo : Z) (span entropy : nat) : Z :=
  (lo + Z.of_nat (entropy mod (S span)))%Z.

(** [random.uniform(a, b)] is [a + (b - a) * random()]. *)
Definition uniform (a b u : Qc) : Qc := a + (b - a) * u.

(** ** pygame.Rect *)

Module Pygame.

(** [pygame.Rect] stores integers; a float argument is converted with a
    C cast, that is, truncated toward zero.  The bounds of a C [int] are
    not modelled. *)
Definition to_int (q : Qc) : Z := Z.quot (Qnum q) (Zpos (Qden q)).

Record Rect : Type := mkRect {
  left : Z;
  top : Z;
  width : Z;
  height : Z
}.

Definition rect (l t w h : Qc) : Rect :=
  {| left := to_int l; top := to_int t; width := to_int w; height := to_int h |}.

(** [Rect.colliderect]: rectangles of empty size collide with nothing;
    otherwise the open intervals must meet on both axes. *)
Definition colliderect (a b : Rect) : bool :=
  if (width a =? 0)%Z || (height a =? 0)%Z || (width b =? 0)%Z || (height b =? 0)%Z
  then false
  else
    (Z.min (left a) (left a + width a) <? Z.max (left b) (left b + width b))%Z
    && (Z.min (top a) (top a + height a) <? Z.max (top b) (top b + height b))%Z
    && (Z.min (left b) (left b + width b) <? Z.max (left a) (left a + width a))%Z
    && (Z.min (top b) (top b + height b) <? Z.max (top a) (top a + height a))%Z.

End Pygame.

(** ** class Car *)

Module Car.

Record t : Type := mk {
  x : Qc;
  y : Qc;
  lane : nat;
  speed : Qc;
  is_player : bool;
  target_speed : Qc;
  changing_lane : bool;
  target_lane : nat;
  change_progress : Qc;
  collided : bool;
  lane_decision : string;
  last_lane_change_time : Z;
  stuck_timer : Z
}.

(** Attribute assignment [self.f = v]. *)
Definition set_x (v : Qc) (c : t) : t :=
  mk v (y c) (lane c) (speed c) (is_player c) (target_speed c) (changing_lane c)
     (target_lane c) (change_progress c) (collided c) (lane_decision c)
     (last_lane_change_time c) (stuck_timer c).
Definition set_y (v : Qc) (c : t) : t :=
  mk (x c) v (lane c) (speed c) (is_player c) (target_speed c) (changing_lane c)
     (target_lane c) (change_progress c) (collided c) (lane_decision c)
     (last_lane_change_time c) (stuck_timer c).
Definition set_lane (v : nat) (c : t) : t :=
  mk (x c) (y c) v (speed c) (is_player c) (target_speed c) (changing_lane c)
     (target_lane c) (change_progress c) (collided c) (lane_decision c)
     (last_lane_change_time c) (stuck_timer c).
Definition set_speed (v : Qc) (c : t) : t :=
  mk (x c) (y c) (lane c) v (is_player c) (target_speed c) (changing_lane c)
     (target_lane c) (change_progress c) (collided c) (lane_decision c)
     (last_lane_change_time c) (stuck_timer c).
Definition set_target_speed (v : Qc) (c : t) : t :=
  mk (x c) (y c) (lane c) (speed c) (is_player c) v (changing_lane c)
     (target_lane c) (change_progress c) (collided c) (lane_decision c)
     (last_lane_change_time c) (stuck_timer c).
Definition set_changing_lane (v : bool) (c : t) : t :=
  mk (x c) (y c) (lane c) (speed c) (is_player c) (target_speed c) v
     (target_lane c) (change_progress c) (collided c) (lane_decision c)
     (last_lane_change_time c) (stuck_timer c).
Definition set_target_lane (v : nat) (c : t) : t :=
  mk (x c) (y c) (lane c) (speed c) (is_player c) (target_speed c) (changing_lane c)
     v (change_progress c) (collided c) (lane_decision c)
     (last_lane_change_time c) (stuck_timer c).
Definition set_change_progress (v : Qc) (c : t) : t :=
  mk (x c) (y c) (lane c) (speed c) (is_player c) (target_speed c) (changing_lane c)
     (target_lane c) v (collided c) (lane_decision c)
     (last_lane_change_time c) (stuck_timer c).
Definition set_collided (v : bool) (c : t) : t :=
  mk (x c) (y c) (lane c) (speed c) (is_player c) (target_speed c) (changing_lane c)
     (target_lane c) (change_progress c) v (lane_decision c)
     (last_lane_change_time c) (stuck_timer c).
Definition set_lane_decision (v : string) (c : t) : t :=
  mk (x c) (y c) (lane c) (speed c) (is_player c) (target_speed c) (changing_lane c)
     (target_lane c) (change_progress c) (collided c) v
     (last_lane_change_time c) (stuck_timer c).
Definition set_last_lane_change_time (v : Z) (c : t) : t :=
  mk (x c) (y c) (lane c) (speed c) (is_player c) (target_speed c) (changing_lane c)
     (target_lane c) (change_progress c) (collided c) (lane_decision c)
     v (stuck_timer c).
Definition set_stuck_timer (v : Z) (c : t) : t :=
  mk (x c) (y c) (lane c) (speed c) (is_player c) (target_speed c) (changing_lane c)
     (target_lane c) (change_progress c) (collided c) (lane_decision c)
     (last_lane_change_time c) v.

(** [Car.__init__] (the colour and the sensor angles are rendering data). *)
Definition init (x0 y0 : Qc) (lane0 : nat) (speed0 : Qc) (is_player0 : bool) : t :=
  {| x := x0;
     y := y0;
     lane := lane0;
     speed := speed0;
     is_player := is_player0;
     target_speed := if is_player0 then PLAYER_SPEED_MAX else speed0;
     changing_lane := false;
     target_lane := lane0;
     change_progress := #0.0;
     collided := false;
     lane_decision := "Initializing...";
     last_lane_change_time := 0;
     stuck_timer := 0 |}.

(** The cars a scan of [cars] looks at: every loop of [get_car_in_front]
    and [is_lane_safe] starts with
    [if car == self or car.is_player: continue].  [k] is the index of the
    head of [cars] in the whole list, [i] the index of [self]. *)
Fixpoint scan_from (k i : nat) (cars : list t) : list t :=
  match cars with
  | [] => []
  | car :: rest =>
      if (k =? i)%nat || is_player car
      then scan_from (S k) i rest
      else car :: scan_from (S k) i rest
  end.

Definition scanned (i : nat) (cars : list t) : list t := scan_from 0 i cars.

(** One iteration of the loop of [get_car_in_front]. *)
Definition closer (self : t) (lane0 : nat) (acc : option t * ExtQ) (car : t)
  : option t * ExtQ :=
  if (lane car =? lane0)%nat && Qcltb (y car) (y self) then
    let dist := y self - y car in
    if ext_ltb (Fin dist) (snd acc) then (Some car, Fin dist) else acc
  else acc.

(** [Car.get_car_in_front]: the closest car directly in front in a lane. *)
Definition get_car_in_front (i : nat) (self : t) (cars : list t) (lane0 : nat)
  : option t * ExtQ :=
  fold_left (closer self lane0) (scanned i cars) (None, PInf).

(** [Car.is_lane_safe]. *)
Definition is_lane_safe (i : nat) (self : t) (cars : list t) (lane0 : nat) : bool :=
  (* 1. blind spot *)
  if existsb (fun car =>
                (lane car =? lane0)%nat
                && Qcltb (Qcabs (y self - y car)) (Qc_of_Z CAR_HEIGHT * #2.5))
             (scanned i cars)
  then false
  else
    (* 2. cars far ahead in the target lane *)
    let (front_car, front_dist) := get_car_in_front i self cars lane0 in
    if bool_decide (is_Some front_car) && ext_ltb front_dist (Fin (Qc_of_Z CHANGE_LANE_DISTANCE))
    then false
    else
      (* 3. faster cars approaching from the rear *)
      if existsb (fun car =>
                    (lane car =? lane0)%nat && Qcltb (y self) (y car)
                    && (Qcltb (y car - y self) (Qc_of_Z REAR_THREAT_DISTANCE)
                        && Qcltb (speed self) (speed car)))
                 (scanned i cars)
      then false
      else true.

(** The speed controller at the head of [autonomous_drive]. *)
Definition adjust_speed (self : t) : t :=
  if Qcltb #0.05 (Qcabs (speed self - target_speed self))
  then set_speed (speed self + (if Qcltb (speed self) (target_speed self)
                                then #0.02 else - #0.1)) self
  else set_speed (target_speed self) self.

(** [possible_lanes] of [autonomous_drive]. *)
Definition possible_lanes (self : t) : list nat :=
  (if (0 <? lane self)%nat then [(lane self - 1)%nat] else [])
  ++ (if (lane self <? LANE_COUNT - 1)%nat then [(lane self + 1)%nat] else []).

(** [max(first :: rest, key=key)]: Python keeps the first maximal item,
    a later item replaces it only when its key is strictly greater. *)
Definition max_by {A : Type} (key : A -> ExtQ) (first : A) (rest : list A) : A :=
  fold_left (fun best item => if ext_ltb (key best) (key item) then item else best)
            rest first.

Definition lane_label (best_lane : nat) : string :=
  "Changing to Lane " ++ NilEmpty.string_of_uint (Nat.to_uint (best_lane + 1)).

(** [Car.autonomous_drive]. *)
Definition autonomous_drive (i : nat) (self : t) (cars : list t) (frame_count : Z) : t :=
  let self := adjust_speed self in
  (* 1. if currently changing lanes, is it still safe? *)
  if changing_lane self && negb (is_lane_safe i self cars (target_lane self)) then
    set_stuck_timer 0
      (set_changing_lane false
         (set_lane_decision "Target Unsafe! Aborting." self))
  else
    let (front_car, front_dist) := get_car_in_front i self cars (lane self) in
    let is_on_cooldown :=
      (frame_count - last_lane_change_time self <? min_lane_change_interval)%Z in
    (* 3. the road is clear *)
    let clear :=
      if negb (changing_lane self) then
        set_stuck_timer 0
          (set_target_speed PLAYER_SPEED_MAX
             (set_lane_decision "Road clear" self))
      else self in
    match front_car with
    | Some front =>
        if negb (changing_lane self) && ext_ltb front_dist (Fin (Qc_of_Z CHANGE_LANE_DISTANCE)) then
          (* 2. blocked *)
          let brake :=
            let self := set_stuck_timer (stuck_timer self + 1) self in
            if (300 <? stuck_timer self)%Z then
              set_target_speed (speed front - #1.0)
                (set_lane_decision "Stuck! Braking hard." self)
            else
              set_target_speed (speed front - #0.1)
                (set_lane_decision "Slowing: No safe lane" self) in
          if negb is_on_cooldown then
            match List.filter (is_lane_safe i self cars) (possible_lanes self) with
            | first :: rest =>
                let best_lane :=
                  max_by (fun l => snd (get_car_in_front i self cars l)) first rest in
                set_stuck_timer 0
                  (set_target_speed PLAYER_SPEED_MAX
                     (set_target_lane best_lane
                        (set_changing_lane true
                           (set_lane_decision (lane_label best_lane) self))))
            | [] => brake
            end
          else brake
        else clear
    | None => clear
    end.

(** [LANE_CENTERS[l]] as a float. *)
Definition lane_center (l : nat) : option Qc := Qc_of_Z <$> LANE_CENTERS !! l.

(** The respawn of a non-player car that scrolled off the screen. *)
Definition respawn (d : Draw) (self : t) : option t :=
  let self := set_y (Qc_of_Z (- CAR_HEIGHT * 5)) self in
  let self := set_lane (randint 0 (LANE_COUNT - 1) (draw_lane d)) self in
  cx ← lane_center (lane self);
  let self := set_x cx self in
  Some (set_speed (uniform NPC_SPEED_MIN NPC_SPEED_MAX (draw_unit d)) self).

(** Relative-speed physics of a non-player car. *)
Definition drift (player_car : t) (d : Draw) (self : t) : option t :=
  let self := set_y (y self + (speed player_car - speed self)) self in
  if Qcltb (Qc_of_Z (HEIGHT + CAR_HEIGHT * 2)) (y self)
  then respawn d self
  else Some self.

(** Lane changing and positioning, the last block of [move]. *)
Definition steer (frame_count : Z) (self : t) : option t :=
  if changing_lane self then
    let self := set_change_progress (change_progress self + #0.05) self in
    start_x ← lane_center (lane self);
    end_x ← lane_center (target_lane self);
    let self := set_x (start_x + (end_x - start_x) * change_progress self) self in
    if Qcleb #1.0 (change_progress self) then
      let self := set_lane (target_lane self) self in
      cx ← lane_center (lane self);
      Some (set_last_lane_change_time frame_count
              (set_change_progress #0.0
                 (set_changing_lane false
                    (set_x cx self))))
    else Some self
  else
    target_x ← lane_center (lane self);
    Some (set_x (x self + (target_x - x self) * #0.1) self).

(** [Car.move].  [player_car] is the current state of the object the
    caller passes as [player_car]; it is read only by non-player cars. *)
Definition move (i : nat) (self : t) (all_cars : list t) (frame_count : Z)
           (player_car : t) (d : Draw) : option t :=
  if collided self then Some self
  else
    let self :=
      if is_player self then autonomous_drive i self all_cars frame_count else self in
    self ← (if negb (is_player self) then drift player_car d self else Some self);
    steer frame_count self.

(** The rectangle the collision check builds for a car. *)
Definition body_rect (c : t) : Pygame.Rect :=
  Pygame.rect (x c - Qc_of_Z CAR_WIDTH / #2) (y c - Qc_of_Z CAR_HEIGHT / #2)
              (Qc_of_Z CAR_WIDTH) (Qc_of_Z CAR_HEIGHT).

(** The loop of the collision check: the index of the first car, other
    than [self], whose rectangle collides with [player_rect]. *)
Fixpoint first_hit (k i : nat) (player_rect : Pygame.Rect) (cars : list t)
  : option nat :=
  match cars with
  | [] => None
  | car :: rest =>
      if (k =? i)%nat then first_hit (S k) i player_rect rest
      else if Pygame.colliderect player_rect (body_rect car) then Some k
           else first_hit (S k) i player_rect rest
  end.

(** What the check writes to [self] when a collision is found. *)
Definition crash (self : t) : t :=
  set_lane_decision "CRASHED!" (set_collided true self).

(** [Car.update_sensors_and_check_collision]: [self] is [cars[i]]; the
    result is the list after the writes to [self] and to the car hit. *)
Definition update_sensors_and_check_collision (i : nat) (self : t) (cars : list t)
  : list t :=
  if collided self then cars
  else
    match first_hit 0 i (body_rect self) cars with
    | Some j => alter (set_collided true) j (<[i := crash self]> cars)
    | None => cars
    end.

End Car.

(** ** The main loop *)

(** The state the loop of [main] carries.  [player_car] is the object at
    index 0 of [cars]: [reset_simulation] builds [all_cars = [player]] and
    appends the other cars. *)
Record Sim : Type := mkSim {
  cars : list Car.t;
  distance : Qc;
  frame_count : Z
}.

Definition player_index : nat := 0.

(** One non-player car of [reset_simulation]. *)
Definition spawn (d : Draw) : option Car.t :=
  let lane := randint 0 (LANE_COUNT - 1) (draw_lane d) in
  x_pos ← Car.lane_center lane;
  let y_pos := randintZ (- HEIGHT) (Z.to_nat HEIGHT) (draw_y d) in
  let speed := uniform NPC_SPEED_MIN NPC_SPEED_MAX (draw_unit d) in
  Some (Car.init x_pos (Qc_of_Z y_pos) lane speed false).

(** [reset_simulation]; [rnd k] is what [random] returns in round [k] of
    the loop. *)
Definition reset_simulation (rnd : nat -> Draw) : option Sim :=
  px ← Car.lane_center 1;
  let player := Car.init px (Qc_of_Z (HEIGHT - 100)) 1 PLAYER_SPEED_MIN true in
  npcs ← mapM (fun k => spawn (rnd k)) (seq 0 12);
  Some {| cars := player :: npcs; distance := Qc_of_Z 0; frame_count := 0 |}.

(** One round of [for car in cars: car.move(cars, frame_count, player_car)]:
    the car at index [i] is updated in place, so later rounds see it. *)
Definition move_at (fc : Z) (rnd : nat -> Draw) (acc : option (list Car.t)) (i : nat)
  : option (list Car.t) :=
  cs ← acc;
  car ← cs !! i;
  player_car ← cs !! player_index;
  car' ← Car.move i car cs fc player_car (rnd i);
  Some (<[i := car']> cs).

Definition move_all (fc : Z) (rnd : nat -> Draw) (cs : list Car.t) : option (list Car.t) :=
  fold_left (move_at fc rnd) (seq 0 (length cs)) (Some cs).

(** The simulation step: every car moves, then the player checks for a
    collision. *)
Definition tick (fc : Z) (rnd : nat -> Draw) (cs : list Car.t) : option (list Car.t) :=
  cs' ← move_all fc rnd cs;
  player_car ← cs' !! player_index;
  Some (Car.update_sensors_and_check_collision player_index player_car cs').

(** One iteration of the loop of [main] (events and drawing left out). *)
Definition main_iter (rnd : nat -> Draw) (s : Sim) : option Sim :=
  let fc := (frame_count s + 1)%Z in
  player_car ← cars s !! player_index;
  if Car.collided player_car then reset_simulation rnd
  else
    let distance' := distance s + Car.speed player_car in
    cs' ← tick fc rnd (cars s);
    Some {| cars := cs'; distance := distance'; frame_count := fc |}.

(** [n] iterations; [oracle k] serves iteration [k]. *)
Fixpoint iterate (oracle : nat -> nat -> Draw) (k n : nat) (s : Sim) : option Sim :=
  match n with
  | O => Some s
  | S n' => s' ← main_iter (oracle k) s; iterate oracle (S k) n' s'
  end.

(** A run of [main]: the first [reset_simulation] (served by [oracle 0]),
    then [n] iterations of the loop (served by [oracle 1], [oracle 2], ...). *)
Definition run (oracle : nat -> nat -> Draw) (n : nat) : option Sim :=
  s ← reset_simulation (oracle O); iterate oracle 1 n s.

(** * Vocabulary of the statements *)

(** The cars a scan by [self = cars[i]] does not skip. *)
Definition visible (i : nat) (cars : list Car.t) (c : Car.t) : Prop :=
  exists j, cars !! j = Some c /\ j <> i /\ Car.is_player c = false.

(** [c] is ahead of [self] in lane [l]. *)
Definition ahead_in (self : Car.t) (l : nat) (c : Car.t) : Prop :=
  Car.lane c = l /\ Car.y c < Car.y self.

(** [c] is a nearest non-player car ahead of [self = cars[i]] in lane [l]. *)
Definition nearest_ahead (i : nat) (self : Car.t) (cars : list Car.t) (l : nat)
           (c : Car.t) : Prop :=
  visible i cars c /\ ahead_in self l c /\
  forall c', visible i cars c' -> ahead_in self l c' ->
             Car.y self - Car.y c <= Car.y self - Car.y c'.

(** What the loop of [get_car_in_front] knows after the cars [seen]. *)
Definition front_ok (self : Car.t) (l : nat) (seen : list Car.t)
           (r : option Car.t * ExtQ) : Prop :=
  match r with
  | (None, d) => d = PInf /\ forall c, c ∈ seen -> ~ ahead_in self l c
  | (Some c, d) =>
      d = Fin (Car.y self - Car.y c) /\ c ∈ seen /\ ahead_in self l c /\
      forall c', c' ∈ seen -> ahead_in self l c' ->
                 Car.y self - Car.y c <= Car.y self - Car.y c'
  end.

(** 1. No other non-player car of lane [l] is closer than 125 to [self],
    in either direction. *)
Definition blind_spot_clear (i : nat) (self : Car.t) (cars : list Car.t) (l : nat) : Prop :=
  forall c, visible i cars c -> Car.lane c = l ->
            ~ Qcabs (Car.y self - Car.y c) < Qc_of_Z 125.

(** 2. A nearest non-player car ahead in lane [l], if there is one, is at
    distance 150 or more. *)
Definition forward_clear (i : nat) (self : Car.t) (cars : list Car.t) (l : nat) : Prop :=
  forall c, nearest_ahead i self cars l c -> Qc_of_Z 150 <= Car.y self - Car.y c.

(** 3. No non-player car behind in lane [l] and closer than 100 is faster
    than [self]. *)
Definition rear_clear (i : nat) (self : Car.t) (cars : list Car.t) (l : nat) : Prop :=
  forall c, visible i cars c -> Car.lane c = l -> Car.y self < Car.y c ->
            Car.y c - Car.y self < Qc_of_Z 100 ->
            ~ Car.speed self < Car.speed c.

(** The agent is blocked by [front]: it is not changing lane and [front] is
    the car [get_car_in_front] finds in its lane, closer than 150. *)
Definition blocked_by (i : nat) (self : Car.t) (cars : list Car.t) (front : Car.t) : Prop :=
  Car.changing_lane self = false /\
  exists d, Car.get_car_in_front i self cars (Car.lane self) = (Some front, d)
            /\ ext_lt d (Fin (Qc_of_Z 150)).

(** Fewer than 60 ticks since the last completed lane change. *)
Definition on_cooldown (fc : Z) (self : Car.t) : Prop :=
  (fc - Car.last_lane_change_time self < 60)%Z.

(** Lane [l] is the lane of [self] minus 1 or plus 1, inside the road. *)
Definition adjacent (self : Car.t) (l : nat) : Prop :=
  (l + 1 = Car.lane self)%nat \/ (l = Car.lane self + 1 /\ l < LANE_COUNT)%nat.

(** The safety check as the decision engine calls it: after the speed
    update of the same tick. *)
Definition safe_now (i : nat) (self : Car.t) (cars : list Car.t) (l : nat) : bool :=
  Car.is_lane_safe i (Car.adjust_speed self) cars l.

(** The distance [get_car_in_front] reports for lane [l]. *)
Definition ahead_dist (i : nat) (self : Car.t) (cars : list Car.t) (l : nat) : ExtQ :=
  snd (Car.get_car_in_front i self cars l).

(** [safe_lanes] of [autonomous_drive]. *)
Definition safe_lanes (i : nat) (self : Car.t) (cars : list Car.t) : list nat :=
  List.filter (safe_now i self cars) (Car.possible_lanes self).

(** The state after the gentle or the aggressive brake. *)
Definition brake (self front : Car.t) : Car.t :=
  let s := Car.set_stuck_timer (Car.stuck_timer self + 1) (Car.adjust_speed self) in
  if (300 <? Car.stuck_timer s)%Z then
    Car.set_target_speed (Car.speed front - #1.0)
      (Car.set_lane_decision "Stuck! Braking hard." s)
  else
    Car.set_target_speed (Car.speed front - #0.1)
      (Car.set_lane_decision "Slowing: No safe lane" s).

(** The state after the commitment to [best_lane]. *)
Definition commit (self : Car.t) (best_lane : nat) : Car.t :=
  Car.set_stuck_timer 0
    (Car.set_target_speed PLAYER_SPEED_MAX
       (Car.set_target_lane best_lane
          (Car.set_changing_lane true
             (Car.set_lane_decision (Car.lane_label best_lane)
                (Car.adjust_speed self))))).

(** The state after an abort. *)
Definition abort (self : Car.t) : Car.t :=
  Car.set_stuck_timer 0
    (Car.set_changing_lane false
       (Car.set_lane_decision "Target Unsafe! Aborting." (Car.adjust_speed self))).

(** [j] is the first index, other than [i], of a car whose rectangle
    collides with [r]. *)
Definition first_overlap (i : nat) (r : Pygame.Rect) (cars : list Car.t) (j : nat) : Prop :=
  j <> i /\
  (exists c, cars !! j = Some c /\ Pygame.colliderect r (Car.body_rect c) = true) /\
  forall j' c', (j' < j)%nat -> j' <> i -> cars !! j' = Some c' ->
                Pygame.colliderect r (Car.body_rect c') = false.

(** The check writes nothing but [collided] and the decision label. *)
Definition same_but_flags (c c' : Car.t) : Prop :=
  c' = c \/ c' = Car.set_collided true c \/ c' = Car.crash c.

(** The state after the decision "Road clear". *)
Definition clear (self : Car.t) : Car.t :=
  Car.set_stuck_timer 0
    (Car.set_target_speed PLAYER_SPEED_MAX
       (Car.set_lane_decision "Road clear" (Car.adjust_speed self))).

(** The outcome of one call of the decision engine. *)
Inductive decision (i : nat) (self : Car.t) (cars : list Car.t) (fc : Z) : Car.t -> Prop :=
| decide_abort :
    Car.changing_lane self = true ->
    Car.is_lane_safe i (Car.adjust_speed self) cars (Car.target_lane self) = false ->
    decision i self cars fc (abort self)
| decide_continue :
    Car.changing_lane self = true ->
    Car.is_lane_safe i (Car.adjust_speed self) cars (Car.target_lane self) = true ->
    decision i self cars fc (Car.adjust_speed self)
| decide_clear :
    Car.changing_lane self = false ->
    (forall front, ~ blocked_by i self cars front) ->
    decision i self cars fc (clear self)
| decide_brake front :
    blocked_by i self cars front ->
    on_cooldown fc self \/ (forall l, adjacent self l -> safe_now i self cars l = false) ->
    decision i self cars fc (brake self front)
| decide_commit front best :
    blocked_by i self cars front ->
    ~ on_cooldown fc self ->
    adjacent self best -> safe_now i self cars best = true ->
    decision i self cars fc (commit self best).

(** The outcome of the lateral update. *)
Inductive steered (fc : Z) (s : Car.t) : Car.t -> Prop :=
| steer_relax v :
    Car.changing_lane s = false ->
    steered fc s (Car.set_x v s)
| steer_progress v :
    Car.changing_lane s = true ->
    Car.change_progress s + #0.05 < #1.0 ->
    steered fc s (Car.set_x v (Car.set_change_progress (Car.change_progress s + #0.05) s))
| steer_complete v :
    Car.changing_lane s = true ->
    #1.0 <= Car.change_progress s + #0.05 ->
    steered fc s
      (Car.set_last_lane_change_time fc
         (Car.set_change_progress #0.0
            (Car.set_changing_lane false
               (Car.set_x v (Car.set_lane (Car.target_lane s) s))))).

(** Both lanes of a car are lanes of the road. *)
Definition lanes_ok (c : Car.t) : Prop :=
  (Car.lane c < LANE_COUNT)%nat /\ (Car.target_lane c < LANE_COUNT)%nat.

(** A list the step can run on: it has a first car and every lane in it
    is a lane of the road. *)
Definition world_ok (cs : list Car.t) : Prop :=
  cs <> [] /\ Forall lanes_ok cs.

(** The rectangles of two cars collide. *)
Definition overlaps (a b : Car.t) : Prop :=
  Pygame.colliderect (Car.body_rect a) (Car.body_rect b) = true.

(** Every step of an episode: the loop of [main] as long as it does not
    reset.  [oracle fc] serves the tick with frame count [fc]. *)
Fixpoint ticks (oracle : Z -> nat -> Draw) (fc : Z) (n : nat) (cs : list Car.t)
  : option (list Car.t) :=
  match n with
  | O => Some cs
  | S n' => cs' ← tick (fc + 1) (oracle (fc + 1)%Z) cs; ticks oracle (fc + 1) n' cs'
  end.

(** [move] on a car that is not the player: the list of cars is not read. *)
Definition npc_move (fc : Z) (player_car : Car.t) (d : Draw) (c : Car.t) : option Car.t :=
  if Car.collided c then Some c
  else c1 ← Car.drift player_car d c; Car.steer fc c1.

(** The rounds of the loop for the cars after the player, [k] being the
    index of the first of them: each is moved against the same state
    [player_car] of the player. *)
Fixpoint npc_moves (fc : Z) (rnd : nat -> Draw) (player_car : Car.t) (k : nat)
         (npcs : list Car.t) : option (list Car.t) :=
  match npcs with
  | [] => Some []
  | c :: rest =>
      c' ← npc_move fc player_car (rnd k) c;
      rest' ← npc_moves fc rnd player_car (S k) rest;
      Some (c' :: rest')
  end.

(** At the start of an iteration of the main loop the agent is blocked by
    [front] and cannot start a lane change: it is on cooldown after the
    increment of the frame count, or no adjacent lane is safe. *)
Definition stalled (s : Sim) (front : Car.t) : Prop :=
  exists p,
    cars s !! player_index = Some p /\
    Car.is_player p = true /\ Car.collided p = false /\
    blocked_by player_index p (cars s) front /\
    (on_cooldown (frame_count s + 1) p
     \/ forall l, adjacent p l -> safe_now player_index p (cars s) l = false).

(** [stalled], decided. *)
Definition stalledb (s : Sim) : bool :=
  match cars s !! player_index with
  | Some p =>
      Car.is_player p && negb (Car.collided p) && negb (Car.changing_lane p)
      && match Car.get_car_in_front player_index p (cars s) (Car.lane p) with
         | (Some _, d) => ext_ltb d (Fin (Qc_of_Z 150))
         | (None, _) => false
         end
      && ((frame_count s + 1 - Car.last_lane_change_time p <? 60)%Z
          || forallb (fun l => negb (safe_now player_index p (cars s) l))
                     (Car.possible_lanes p))
  | None => false
  end.

(** Every state of the first [n] iterations passes [stalledb]. *)
Fixpoint all_stalled (oracle : nat -> nat -> Draw) (k n : nat) (s : Sim) : bool :=
  match n with
  | O => true
  | S n' =>
      stalledb s
      && match main_iter (oracle k) s with
         | Some s' => all_stalled oracle (S k) n' s'
         | None => true
         end
  end.

(** The progress of a lane change is in the interval from 0 to 1, 1
    excluded. *)
Definition progress_ok (c : Car.t) : Prop :=
  #0.0 <= Car.change_progress c /\ Car.change_progress c < #1.0.

(** * Scenarios *)

(** Scenario A of the specification: the agent in lane 1 behind a slower
    car at distance 100, lanes 0 and 2 empty. *)
Definition agent_A : Car.t :=
  Car.init (Qc_of_Z 500) (Qc_of_Z 700) 1 PLAYER_SPEED_MIN true.
Definition front_A : Car.t :=
  Car.init (Qc_of_Z 500) (Qc_of_Z 600) 1 NPC_SPEED_MIN false.
Definition world_A : list Car.t := [agent_A; front_A].

(** The agent behind a slower car, with a car far ahead in lane 0 and
    nothing in lane 2. *)
Definition side_B : Car.t :=
  Car.init (Qc_of_Z 350) (Qc_of_Z 500) 0 NPC_SPEED_MIN false.
Definition world_B : list Car.t := [agent_A; front_A; side_B].

(** An oracle that always draws lane 0, the top of the range of start
    positions, and the lowest speed. *)
Definition rnd0 (k : nat) : Draw := mkDraw 0 0 (Qc_of_Z 0).

(** A car that crashed earlier, next to the agent of scenario A. *)
Definition wreck : Car.t :=
  Car.set_collided true (Car.init (Qc_of_Z 650) (Qc_of_Z 300) 2 NPC_SPEED_MIN false).

(** The agent runs into two cars that sit on top of each other. *)
Definition npc_C1 : Car.t :=
  Car.init (Qc_of_Z 500) (Qc_of_Z 690) 1 NPC_SPEED_MIN false.
Definition npc_C2 : Car.t :=
  Car.init (Qc_of_Z 500) (Qc_of_Z 680) 1 NPC_SPEED_MIN false.
Definition world_C : list Car.t := [agent_A; npc_C1; npc_C2].

(** Two non-player cars on top of each other, far from the agent. *)
Definition npc_D1 : Car.t :=
  Car.init (Qc_of_Z 350) (Qc_of_Z 300) 0 NPC_SPEED_MIN false.
Definition npc_D2 : Car.t :=
  Car.init (Qc_of_Z 350) (Qc_of_Z 310) 0 NPC_SPEED_MIN false.
Definition world_D : list Car.t := [agent_A; npc_D1; npc_D2].

(** A car whose rectangle, taken on the floats, would reach half a unit
    into the rectangle of the agent. *)
Definition npc_G : Car.t :=
  Car.set_collided true (Car.init (Qc_of_Z 500) (#650.5) 1 NPC_SPEED_MIN false).
Definition world_G : list Car.t := [agent_A; npc_G].

(** The agent at cruising distance behind a slower car: 150.5 before the
    car is repositioned, less than 150 after. *)
Definition front_E : Car.t :=
  Car.init (Qc_of_Z 500) (#549.5) 1 NPC_SPEED_MIN false.
Definition world_E : list Car.t := [agent_A; front_E].

(** Scenario C of the specification: the agent behind a slower car, with a
    car alongside in each adjacent lane, for 301 ticks. *)
Definition front_F : Car.t := Car.init (Qc_of_Z 500) (Qc_of_Z 640) 1 NPC_SPEED_MIN false.
Definition left_F : Car.t := Car.init (Qc_of_Z 350) (Qc_of_Z 700) 0 (#2.9) false.
Definition right_F : Car.t := Car.init (Qc_of_Z 650) (Qc_of_Z 700) 2 (#2.9) false.
Definition sim_F : Sim :=
  {| cars := [agent_A; front_F; left_F; right_F];
     distance := Qc_of_Z 0;
     frame_count := 0 |}.

(** The oracle [rnd0] in every iteration. *)
Definition oracle0 (k : nat) : nat -> Draw := rnd0.

(** The draws of a run that ends in an abort: one car in lane 1 at the
    top of the screen, the others two units behind it in lanes 0 and 2, all
    at the lowest speed. *)
Definition bug_draw (k : nat) : Draw :=
  if (k =? 0)%nat then mkDraw 1 800 (Qc_of_Z 0)
  else if (k <? 6)%nat then mkDraw 0 798 (Qc_of_Z 0)
  else mkDraw 2 798 (Qc_of_Z 0).

(** The draws [bug_draw] in every iteration. *)
Definition bug_oracle (k : nat) : nat -> Draw := bug_draw.

(** Scenario D of the specification: the agent half-way (0.4) into a lane
    change to lane 0 when a car enters the blind spot of that lane. *)
Definition agent_D : Car.t :=
  Car.set_change_progress (#0.4)
    (Car.set_target_lane 0 (Car.set_changing_lane true (Car.set_x (Qc_of_Z 440) agent_A))).
Definition intruder_D : Car.t :=
  Car.init (Qc_of_Z 350) (Qc_of_Z 650) 0 NPC_SPEED_MIN false.

(** * Further vocabulary *)

(** The shape [reset_simulation] gives the list of cars: the player and
    twelve other cars. *)
Definition one_player (cs : list Car.t) : Prop :=
  exists p npcs,
    cs = p :: npcs /\ Car.is_player p = true /\ length npcs = 12%nat /\
    Forall (fun c => Car.is_player c = false) npcs.

(** Where a car can be.  Every car is laterally between the centres of the
    outer lanes.  The player stays at the height [HEIGHT - 100]; another
    car is never below [HEIGHT + CAR_HEIGHT * 2], never changes lane and
    sits on the centre of its lane. *)
Definition placed (c : Car.t) : Prop :=
  Qc_of_Z 350 <= Car.x c /\ Car.x c <= Qc_of_Z 650 /\
  (Car.is_player c = true -> Car.y c = Qc_of_Z 700) /\
  (Car.is_player c = false ->
   Car.y c <= Qc_of_Z 900 /\ Car.changing_lane c = false /\
   Car.lane_center (Car.lane c) = Some (Car.x c)).

(** The counters of a car at frame count [fc]. *)
Definition counters_ok (fc : Z) (c : Car.t) : Prop :=
  (0 <= Car.last_lane_change_time c <= fc)%Z /\ (0 <= Car.stuck_timer c <= fc)%Z.

(** No car of the list is marked as collided. *)
Definition crash_free (cs : list Car.t) : Prop :=
  Forall (fun c => Car.collided c = false) cs.

(** The player has crashed into the car at index [h]: the two rectangles
    collide, the player carries the label of the crash, and these two cars
    are the only ones marked. *)
Definition crashed_with (cs : list Car.t) (h : nat) : Prop :=
  h <> player_index /\
  exists p c,
    cs !! player_index = Some p /\ cs !! h = Some c /\ overlaps p c /\
    Car.lane_decision p = "CRASHED!"%string /\
    forall j c', cs !! j = Some c' ->
                 (Car.collided c' = true <-> j = player_index \/ j = h).

(** The speeds a run keeps: a non-player car drives between
    [NPC_SPEED_MIN] and [NPC_SPEED_MAX]; the player aims at a speed between
    2 and [PLAYER_SPEED_MAX] and drives between 1.95 and [PLAYER_SPEED_MAX]
    (the brake of the speed controller may undershoot its target by less
    than 0.05). *)
Definition speeds_ok (c : Car.t) : Prop :=
  if Car.is_player c
  then (#1.95 <= Car.speed c /\ Car.speed c <= PLAYER_SPEED_MAX) /\
       (#2.0 <= Car.target_speed c /\ Car.target_speed c <= PLAYER_SPEED_MAX)
  else NPC_SPEED_MIN <= Car.speed c /\ Car.speed c <= NPC_SPEED_MAX.

(** [random.random()] returns a value of the unit interval. *)
Definition unit_draws (rnd : nat -> Draw) : Prop :=
  forall k, Qc_of_Z 0 <= draw_unit (rnd k) /\ draw_unit (rnd k) <= Qc_of_Z 1.

(** A car that is changing lane is the player, and its target is a lane
    next to its own. *)
Definition change_ok (c : Car.t) : Prop :=
  Car.changing_lane c = true -> Car.is_player c = true /\ adjacent c (Car.target_lane c).

(** The odometer of [main] after [frame_count] frames of an episode. *)
Definition odometer_ok (s : Sim) : Prop :=
  #1.95 * Qc_of_Z (frame_count s) <= distance s /\
  distance s <= PLAYER_SPEED_MAX * Qc_of_Z (frame_count s).

(** The last block of [move] in [k] consecutive frames, the first of which
    has the frame count [fc], with nothing else written to the car in
    between. *)
Fixpoint steers (fc : Z) (k : nat) (s : Car.t) : option Car.t :=
  match k with
  | O => Some s
  | S k' => s' ← Car.steer fc s; steers (fc + 1) k' s'
  end.

(** A non-player car is at most [2 * fc] down the screen: where a car
    that started at the top can be after [fc] frames. *)
Definition behind (fc : Z) (c : Car.t) : Prop :=
  Car.is_player c = false -> Car.y c <= #2 * Qc_of_Z fc.

(** A car that is changing lane is not counted as stuck and aims at the
    highest speed. *)
Definition change_fields (c : Car.t) : Prop :=
  Car.changing_lane c = true ->
  Car.stuck_timer c = 0%Z /\ Car.target_speed c = PLAYER_SPEED_MAX.

(** Coordinates at most 10^9 in size: the corners of the rectangle of
    such a car are inside the range of a C [int], in which [pygame.Rect]
    holds the truncated value. *)
Definition in_int_range (c : Car.t) : Prop :=
  Qcabs (Car.x c) <= Qc_of_Z 1000000000 /\ Qcabs (Car.y c) <= Qc_of_Z 1000000000.

(** * Further scenarios *)

(** The agent of scenario A with the progress an aborted lane change has
    left behind, one step short of 1. *)
Definition agent_H : Car.t := Car.set_change_progress (#0.95) agent_A.
Definition world_H : list Car.t := [agent_H; front_A].

(** The player at the start of an episode, committed to lane 3. *)
Definition changer : Car.t :=
  Car.set_target_lane 2
    (Car.set_changing_lane true
       (Car.init (Qc_of_Z 500) (Qc_of_Z 700) 1 PLAYER_SPEED_MIN true)).


(** * Properties *)

(** ** Comparisons *)

Lemma Qcltb_true (a b : Qc) : Qcltb a b = true <-> a < b.
Proof. unfold Qcltb. apply bool_decide_eq_true. Qed.

Lemma Qcltb_false (a b : Qc) : Qcltb a b = false <-> b <= a.
Proof. unfold Qcltb. rewrite bool_decide_eq_false. symmetry. apply Qcle_ngt. Qed.

Lemma Qcleb_true (a b : Qc) : Qcleb a b = true <-> a <= b.
Proof. unfold Qcleb. apply bool_decide_eq_true. Qed.

Lemma Qcleb_false (a b : Qc) : Qcleb a b = false <-> b < a.
Proof. unfold Qcleb. rewrite bool_decide_eq_false. symmetry. apply Qclt_nge. Qed.

Lemma ext_ltb_true (a b : ExtQ) : ext_ltb a b = true <-> ext_lt a b.
Proof.
  destruct a as [p|], b as [q|]; simpl; try apply Qcltb_true; intuition congruence.
Qed.

Lemma ext_ltb_false (a b : ExtQ) : ext_ltb a b = false <-> ext_le b a.
Proof.
  destruct a as [p|], b as [q|]; simpl; try apply Qcltb_false; intuition congruence.
Qed.

Lemma ext_le_refl (a : ExtQ) : ext_le a a.
Proof. destruct a; simpl; [apply Qcle_refl | exact I]. Qed.

Lemma ext_le_trans (a b c : ExtQ) : ext_le a b -> ext_le b c -> ext_le a c.
Proof.
  destruct a, b, c; simpl; try tauto. apply Qcle_trans.
Qed.

Lemma ext_lt_le (a b : ExtQ) : ext_lt a b -> ext_le a b.
Proof. destruct a, b; simpl; try tauto. apply Qclt_le_weak. Qed.

Lemma ext_le_lt_trans (a b c : ExtQ) : ext_le a b -> ext_lt b c -> ext_lt a c.
Proof.
  destruct a, b, c; simpl; try tauto. apply Qcle_lt_trans.
Qed.

Lemma ext_lt_irrefl (a : ExtQ) : ~ ext_lt a a.
Proof.
  destruct a as [p|]; simpl; [|tauto].
  intros H. exact (Qclt_not_eq _ _ H eq_refl).
Qed.

(** ** Scanning the list of cars *)

Lemma elem_of_scan_from (k i : nat) (cars : list Car.t) (c : Car.t) :
  c ∈ Car.scan_from k i cars <->
  exists j, cars !! j = Some c /\ (k + j)%nat <> i /\ Car.is_player c = false.
Proof.
  revert k. induction cars as [|car rest IH]; intros k; simpl.
  - split; [intros H; inversion H | intros (j & H & _); destruct j; discriminate].
  - destruct (Nat.eqb_spec k i) as [Hk|Hk]; simpl.
    + rewrite IH. split.
      * intros (j & Hj & Hne & Hp). exists (S j). split; [exact Hj|]. split; [lia|done].
      * intros (j & Hj & Hne & Hp). destruct j as [|j]; [lia|].
        exists j. split; [exact Hj|]. split; [lia|done].
    + destruct (Car.is_player car) eqn:Hpl.
      * rewrite IH. split.
        -- intros (j & Hj & Hne & Hp). exists (S j). split; [exact Hj|]. split; [lia|done].
        -- intros (j & Hj & Hne & Hp). destruct j as [|j].
           ++ simpl in Hj. congruence.
           ++ exists j. split; [exact Hj|]. split; [lia|done].
      * rewrite elem_of_cons, IH. split.
        -- intros [->|(j & Hj & Hne & Hp)].
           ++ exists 0%nat. split; [done|]. split; [lia|done].
           ++ exists (S j). split; [exact Hj|]. split; [lia|done].
        -- intros (j & Hj & Hne & Hp). destruct j as [|j].
           ++ left. simpl in Hj. congruence.
           ++ right. exists j. split; [exact Hj|]. split; [lia|done].
Qed.

Lemma elem_of_scanned (i : nat) (cars : list Car.t) (c : Car.t) :
  c ∈ Car.scanned i cars <-> visible i cars c.
Proof. unfold Car.scanned, visible. rewrite elem_of_scan_from. reflexivity. Qed.

(** ** The nearest car ahead *)

Lemma ahead_in_dec (self : Car.t) (l : nat) (c : Car.t) :
  ((Car.lane c =? l)%nat && Qcltb (Car.y c) (Car.y self) = true) <-> ahead_in self l c.
Proof.
  unfold ahead_in. rewrite andb_true_iff, Nat.eqb_eq, Qcltb_true. reflexivity.
Qed.

(** Membership in a list extended at the end. *)
Ltac in_snoc :=
  apply elem_of_app;
  first [ left; assumption | right; apply list_elem_of_singleton; reflexivity ].

Lemma closer_ok (self : Car.t) (l : nat) (seen : list Car.t)
      (acc : option Car.t * ExtQ) (car : Car.t) :
  front_ok self l seen acc -> front_ok self l (seen ++ [car]) (Car.closer self l acc car).
Proof.
  intros Hacc. unfold Car.closer.
  destruct ((Car.lane car =? l)%nat && Qcltb (Car.y car) (Car.y self)) eqn:Hah.
  - apply ahead_in_dec in Hah.
    destruct acc as [[c|] d]; simpl in *.
    + destruct Hacc as (-> & Hin & Hc & Hmin). simpl.
      destruct (Qcltb (Car.y self - Car.y car) (Car.y self - Car.y c)) eqn:Hlt; simpl.
      * apply Qcltb_true in Hlt.
        split; [done|]. split; [in_snoc|]. split; [done|].
        intros c' Hc' Hah'. apply elem_of_app in Hc' as [Hc'|Hc'].
        -- apply Qcle_trans with (Car.y self - Car.y c);
             [by apply Qclt_le_weak | by apply Hmin].
        -- apply list_elem_of_singleton in Hc' as ->. apply Qcle_refl.
      * apply Qcltb_false in Hlt.
        split; [done|]. split; [in_snoc|]. split; [done|].
        intros c' Hc' Hah'. apply elem_of_app in Hc' as [Hc'|Hc'].
        -- by apply Hmin.
        -- by apply list_elem_of_singleton in Hc' as ->.
    + destruct Hacc as (-> & Hnone). simpl.
      split; [done|]. split; [in_snoc|]. split; [done|].
      intros c' Hc' Hah'. apply elem_of_app in Hc' as [Hc'|Hc'].
      * by destruct (Hnone c').
      * apply list_elem_of_singleton in Hc' as ->. apply Qcle_refl.
  - assert (~ ahead_in self l car) as Hn.
    { rewrite <- ahead_in_dec, Hah. done. }
    destruct acc as [[c|] d]; simpl in *.
    + destruct Hacc as (-> & Hin & Hc & Hmin).
      split; [done|]. split; [in_snoc|]. split; [done|].
      intros c' Hc' Hah'. apply elem_of_app in Hc' as [Hc'|Hc'].
      * by apply Hmin.
      * apply list_elem_of_singleton in Hc' as ->. done.
    + destruct Hacc as (-> & Hnone). split; [done|].
      intros c' Hc'. apply elem_of_app in Hc' as [Hc'|Hc'].
      * by apply Hnone.
      * by apply list_elem_of_singleton in Hc' as ->.
Qed.

Lemma fold_closer_ok (self : Car.t) (l : nat) (cs seen : list Car.t)
      (acc : option Car.t * ExtQ) :
  front_ok self l seen acc ->
  front_ok self l (seen ++ cs) (fold_left (Car.closer self l) cs acc).
Proof.
  revert seen acc. induction cs as [|car rest IH]; intros seen acc Hacc; simpl.
  - by rewrite app_nil_r.
  - replace (seen ++ car :: rest) with ((seen ++ [car]) ++ rest)
      by (by rewrite <- app_assoc).
    apply IH. by apply closer_ok.
Qed.

Lemma get_car_in_front_ok (i : nat) (self : Car.t) (cars : list Car.t) (l : nat) :
  front_ok self l (Car.scanned i cars) (Car.get_car_in_front i self cars l).
Proof.
  unfold Car.get_car_in_front.
  apply (fold_closer_ok self l (Car.scanned i cars) [] (None, PInf)).
  simpl. split; [done|]. intros c Hc. inversion Hc.
Qed.

(** The result of [get_car_in_front], read off the list of cars. *)
Lemma get_car_in_front_None (i : nat) (self : Car.t) (cars : list Car.t) (l : nat)
      (d : ExtQ) :
  Car.get_car_in_front i self cars l = (None, d) ->
  d = PInf /\ forall c, visible i cars c -> ~ ahead_in self l c.
Proof.
  intros H. pose proof (get_car_in_front_ok i self cars l) as Hok.
  rewrite H in Hok. destruct Hok as [-> Hn]. split; [done|].
  intros c Hc. apply Hn. by apply elem_of_scanned.
Qed.

Lemma get_car_in_front_Some (i : nat) (self : Car.t) (cars : list Car.t) (l : nat)
      (c : Car.t) (d : ExtQ) :
  Car.get_car_in_front i self cars l = (Some c, d) ->
  d = Fin (Car.y self - Car.y c) /\ nearest_ahead i self cars l c.
Proof.
  intros H. pose proof (get_car_in_front_ok i self cars l) as Hok.
  rewrite H in Hok. destruct Hok as (-> & Hin & Hah & Hmin). split; [done|].
  split; [by apply elem_of_scanned|]. split; [done|].
  intros c' Hc'. apply Hmin. by apply elem_of_scanned.
Qed.

Lemma get_car_in_front_empty (i : nat) (self : Car.t) (cars : list Car.t) (l : nat) :
  (forall c, visible i cars c -> ~ ahead_in self l c) ->
  Car.get_car_in_front i self cars l = (None, PInf).
Proof.
  intros Hnone.
  destruct (Car.get_car_in_front i self cars l) as [[c|] d] eqn:H.
  - apply get_car_in_front_Some in H as (_ & Hv & Hah & _). by destruct (Hnone c).
  - apply get_car_in_front_None in H as [-> _]. done.
Qed.

(** ** The lane safety check *)

Lemma existsb_true_iff {A : Type} (f : A -> bool) (l : list A) :
  existsb f l = true <-> exists a, a ∈ l /\ f a = true.
Proof.
  rewrite existsb_exists. split; intros (a & Ha & Hf); exists a; split; try done;
    by apply list_elem_of_In.
Qed.

Lemma existsb_false_iff {A : Type} (f : A -> bool) (l : list A) :
  existsb f l = false <-> forall a, a ∈ l -> f a = false.
Proof.
  rewrite <- not_true_iff_false, existsb_true_iff. split.
  - intros Hn a Ha. destruct (f a) eqn:Hf; [|done]. destruct Hn. by exists a.
  - intros Hall (a & Ha & Hf). rewrite (Hall a Ha) in Hf. done.
Qed.

Lemma blind_spot_radius : Qc_of_Z CAR_HEIGHT * #2.5 = Qc_of_Z 125.
Proof. by apply Qc_is_canon. Qed.

Lemma blind_spot_scan (i : nat) (self : Car.t) (cars : list Car.t) (l : nat) :
  existsb (fun car =>
             (Car.lane car =? l)%nat
             && Qcltb (Qcabs (Car.y self - Car.y car)) (Qc_of_Z CAR_HEIGHT * #2.5))
          (Car.scanned i cars) = false
  <-> blind_spot_clear i self cars l.
Proof.
  rewrite existsb_false_iff, blind_spot_radius. unfold blind_spot_clear. split.
  - intros H c Hv Hl Hlt. apply elem_of_scanned in Hv. specialize (H c Hv).
    apply andb_false_iff in H as [H|H].
    + apply Nat.eqb_neq in H. done.
    + apply Qcltb_false in H. by apply (Qcle_not_lt _ _ H).
  - intros H c Hc. apply elem_of_scanned in Hc.
    destruct (Nat.eqb_spec (Car.lane c) l) as [Hl|Hl]; simpl; [|done].
    apply Qcltb_false, Qcnot_lt_le. by apply H.
Qed.

Lemma rear_scan (i : nat) (self : Car.t) (cars : list Car.t) (l : nat) :
  existsb (fun car =>
             (Car.lane car =? l)%nat && Qcltb (Car.y self) (Car.y car)
             && (Qcltb (Car.y car - Car.y self) (Qc_of_Z REAR_THREAT_DISTANCE)
                 && Qcltb (Car.speed self) (Car.speed car)))
          (Car.scanned i cars) = false
  <-> rear_clear i self cars l.
Proof.
  rewrite existsb_false_iff. unfold rear_clear. split.
  - intros H c Hv Hl Hy Hd Hs. apply elem_of_scanned in Hv. specialize (H c Hv).
    apply Nat.eqb_eq in Hl. apply Qcltb_true in Hy, Hd, Hs.
    unfold REAR_THREAT_DISTANCE in H. rewrite Hl, Hy, Hd, Hs in H. done.
  - intros H c Hc. apply elem_of_scanned in Hc.
    destruct (Nat.eqb_spec (Car.lane c) l) as [Hl|Hl]; simpl; [|done].
    destruct (Qcltb (Car.y self) (Car.y c)) eqn:Hy; simpl; [|done].
    destruct (Qcltb (Car.y c - Car.y self) (Qc_of_Z REAR_THREAT_DISTANCE)) eqn:Hd;
      simpl; [|done].
    apply Qcltb_true in Hy, Hd.
    apply Qcltb_false, Qcnot_lt_le. by apply H.
Qed.

Lemma forward_scan (i : nat) (self : Car.t) (cars : list Car.t) (l : nat) :
  (let (front_car, front_dist) := Car.get_car_in_front i self cars l in
   bool_decide (is_Some front_car)
   && ext_ltb front_dist (Fin (Qc_of_Z CHANGE_LANE_DISTANCE))) = false
  <-> forward_clear i self cars l.
Proof.
  unfold forward_clear.
  destruct (Car.get_car_in_front i self cars l) as [[c0|] d] eqn:Hf.
  - apply get_car_in_front_Some in Hf as (-> & Hnear).
    rewrite bool_decide_eq_true_2 by eauto. simpl. rewrite Qcltb_false.
    unfold CHANGE_LANE_DISTANCE. split.
    + intros Hd c (Hv & Hah & Hmin).
      apply Qcle_trans with (Car.y self - Car.y c0); [done|].
      destruct Hnear as (Hv0 & Hah0 & Hmin0). by apply Hmin0.
    + intros H. by apply H.
  - apply get_car_in_front_None in Hf as (-> & Hnone). simpl. split; [|done].
    intros _ c (Hv & Hah & _). by destruct (Hnone c).
Qed.

(** C4.  [is_lane_safe] answers true exactly when the three conditions
    hold together: the blind spot of 125 units is free of other non-player
    cars of the lane, the nearest such car ahead (if any) is at 150 units or
    more, and no such car behind within 100 units is faster than the
    evaluating car. *)
Theorem is_lane_safe_iff (i : nat) (self : Car.t) (cars : list Car.t) (l : nat) :
  Car.is_lane_safe i self cars l = true <->
  blind_spot_clear i self cars l /\ forward_clear i self cars l /\ rear_clear i self cars l.
Proof.
  rewrite <- blind_spot_scan, <- forward_scan, <- rear_scan.
  unfold Car.is_lane_safe.
  destruct (existsb _ (Car.scanned i cars)) eqn:H1; [intuition congruence|].
  destruct (Car.get_car_in_front i self cars l) as [front_car front_dist].
  cbv beta iota.
  destruct (bool_decide (is_Some front_car) && _) eqn:H2; [intuition congruence|].
  clear H1 H2.
  destruct (existsb _ (Car.scanned i cars)) eqn:H3; intuition congruence.
Qed.

(** ** The decision engine *)

Lemma adjust_speed_set (self : Car.t) :
  exists v, Car.adjust_speed self = Car.set_speed v self.
Proof. unfold Car.adjust_speed. destruct (Qcltb _ _); eauto. Qed.

Lemma get_car_in_front_y (i : nat) (s s' : Car.t) (cars : list Car.t) (l : nat) :
  Car.y s = Car.y s' ->
  Car.get_car_in_front i s cars l = Car.get_car_in_front i s' cars l.
Proof.
  intros Hy. unfold Car.get_car_in_front, Car.closer. by rewrite Hy.
Qed.

Lemma get_car_in_front_adjust (i : nat) (self : Car.t) (cars : list Car.t) (l : nat) :
  Car.get_car_in_front i (Car.adjust_speed self) cars l
  = Car.get_car_in_front i self cars l.
Proof.
  apply get_car_in_front_y. destruct (adjust_speed_set self) as [v ->]. done.
Qed.

Lemma possible_lanes_iff (self : Car.t) (l : nat) :
  l ∈ Car.possible_lanes self <-> adjacent self l.
Proof.
  unfold Car.possible_lanes, adjacent, LANE_COUNT.
  rewrite elem_of_app.
  destruct (Nat.ltb_spec 0 (Car.lane self)), (Nat.ltb_spec (Car.lane self) (3 - 1));
    rewrite ?list_elem_of_singleton, ?elem_of_nil; lia.
Qed.

Lemma possible_lanes_sorted (self : Car.t) :
  StronglySorted lt (Car.possible_lanes self).
Proof.
  unfold Car.possible_lanes.
  destruct (0 <? Car.lane self)%nat eqn:H0, (Car.lane self <? LANE_COUNT - 1)%nat;
    simpl; repeat constructor.
  apply Nat.ltb_lt in H0. lia.
Qed.

Lemma filter_sorted (f : nat -> bool) (l : list nat) :
  StronglySorted lt l -> StronglySorted lt (List.filter f l).
Proof.
  induction 1 as [|a l Hs IH Hall]; simpl; [constructor|].
  destruct (f a); [|done]. constructor; [done|].
  apply Forall_forall. intros b Hb.
  apply list_elem_of_In, filter_In in Hb as [Hb _].
  rewrite Forall_forall in Hall. apply Hall. by apply list_elem_of_In.
Qed.

Lemma elem_of_safe_lanes (i : nat) (self : Car.t) (cars : list Car.t) (l : nat) :
  l ∈ safe_lanes i self cars <-> adjacent self l /\ safe_now i self cars l = true.
Proof.
  unfold safe_lanes. rewrite list_elem_of_In, filter_In, <- list_elem_of_In.
  by rewrite possible_lanes_iff.
Qed.

(** Blocked, read off the list: the agent is not changing lane and some
    non-player car ahead in its lane is closer than 150; the blocking car
    is a nearest one. *)
Lemma blocked_by_nearest (i : nat) (self : Car.t) (cars : list Car.t) (front : Car.t) :
  blocked_by i self cars front ->
  Car.changing_lane self = false /\
  nearest_ahead i self cars (Car.lane self) front /\
  Car.y self - Car.y front < Qc_of_Z 150.
Proof.
  intros (Hch & d & Hf & Hd).
  apply get_car_in_front_Some in Hf as (-> & Hnear). done.
Qed.

Lemma blocked_by_exists (i : nat) (self : Car.t) (cars : list Car.t) (c : Car.t) :
  Car.changing_lane self = false ->
  visible i cars c -> ahead_in self (Car.lane self) c ->
  Car.y self - Car.y c < Qc_of_Z 150 ->
  exists front, blocked_by i self cars front.
Proof.
  intros Hch Hv Hah Hd.
  destruct (Car.get_car_in_front i self cars (Car.lane self)) as [[front|] d] eqn:Hf.
  - exists front. split; [done|]. exists d. split; [done|].
    apply get_car_in_front_Some in Hf as (-> & _ & _ & Hmin). simpl.
    apply Qcle_lt_trans with (Car.y self - Car.y c); [by apply Hmin|done].
  - apply get_car_in_front_None in Hf as (_ & Hnone). by destruct (Hnone c).
Qed.

(** *** [max] with a key *)

Lemma max_by_snoc {A : Type} (key : A -> ExtQ) (first : A) (rest : list A) (a : A) :
  Car.max_by key first (rest ++ [a]) =
  if ext_ltb (key (Car.max_by key first rest)) (key a) then a
  else Car.max_by key first rest.
Proof. unfold Car.max_by. by rewrite fold_left_app. Qed.

(** [max] returns the first item of maximal key: every item before it has
    a strictly smaller key, no item after it a greater one. *)
Lemma max_by_split {A : Type} (key : A -> ExtQ) (first : A) (rest : list A) :
  exists pre post,
    first :: rest = pre ++ Car.max_by key first rest :: post /\
    (forall a, a ∈ pre -> ext_lt (key a) (key (Car.max_by key first rest))) /\
    (forall a, a ∈ post -> ext_le (key a) (key (Car.max_by key first rest))).
Proof.
  induction rest as [|a rest IH] using rev_ind.
  - exists [], []. split; [done|]. split; intros a Ha; inversion Ha.
  - destruct IH as (pre & post & Heq & Hpre & Hpost).
    rewrite max_by_snoc.
    destruct (ext_ltb (key (Car.max_by key first rest)) (key a)) eqn:Hlt.
    + apply ext_ltb_true in Hlt.
      exists (first :: rest), []. split; [by rewrite app_comm_cons|].
      split; [|intros b Hb; inversion Hb].
      intros b Hb. rewrite Heq in Hb.
      apply elem_of_app in Hb as [Hb|Hb].
      * apply ext_le_lt_trans with (key (Car.max_by key first rest)); [|done].
        by apply ext_lt_le, Hpre.
      * apply elem_of_cons in Hb as [->|Hb]; [done|].
        apply ext_le_lt_trans with (key (Car.max_by key first rest)); [|done].
        by apply Hpost.
    + apply ext_ltb_false in Hlt.
      exists pre, (post ++ [a]). split.
      * rewrite app_comm_cons, Heq, <- app_assoc. done.
      * split; [done|]. intros b Hb.
        apply elem_of_app in Hb as [Hb|Hb]; [by apply Hpost|].
        by apply list_elem_of_singleton in Hb as ->.
Qed.

Lemma max_by_sorted (key : nat -> ExtQ) (first : nat) (rest : list nat) :
  StronglySorted lt (first :: rest) ->
  let best := Car.max_by key first rest in
  best ∈ first :: rest /\
  forall l, l ∈ first :: rest ->
            ext_le (key l) (key best) /\ (key l = key best -> (best <= l)%nat).
Proof.
  intros Hs best.
  destruct (max_by_split key first rest) as (pre & post & Heq & Hpre & Hpost).
  fold best in Heq, Hpre, Hpost. rewrite Heq in Hs |- *.
  split.
  - apply elem_of_app. right. by left.
  - intros l Hl. apply elem_of_app in Hl as [Hl|Hl].
    + split; [by apply ext_lt_le, Hpre|].
      intros Hk. specialize (Hpre l Hl). rewrite Hk in Hpre.
      by destruct (ext_lt_irrefl (key best)).
    + apply elem_of_cons in Hl as [->|Hl].
      * split; [apply ext_le_refl | lia].
      * split; [by apply Hpost|]. intros _.
        apply StronglySorted_app_1_r, StronglySorted_inv in Hs as [_ Hall].
        rewrite Forall_forall in Hall. apply Nat.lt_le_incl, Hall. done.
Qed.

(** *** The branches of [autonomous_drive] *)

Lemma adjust_speed_changing_lane (self : Car.t) :
  Car.changing_lane (Car.adjust_speed self) = Car.changing_lane self.
Proof. destruct (adjust_speed_set self) as [v ->]. done. Qed.

Lemma adjust_speed_lane (self : Car.t) :
  Car.lane (Car.adjust_speed self) = Car.lane self.
Proof. destruct (adjust_speed_set self) as [v ->]. done. Qed.

Lemma adjust_speed_possible_lanes (self : Car.t) :
  Car.possible_lanes (Car.adjust_speed self) = Car.possible_lanes self.
Proof. unfold Car.possible_lanes. by rewrite adjust_speed_lane. Qed.

Lemma adjust_speed_last_lane_change_time (self : Car.t) :
  Car.last_lane_change_time (Car.adjust_speed self) = Car.last_lane_change_time self.
Proof. destruct (adjust_speed_set self) as [v ->]. done. Qed.

Lemma adjust_speed_stuck_timer (self : Car.t) :
  Car.stuck_timer (Car.adjust_speed self) = Car.stuck_timer self.
Proof. destruct (adjust_speed_set self) as [v ->]. done. Qed.

Lemma adjust_speed_target_lane (self : Car.t) :
  Car.target_lane (Car.adjust_speed self) = Car.target_lane self.
Proof. destruct (adjust_speed_set self) as [v ->]. done. Qed.

(** [autonomous_drive] on a blocked agent: commit when off cooldown with a
    safe adjacent lane, brake otherwise. *)
Lemma autonomous_drive_blocked (i : nat) (self : Car.t) (cars : list Car.t) (fc : Z)
      (front : Car.t) :
  blocked_by i self cars front ->
  Car.autonomous_drive i self cars fc =
  if (fc - Car.last_lane_change_time self <? 60)%Z then brake self front
  else match safe_lanes i self cars with
       | first :: rest =>
           commit self (Car.max_by (ahead_dist i self cars) first rest)
       | [] => brake self front
       end.
Proof.
  intros (Hch & d & Hfront & Hd).
  unfold Car.autonomous_drive.
  rewrite adjust_speed_changing_lane, Hch. simpl.
  rewrite adjust_speed_lane, get_car_in_front_adjust, Hfront.
  apply ext_ltb_true in Hd. unfold CHANGE_LANE_DISTANCE. rewrite Hd.
  rewrite adjust_speed_last_lane_change_time. unfold min_lane_change_interval.
  destruct (fc - Car.last_lane_change_time self <? 60)%Z; simpl.
  - unfold brake. by rewrite adjust_speed_stuck_timer.
  - rewrite adjust_speed_possible_lanes. unfold safe_lanes, safe_now.
    destruct (List.filter _ (Car.possible_lanes self)) as [|first rest].
    + unfold brake. by rewrite adjust_speed_stuck_timer.
    + unfold commit, ahead_dist.
      assert (forall rest0 first0,
                 Car.max_by (fun l => snd (Car.get_car_in_front i (Car.adjust_speed self) cars l)) first0 rest0
                 = Car.max_by (fun l => snd (Car.get_car_in_front i self cars l)) first0 rest0) as Hmax.
      { unfold Car.max_by. induction rest0 as [|a rest0 IH]; intros first0; simpl; [done|].
        rewrite !get_car_in_front_adjust. apply IH. }
      by rewrite Hmax.
Qed.

Lemma autonomous_drive_brake (i : nat) (self : Car.t) (cars : list Car.t) (fc : Z)
      (front : Car.t) :
  blocked_by i self cars front ->
  on_cooldown fc self \/ (forall l, adjacent self l -> safe_now i self cars l = false) ->
  Car.autonomous_drive i self cars fc = brake self front.
Proof.
  intros Hb Hno. rewrite (autonomous_drive_blocked i self cars fc front Hb).
  destruct (Z.ltb_spec (fc - Car.last_lane_change_time self) 60) as [Hc|Hc]; [done|].
  destruct Hno as [Hcool|Hno]; [unfold on_cooldown in Hcool; lia|].
  destruct (safe_lanes i self cars) as [|first rest] eqn:Hs; [done|].
  assert (first ∈ safe_lanes i self cars) as Hin by (rewrite Hs; by left).
  apply elem_of_safe_lanes in Hin as [Hadj Hsafe].
  rewrite (Hno first Hadj) in Hsafe. done.
Qed.

Lemma autonomous_drive_commit (i : nat) (self : Car.t) (cars : list Car.t) (fc : Z)
      (front : Car.t) :
  blocked_by i self cars front ->
  ~ on_cooldown fc self ->
  (exists l, adjacent self l /\ safe_now i self cars l = true) ->
  exists best,
    Car.autonomous_drive i self cars fc = commit self best /\
    adjacent self best /\ safe_now i self cars best = true /\
    forall l, adjacent self l -> safe_now i self cars l = true ->
              ext_le (ahead_dist i self cars l) (ahead_dist i self cars best) /\
              (ahead_dist i self cars l = ahead_dist i self cars best -> (best <= l)%nat).
Proof.
  intros Hb Hcool (l0 & Hadj0 & Hsafe0).
  rewrite (autonomous_drive_blocked i self cars fc front Hb).
  destruct (Z.ltb_spec (fc - Car.last_lane_change_time self) 60) as [Hc|Hc];
    [by destruct Hcool|].
  assert (l0 ∈ safe_lanes i self cars) as Hin0 by (by apply elem_of_safe_lanes).
  destruct (safe_lanes i self cars) as [|first rest] eqn:Hs; [inversion Hin0|].
  assert (StronglySorted lt (first :: rest)) as Hsorted.
  { rewrite <- Hs. apply filter_sorted, possible_lanes_sorted. }
  destruct (max_by_sorted (ahead_dist i self cars) first rest Hsorted) as [Hin Hmax].
  exists (Car.max_by (ahead_dist i self cars) first rest).
  split; [done|].
  rewrite <- Hs in Hin. apply elem_of_safe_lanes in Hin as [Hadj Hsafe].
  split; [done|]. split; [done|].
  intros l Hl Hsl. apply Hmax. rewrite <- Hs. by apply elem_of_safe_lanes.
Qed.

(** *** Committing to a lane change *)

Lemma blocked_A : blocked_by 0 agent_A world_A front_A.
Proof.
  split; [reflexivity|]. eexists. split; [vm_compute; reflexivity|].
  vm_compute. reflexivity.
Qed.

Lemma no_car_ahead_A (l : nat) :
  l <> 1%nat -> forall c, visible 0 world_A c -> ~ ahead_in agent_A l c.
Proof.
  intros Hl c (j & Hj & Hne & Hp) [Hlane _].
  destruct j as [|[|j]]; simpl in Hj; [lia| |done].
  injection Hj as <-. simpl in Hlane. congruence.
Qed.

Lemma safe_A (l : nat) : (l = 0 \/ l = 2)%nat -> safe_now 0 agent_A world_A l = true.
Proof. intros [->| ->]; vm_compute; reflexivity. Qed.

(** C6.  A blocked agent that is off cooldown and has a safe adjacent lane
    commits, in the same call of the decision engine, to a safe adjacent
    lane of maximal distance to the nearest car ahead, the lower lane on a
    tie.  The commitment sets [changing_lane], [target_lane], the cruising
    maximum as [target_speed] and a zero [stuck_timer]; apart from the
    decision label and the speed update made on entry, nothing else of the
    agent changes. *)
Theorem commit_to_best_safe_lane (i : nat) (self : Car.t) (cars : list Car.t) (fc : Z)
        (front : Car.t) :
  blocked_by i self cars front ->
  ~ on_cooldown fc self ->
  (exists l, adjacent self l /\ safe_now i self cars l = true) ->
  let self' := Car.autonomous_drive i self cars fc in
  exists best,
    (adjacent self best /\ safe_now i self cars best = true) /\
    (forall l, adjacent self l -> safe_now i self cars l = true ->
               ext_le (ahead_dist i self cars l) (ahead_dist i self cars best) /\
               (ahead_dist i self cars l = ahead_dist i self cars best -> (best <= l)%nat)) /\
    (Car.changing_lane self' = true /\ Car.target_lane self' = best /\
     Car.target_speed self' = PLAYER_SPEED_MAX /\ Car.stuck_timer self' = 0%Z) /\
    (Car.x self' = Car.x self /\ Car.y self' = Car.y self /\ Car.lane self' = Car.lane self /\
     Car.speed self' = Car.speed (Car.adjust_speed self) /\
     Car.is_player self' = Car.is_player self /\
     Car.change_progress self' = Car.change_progress self /\
     Car.collided self' = Car.collided self /\
     Car.last_lane_change_time self' = Car.last_lane_change_time self).
Proof.
  intros Hb Hcool Hex self'.
  destruct (autonomous_drive_commit i self cars fc front Hb Hcool Hex)
    as (best & Heq & Hadj & Hsafe & Hmax).
  exists best. subst self'. rewrite Heq.
  split; [done|]. split; [done|]. split; [done|].
  unfold commit. destruct (adjust_speed_set self) as [v ->]. done.
Qed.

Lemma commit_to_best_safe_lane_witness :
  exists best,
    (adjacent agent_A best /\ safe_now 0 agent_A world_A best = true) /\
    (forall l, adjacent agent_A l -> safe_now 0 agent_A world_A l = true ->
               ext_le (ahead_dist 0 agent_A world_A l) (ahead_dist 0 agent_A world_A best) /\
               (ahead_dist 0 agent_A world_A l = ahead_dist 0 agent_A world_A best ->
                (best <= l)%nat)) /\
    (Car.changing_lane (Car.autonomous_drive 0 agent_A world_A 100) = true /\
     Car.target_lane (Car.autonomous_drive 0 agent_A world_A 100) = best /\
     Car.target_speed (Car.autonomous_drive 0 agent_A world_A 100) = PLAYER_SPEED_MAX /\
     Car.stuck_timer (Car.autonomous_drive 0 agent_A world_A 100) = 0%Z) /\
    (Car.x (Car.autonomous_drive 0 agent_A world_A 100) = Car.x agent_A /\
     Car.y (Car.autonomous_drive 0 agent_A world_A 100) = Car.y agent_A /\
     Car.lane (Car.autonomous_drive 0 agent_A world_A 100) = Car.lane agent_A /\
     Car.speed (Car.autonomous_drive 0 agent_A world_A 100)
     = Car.speed (Car.adjust_speed agent_A) /\
     Car.is_player (Car.autonomous_drive 0 agent_A world_A 100) = Car.is_player agent_A /\
     Car.change_progress (Car.autonomous_drive 0 agent_A world_A 100)
     = Car.change_progress agent_A /\
     Car.collided (Car.autonomous_drive 0 agent_A world_A 100) = Car.collided agent_A /\
     Car.last_lane_change_time (Car.autonomous_drive 0 agent_A world_A 100)
     = Car.last_lane_change_time agent_A).
Proof.
  apply (commit_to_best_safe_lane 0 agent_A world_A 100 front_A).
  - exact blocked_A.
  - unfold on_cooldown. simpl. lia.
  - exists 0%nat. split; [left; reflexivity | apply safe_A; left; reflexivity].
Defined.

(** In scenario A both lanes are empty ahead: the tie goes to lane 0. *)
Example scenario_A :
  Car.target_lane (Car.autonomous_drive 0 agent_A world_A 100) = 0%nat
  /\ Car.lane_decision (Car.autonomous_drive 0 agent_A world_A 100) = "Changing to Lane 1"%string.
Proof. split; vm_compute; reflexivity. Qed.

(** C9.  When no non-player car is ahead in lane [l], [get_car_in_front]
    returns no car and the distance [float('inf')]; and when such a lane is
    a safe adjacent lane of a blocked agent off cooldown, the lane the agent
    commits to has the distance [float('inf')] as well, so no lane with a
    finite distance to its nearest car ahead is chosen. *)
Theorem empty_lane_is_maximal (i : nat) (self : Car.t) (cars : list Car.t) (l : nat) :
  (forall c, visible i cars c -> ~ ahead_in self l c) ->
  Car.get_car_in_front i self cars l = (None, PInf) /\
  forall (fc : Z) (front : Car.t),
    blocked_by i self cars front ->
    ~ on_cooldown fc self ->
    adjacent self l -> safe_now i self cars l = true ->
    let self' := Car.autonomous_drive i self cars fc in
    Car.changing_lane self' = true /\
    ahead_dist i self cars (Car.target_lane self') = PInf /\
    forall l' q, ahead_dist i self cars l' = Fin q -> Car.target_lane self' <> l'.
Proof.
  intros Hnone.
  pose proof (get_car_in_front_empty i self cars l Hnone) as Hinf.
  split; [done|].
  intros fc front Hb Hcool Hadj Hsafe self'.
  destruct (autonomous_drive_commit i self cars fc front Hb Hcool) as
    (best & Heq & Hadjb & Hsafeb & Hmax); [by exists l|].
  subst self'. rewrite Heq.
  assert (ahead_dist i self cars best = PInf) as Hbest.
  { destruct (Hmax l Hadj Hsafe) as [Hle _].
    unfold ahead_dist in Hle at 1. rewrite Hinf in Hle. simpl in Hle.
    destruct (ahead_dist i self cars best); [done|reflexivity]. }
  unfold commit. simpl. split; [done|]. split; [done|].
  intros l' q Hq ->. congruence.
Qed.

Lemma blocked_B : blocked_by 0 agent_A world_B front_A.
Proof.
  split; [reflexivity|]. eexists. split; [vm_compute; reflexivity|].
  vm_compute. reflexivity.
Qed.

Lemma no_car_ahead_B : forall c, visible 0 world_B c -> ~ ahead_in agent_A 2 c.
Proof.
  intros c (j & Hj & Hne & Hp) [Hlane _].
  destruct j as [|[|[|j]]]; simpl in Hj; [lia| | |done];
    injection Hj as <-; simpl in Hlane; congruence.
Qed.

Lemma empty_lane_is_maximal_witness :
  Car.get_car_in_front 0 agent_A world_B 2 = (None, PInf) /\
  Car.changing_lane (Car.autonomous_drive 0 agent_A world_B 100) = true /\
  ahead_dist 0 agent_A world_B (Car.target_lane (Car.autonomous_drive 0 agent_A world_B 100))
  = PInf /\
  forall l' q, ahead_dist 0 agent_A world_B l' = Fin q ->
               Car.target_lane (Car.autonomous_drive 0 agent_A world_B 100) <> l'.
Proof.
  destruct (empty_lane_is_maximal 0 agent_A world_B 2 no_car_ahead_B) as [Hinf Hbest].
  split; [exact Hinf|].
  apply (Hbest 100%Z front_A).
  - exact blocked_B.
  - unfold on_cooldown. simpl. lia.
  - right. split; [reflexivity | unfold LANE_COUNT; lia].
  - vm_compute. reflexivity.
Defined.

(** Lane 0 is safe with a car 200 ahead, lane 2 is empty: lane 2 wins
    although lane 0 comes first. *)
Example scenario_B :
  (safe_now 0 agent_A world_B 0 = true)
  /\ (ahead_dist 0 agent_A world_B 0 = Fin (Qc_of_Z 200))
  /\ (Car.target_lane (Car.autonomous_drive 0 agent_A world_B 100) = 2%nat).
Proof.
  split; [vm_compute; reflexivity|]. split; [|vm_compute; reflexivity].
  unfold ahead_dist. f_equal.
  destruct (Car.get_car_in_front 0 agent_A world_B 0) as [c d] eqn:H.
  vm_compute in H. injection H as _ <-. simpl. f_equal. by apply Qc_is_canon.
Qed.

(** ** One pass of [move] over the list *)

Lemma move_at_None (fc : Z) (rnd : nat -> Draw) (i : nat) :
  move_at fc rnd None i = None.
Proof. reflexivity. Qed.

Lemma moves_None (fc : Z) (rnd : nat -> Draw) (ks : list nat) :
  fold_left (move_at fc rnd) ks None = None.
Proof. induction ks as [|i ks IH]; simpl; [done|exact IH]. Qed.

Lemma move_at_Some (fc : Z) (rnd : nat -> Draw) (cs cs' : list Car.t) (i : nat) :
  move_at fc rnd (Some cs) i = Some cs' ->
  exists car pc car',
    cs !! i = Some car /\ cs !! player_index = Some pc /\
    Car.move i car cs fc pc (rnd i) = Some car' /\ cs' = <[i := car']> cs.
Proof.
  unfold move_at. simpl.
  destruct (cs !! i) as [car|] eqn:Hi; simpl; [|done].
  destruct (cs !! player_index) as [pc|] eqn:Hp; simpl; [|done].
  destruct (Car.move i car cs fc pc (rnd i)) as [car'|] eqn:Hm; simpl; [|done].
  intros [= <-]. by exists car, pc, car'.
Qed.

(** A pass over the indices [k .. k+m-1]. *)
Lemma moves_step (fc : Z) (rnd : nat -> Draw) (k m : nat) (cs cs' : list Car.t) :
  fold_left (move_at fc rnd) (seq k (S m)) (Some cs) = Some cs' ->
  exists cs1,
    move_at fc rnd (Some cs) k = Some cs1 /\
    fold_left (move_at fc rnd) (seq (S k) m) (Some cs1) = Some cs'.
Proof.
  cbn [seq fold_left].
  destruct (move_at fc rnd (Some cs) k) as [cs1|] eqn:H1.
  - intros H. by exists cs1.
  - by rewrite moves_None.
Qed.

(** The rounds for the indices from [k] on leave the cars before [k] alone. *)
Lemma moves_lookup_lt (fc : Z) (rnd : nat -> Draw) (m k : nat) (cs cs' : list Car.t)
      (j : nat) :
  fold_left (move_at fc rnd) (seq k m) (Some cs) = Some cs' ->
  (j < k)%nat -> cs' !! j = cs !! j.
Proof.
  revert k cs. induction m as [|m IH]; intros k cs H Hj.
  - simpl in H. by injection H as <-.
  - apply moves_step in H as (cs1 & H1 & H).
    apply move_at_Some in H1 as (car & pc & car' & _ & _ & _ & ->).
    rewrite (IH (S k) _ H) by lia.
    apply list_lookup_insert_ne. lia.
Qed.

(** A relation that [move] establishes between a car and its successor
    holds, after the pass, for every car of the list. *)
Lemma moves_rel (R : Car.t -> Car.t -> Prop) (fc : Z) (rnd : nat -> Draw) :
  (forall c, R c c) ->
  (forall i c cs pc d c', Car.move i c cs fc pc d = Some c' -> R c c') ->
  forall (m k : nat) (cs cs' : list Car.t),
    fold_left (move_at fc rnd) (seq k m) (Some cs) = Some cs' ->
    forall j c, cs !! j = Some c -> exists c', cs' !! j = Some c' /\ R c c'.
Proof.
  intros Hrefl Hmove. induction m as [|m IH]; intros k cs cs' H j c Hj.
  - simpl in H. injection H as <-. by exists c.
  - apply moves_step in H as (cs1 & H1 & H).
    apply move_at_Some in H1 as (car & pc & car' & Hk & _ & Hm & ->).
    destruct (decide (j = k)) as [->|Hne].
    + exists car'. split.
      * rewrite (moves_lookup_lt _ _ _ _ _ _ k H) by lia.
        apply list_lookup_insert_eq. by apply lookup_lt_Some in Hk.
      * assert (c = car) as -> by congruence. by apply (Hmove _ _ _ _ _ _ Hm).
    + apply (IH (S k) _ _ H). by rewrite list_lookup_insert_ne.
Qed.

Lemma move_all_rel (R : Car.t -> Car.t -> Prop) (fc : Z) (rnd : nat -> Draw)
      (cs cs' : list Car.t) :
  (forall c, R c c) ->
  (forall i c cs pc d c', Car.move i c cs fc pc d = Some c' -> R c c') ->
  move_all fc rnd cs = Some cs' ->
  forall j c, cs !! j = Some c -> exists c', cs' !! j = Some c' /\ R c c'.
Proof. intros Hrefl Hmove H. by apply (moves_rel R fc rnd Hrefl Hmove _ _ _ _ H). Qed.

Lemma moves_length (fc : Z) (rnd : nat -> Draw) (m k : nat) (cs cs' : list Car.t) :
  fold_left (move_at fc rnd) (seq k m) (Some cs) = Some cs' -> length cs' = length cs.
Proof.
  revert k cs. induction m as [|m IH]; intros k cs H.
  - simpl in H. by injection H as <-.
  - apply moves_step in H as (cs1 & H1 & H).
    apply move_at_Some in H1 as (car & pc & car' & _ & _ & _ & ->).
    rewrite (IH _ _ H). apply length_insert.
Qed.

(** The player, first in the list, moves first, on the list as the last
    tick left it. *)
Lemma move_all_player (fc : Z) (rnd : nat -> Draw) (cs cs' : list Car.t) (p : Car.t) :
  move_all fc rnd cs = Some cs' ->
  cs !! player_index = Some p ->
  exists p', Car.move player_index p cs fc p (rnd player_index) = Some p'
             /\ cs' !! player_index = Some p'.
Proof.
  unfold move_all, player_index. intros H Hp.
  destruct cs as [|p0 rest]; [done|]. simpl in Hp. injection Hp as ->.
  change (length (p :: rest)) with (S (length rest)) in H.
  apply moves_step in H as (cs1 & H1 & H).
  apply move_at_Some in H1 as (car & pc & car' & Hk & Hpc & Hm & ->).
  simpl in Hk, Hpc. injection Hk as <-. injection Hpc as <-.
  exists car'. split; [done|].
  by rewrite (moves_lookup_lt _ _ _ _ _ _ 0%nat H) by lia.
Qed.

(** ** The collision check *)

Lemma body_rect_set_collided (v : bool) (c : Car.t) :
  Car.body_rect (Car.set_collided v c) = Car.body_rect c.
Proof. reflexivity. Qed.

Lemma body_rect_crash (c : Car.t) : Car.body_rect (Car.crash c) = Car.body_rect c.
Proof. reflexivity. Qed.

Lemma first_hit_Some (k i : nat) (r : Pygame.Rect) (cars : list Car.t) (j : nat) :
  Car.first_hit k i r cars = Some j ->
  exists j0, j = (k + j0)%nat /\ j <> i /\
    (exists c, cars !! j0 = Some c /\ Pygame.colliderect r (Car.body_rect c) = true) /\
    forall j' c', (j' < j0)%nat -> (k + j')%nat <> i -> cars !! j' = Some c' ->
                  Pygame.colliderect r (Car.body_rect c') = false.
Proof.
  revert k. induction cars as [|car rest IH]; intros k; simpl; [done|].
  destruct (Nat.eqb_spec k i) as [Hk|Hk].
  - intros H. apply IH in H as (j0 & -> & Hne & Hex & Hfirst).
    exists (S j0). split; [lia|]. split; [done|]. split; [done|].
    intros j' c' Hlt Hne' Hj'. destruct j' as [|j']; [lia|].
    apply (Hfirst j' c'); [lia|lia|done].
  - destruct (Pygame.colliderect r (Car.body_rect car)) eqn:Hc.
    + intros [= <-]. exists 0%nat. split; [lia|]. split; [lia|].
      split; [by exists car|]. intros j' c' Hlt. lia.
    + intros H. apply IH in H as (j0 & -> & Hne & Hex & Hfirst).
      exists (S j0). split; [lia|]. split; [done|]. split; [done|].
      intros j' c' Hlt Hne' Hj'. destruct j' as [|j'].
      * simpl in Hj'. by injection Hj' as <-.
      * apply (Hfirst j' c'); [lia|lia|done].
Qed.

Lemma first_hit_None (k i : nat) (r : Pygame.Rect) (cars : list Car.t) :
  Car.first_hit k i r cars = None ->
  forall j c, (k + j)%nat <> i -> cars !! j = Some c ->
              Pygame.colliderect r (Car.body_rect c) = false.
Proof.
  revert k. induction cars as [|car rest IH]; intros k; simpl; [done|].
  destruct (Nat.eqb_spec k i) as [Hk|Hk].
  - intros H j c Hne Hj. destruct j as [|j]; [lia|].
    apply (IH _ H j c); [lia|done].
  - destruct (Pygame.colliderect r (Car.body_rect car)) eqn:Hc; [done|].
    intros H j c Hne Hj. destruct j as [|j].
    + simpl in Hj. by injection Hj as <-.
    + apply (IH _ H j c); [lia|done].
Qed.

Lemma first_hit_overlap (i : nat) (r : Pygame.Rect) (cars : list Car.t) (j : nat) :
  Car.first_hit 0 i r cars = Some j <-> first_overlap i r cars j.
Proof.
  split.
  - intros H. apply first_hit_Some in H as (j0 & -> & Hne & Hex & Hfirst). done.
  - intros (Hne & (c & Hc & Hhit) & Hfirst).
    destruct (Car.first_hit 0 i r cars) as [j1|] eqn:H.
    + apply first_hit_Some in H as (j0 & -> & Hne1 & (c1 & Hc1 & Hhit1) & Hfirst1).
      simpl in *. f_equal.
      destruct (Nat.lt_trichotomy j0 j) as [Hlt|[->|Hgt]]; [|done|].
      * rewrite (Hfirst j0 c1 Hlt Hne1 Hc1) in Hhit1. done.
      * rewrite (Hfirst1 j c Hgt Hne Hc) in Hhit. done.
    + rewrite (first_hit_None _ _ _ _ H j c Hne Hc) in Hhit. done.
Qed.

(** What the check leaves at each index. *)
Lemma check_collision_lookup (i : nat) (self : Car.t) (cars : list Car.t) (j : nat) :
  cars !! i = Some self ->
  Car.update_sensors_and_check_collision i self cars !! j =
  if Car.collided self then cars !! j
  else match Car.first_hit 0 i (Car.body_rect self) cars with
       | Some h =>
           if decide (j = i) then Some (Car.crash self)
           else if decide (j = h) then Car.set_collided true <$> cars !! j
                else cars !! j
       | None => cars !! j
       end.
Proof.
  intros Hi. unfold Car.update_sensors_and_check_collision.
  destruct (Car.collided self); [done|].
  destruct (Car.first_hit 0 i (Car.body_rect self) cars) as [h|] eqn:Hh; [|done].
  apply first_hit_Some in Hh as (j0 & -> & Hne & _). simpl in *.
  destruct (decide (j = i)) as [->|Hji].
  - rewrite list_lookup_alter_ne by done.
    apply list_lookup_insert_eq. by apply lookup_lt_Some in Hi.
  - destruct (decide (j = j0)) as [->|Hjh].
    + rewrite list_lookup_alter_eq. by rewrite list_lookup_insert_ne by lia.
    + rewrite list_lookup_alter_ne by lia. by rewrite list_lookup_insert_ne by lia.
Qed.

(** The step, taken apart. *)
Lemma tick_inv (fc : Z) (rnd : nat -> Draw) (cs cs' : list Car.t) :
  tick fc rnd cs = Some cs' ->
  exists cm pm,
    move_all fc rnd cs = Some cm /\ cm !! player_index = Some pm /\
    cs' = Car.update_sensors_and_check_collision player_index pm cm.
Proof.
  unfold tick. destruct (move_all fc rnd cs) as [cm|]; simpl; [|done].
  destruct (cm !! player_index) as [pm|] eqn:Hp; simpl; [|done].
  intros [= <-]. by exists cm, pm.
Qed.

Lemma check_collision_flags (i : nat) (self : Car.t) (cars : list Car.t) (j : nat)
      (c : Car.t) :
  cars !! i = Some self -> cars !! j = Some c ->
  exists c', Car.update_sensors_and_check_collision i self cars !! j = Some c'
             /\ same_but_flags c c'.
Proof.
  intros Hi Hj. rewrite (check_collision_lookup i self cars j Hi).
  destruct (Car.collided self); [exists c; split; [done|by left]|].
  destruct (Car.first_hit 0 i (Car.body_rect self) cars) as [h|];
    [|exists c; split; [done|by left]].
  destruct (decide (j = i)) as [->|Hji].
  - exists (Car.crash self). split; [done|].
    assert (c = self) as -> by congruence. right. by right.
  - destruct (decide (j = h)) as [->|Hjh].
    + rewrite Hj. exists (Car.set_collided true c). split; [done|]. right. by left.
    + exists c. split; [done|]. by left.
Qed.

(** ** The branches of [autonomous_drive], [steer] and [move] *)

Lemma autonomous_drive_decision (i : nat) (self : Car.t) (cars : list Car.t) (fc : Z) :
  decision i self cars fc (Car.autonomous_drive i self cars fc).
Proof.
  destruct (Car.changing_lane self) eqn:Hch.
  - unfold Car.autonomous_drive.
    rewrite adjust_speed_changing_lane, adjust_speed_target_lane, Hch.
    destruct (Car.is_lane_safe i (Car.adjust_speed self) cars (Car.target_lane self))
      eqn:Hsafe; simpl.
    + destruct (Car.get_car_in_front i (Car.adjust_speed self) cars _) as [[front|] d];
        by apply decide_continue.
    + by apply decide_abort.
  - destruct (Car.get_car_in_front i self cars (Car.lane self)) as [[front|] d] eqn:Hf.
    + destruct (ext_ltb d (Fin (Qc_of_Z 150))) eqn:Hd.
      * assert (blocked_by i self cars front) as Hb.
        { split; [done|]. exists d. split; [done|]. by apply ext_ltb_true. }
        destruct (Z.ltb_spec (fc - Car.last_lane_change_time self) 60) as [Hc|Hc].
        -- rewrite (autonomous_drive_brake i self cars fc front Hb) by (by left).
           apply decide_brake; [done|by left].
        -- destruct (safe_lanes i self cars) as [|first rest] eqn:Hs.
           ++ assert (forall l, adjacent self l -> safe_now i self cars l = false) as Hno.
              { intros l Hl. destruct (safe_now i self cars l) eqn:Hsl; [|done].
                assert (l ∈ safe_lanes i self cars) as Hin
                    by (by apply elem_of_safe_lanes).
                rewrite Hs in Hin. inversion Hin. }
              rewrite (autonomous_drive_brake i self cars fc front Hb) by (by right).
              apply decide_brake; [done|by right].
           ++ assert (first ∈ safe_lanes i self cars) as Hin by (rewrite Hs; by left).
              apply elem_of_safe_lanes in Hin as [Hadj Hsafe].
              assert (~ on_cooldown fc self) as Hcool by (unfold on_cooldown; lia).
              destruct (autonomous_drive_commit i self cars fc front Hb Hcool)
                as (best & -> & Hadjb & Hsafeb & _); [by exists first|].
              by apply (decide_commit _ _ _ _ front best).
      * assert (forall front', ~ blocked_by i self cars front') as Hnb.
        { intros front' (_ & d' & Hf' & Hd'). rewrite Hf in Hf'. injection Hf' as _ <-.
          apply ext_ltb_true in Hd'. congruence. }
        unfold Car.autonomous_drive.
        rewrite adjust_speed_changing_lane, adjust_speed_lane, get_car_in_front_adjust,
          Hch, Hf. unfold CHANGE_LANE_DISTANCE. rewrite Hd. simpl.
        by apply decide_clear.
    + assert (forall front', ~ blocked_by i self cars front') as Hnb.
      { intros front' (_ & d' & Hf' & Hd'). rewrite Hf in Hf'. done. }
      unfold Car.autonomous_drive.
      rewrite adjust_speed_changing_lane, adjust_speed_lane, get_car_in_front_adjust,
        Hch, Hf. simpl.
      by apply decide_clear.
Qed.

(** The fields the decision engine never writes. *)
Lemma autonomous_drive_frame (i : nat) (self : Car.t) (cars : list Car.t) (fc : Z) :
  let self' := Car.autonomous_drive i self cars fc in
  Car.x self' = Car.x self /\ Car.y self' = Car.y self /\ Car.lane self' = Car.lane self /\
  Car.is_player self' = Car.is_player self /\
  Car.change_progress self' = Car.change_progress self /\
  Car.collided self' = Car.collided self /\
  Car.last_lane_change_time self' = Car.last_lane_change_time self.
Proof.
  intros self'. subst self'.
  destruct (autonomous_drive_decision i self cars fc);
    unfold abort, clear, brake, commit;
    destruct (adjust_speed_set self) as [v ->]; simpl;
    try destruct (300 <? Car.stuck_timer self + 1)%Z; done.
Qed.

Lemma steer_steered (fc : Z) (s s' : Car.t) :
  Car.steer fc s = Some s' -> steered fc s s'.
Proof.
  unfold Car.steer. destruct (Car.changing_lane s) eqn:Hch.
  - simpl.
    destruct (Car.lane_center (Car.lane s)) as [start_x|]; simpl; [|done].
    destruct (Car.lane_center (Car.target_lane s)) as [end_x|]; simpl; [|done].
    destruct (Qcleb #1.0 (Car.change_progress s + #0.05)) eqn:Hp.
    + simpl. intros [= <-]. apply Qcleb_true in Hp.
      by apply (steer_complete fc s end_x).
    + intros [= <-]. apply Qcleb_false in Hp.
      by apply (steer_progress fc s).
  - destruct (Car.lane_center (Car.lane s)) as [target_x|]; simpl; [|done].
    intros [= <-]. by apply steer_relax.
Qed.

Lemma steer_frame (fc : Z) (s s' : Car.t) :
  Car.steer fc s = Some s' ->
  Car.y s' = Car.y s /\ Car.speed s' = Car.speed s /\ Car.is_player s' = Car.is_player s /\
  Car.target_speed s' = Car.target_speed s /\ Car.target_lane s' = Car.target_lane s /\
  Car.collided s' = Car.collided s /\ Car.lane_decision s' = Car.lane_decision s /\
  Car.stuck_timer s' = Car.stuck_timer s.
Proof. intros H. destruct (steer_steered fc s s' H); simpl; done. Qed.

Lemma drift_frame (pc : Car.t) (d : Draw) (s s' : Car.t) :
  Car.drift pc d s = Some s' ->
  Car.is_player s' = Car.is_player s /\ Car.target_speed s' = Car.target_speed s /\
  Car.changing_lane s' = Car.changing_lane s /\ Car.target_lane s' = Car.target_lane s /\
  Car.change_progress s' = Car.change_progress s /\ Car.collided s' = Car.collided s /\
  Car.lane_decision s' = Car.lane_decision s /\
  Car.last_lane_change_time s' = Car.last_lane_change_time s /\
  Car.stuck_timer s' = Car.stuck_timer s.
Proof.
  unfold Car.drift, Car.respawn.
  destruct (Qcltb _ _); simpl.
  - destruct (Car.lane_center _) as [cx|]; simpl; [|done]. by intros [= <-].
  - by intros [= <-].
Qed.

(** [move], taken apart. *)
Lemma move_inv (i : nat) (c : Car.t) (cs : list Car.t) (fc : Z) (pc : Car.t) (d : Draw)
      (c' : Car.t) :
  Car.move i c cs fc pc d = Some c' ->
  (Car.collided c = true /\ c' = c) \/
  (Car.collided c = false /\ Car.is_player c = true /\
   Car.steer fc (Car.autonomous_drive i c cs fc) = Some c') \/
  (Car.collided c = false /\ Car.is_player c = false /\
   exists c1, Car.drift pc d c = Some c1 /\ Car.steer fc c1 = Some c').
Proof.
  unfold Car.move. destruct (Car.collided c) eqn:Hcol.
  - intros [= <-]. by left.
  - right. destruct (Car.is_player c) eqn:Hpl.
    + left. destruct (autonomous_drive_frame i c cs fc) as (_ & _ & _ & Hp & _).
      rewrite Hp, Hpl in H. simpl in H. done.
    + right. rewrite Hpl in H. simpl in H.
      destruct (Car.drift pc d c) as [c1|]; simpl in H; [|done].
      split; [done|]. split; [done|]. by exists c1.
Qed.

Lemma move_collided_same (i : nat) (c : Car.t) (cs : list Car.t) (fc : Z) (pc : Car.t)
      (d : Draw) (c' : Car.t) :
  Car.move i c cs fc pc d = Some c' -> Car.collided c = true -> c' = c.
Proof.
  intros H Hc. apply move_inv in H as [[_ ->]|[(Hn & _)|(Hn & _)]]; congruence.
Qed.

Lemma move_collided (i : nat) (c : Car.t) (cs : list Car.t) (fc : Z) (pc : Car.t)
      (d : Draw) (c' : Car.t) :
  Car.move i c cs fc pc d = Some c' -> Car.collided c' = Car.collided c.
Proof.
  intros H. apply move_inv in H as [[_ ->]|[(_ & _ & H)|(_ & _ & c1 & H1 & H)]].
  - done.
  - apply steer_frame in H as (_ & _ & _ & _ & _ & -> & _).
    by destruct (autonomous_drive_frame i c cs fc) as (_ & _ & _ & _ & _ & -> & _).
  - apply steer_frame in H as (_ & _ & _ & _ & _ & -> & _).
    by apply drift_frame in H1 as (_ & _ & _ & _ & _ & -> & _).
Qed.

(** ** The step always succeeds on lanes of the road *)

Lemma lane_center_Some (l : nat) : (l < LANE_COUNT)%nat -> is_Some (Car.lane_center l).
Proof.
  unfold LANE_COUNT. intros Hl.
  destruct l as [|[|[|l]]]; [by eexists..|lia].
Qed.

Lemma randint_lane (entropy : nat) : (randint 0 (LANE_COUNT - 1) entropy < LANE_COUNT)%nat.
Proof. unfold randint, LANE_COUNT. simpl Nat.sub. apply Nat.mod_upper_bound. lia. Qed.

Lemma steer_total (fc : Z) (s : Car.t) :
  lanes_ok s -> exists s', Car.steer fc s = Some s' /\ lanes_ok s'.
Proof.
  intros [Hl Ht]. unfold Car.steer.
  destruct (lane_center_Some _ Hl) as [cl Hcl], (lane_center_Some _ Ht) as [ct Hct].
  destruct (Car.changing_lane s); cbn [Car.lane Car.target_lane Car.set_change_progress
    Car.set_x Car.set_lane Car.change_progress]; rewrite ?Hcl, ?Hct; simpl.
  - destruct (Qcleb _ _); simpl.
    + eexists. split; [done|]. by split.
    + eexists. split; [done|]. by split.
  - eexists. split; [done|]. by split.
Qed.

Lemma drift_total (pc : Car.t) (d : Draw) (s : Car.t) :
  lanes_ok s -> exists s', Car.drift pc d s = Some s' /\ lanes_ok s'.
Proof.
  intros [Hl Ht]. unfold Car.drift, Car.respawn.
  destruct (Qcltb _ _); cbn [Car.lane Car.set_lane Car.set_y].
  - destruct (lane_center_Some _ (randint_lane (draw_lane d))) as [cx ->].
    cbn [mbind option_bind].
    eexists. split; [done|]. split; cbn [Car.lane Car.target_lane Car.set_speed Car.set_x];
      [apply randint_lane|done].
  - eexists. split; [done|]. by split.
Qed.

Lemma adjacent_lane (self : Car.t) (l : nat) :
  (Car.lane self < LANE_COUNT)%nat -> adjacent self l -> (l < LANE_COUNT)%nat.
Proof. intros Hl [H|[_ H]]; lia. Qed.

Lemma autonomous_drive_lanes_ok (i : nat) (self : Car.t) (cars : list Car.t) (fc : Z) :
  lanes_ok self -> lanes_ok (Car.autonomous_drive i self cars fc).
Proof.
  intros [Hl Ht].
  destruct (autonomous_drive_decision i self cars fc) as [| | | |front best _ _ Hadj _];
    unfold abort, clear, brake, commit, lanes_ok;
    destruct (adjust_speed_set self) as [v ->]; simpl;
    try destruct (300 <? Car.stuck_timer self + 1)%Z; simpl; try done.
  all: split; [done|]; by apply (adjacent_lane self).
Qed.

Lemma move_total (i : nat) (c : Car.t) (cs : list Car.t) (fc : Z) (pc : Car.t) (d : Draw) :
  lanes_ok c -> exists c', Car.move i c cs fc pc d = Some c' /\ lanes_ok c'.
Proof.
  intros Hok. unfold Car.move.
  destruct (Car.collided c); [by exists c|].
  destruct (Car.is_player c) eqn:Hpl.
  - destruct (autonomous_drive_frame i c cs fc) as (_ & _ & _ & -> & _).
    rewrite Hpl. simpl. by apply steer_total, autonomous_drive_lanes_ok.
  - rewrite Hpl. simpl.
    destruct (drift_total pc d c Hok) as (c1 & -> & Hok1). simpl.
    by apply steer_total.
Qed.

Lemma moves_total (fc : Z) (rnd : nat -> Draw) (m k : nat) (cs : list Car.t) :
  world_ok cs -> (k + m <= length cs)%nat ->
  exists cs', fold_left (move_at fc rnd) (seq k m) (Some cs) = Some cs' /\ world_ok cs'.
Proof.
  revert k cs. induction m as [|m IH]; intros k cs Hok Hlen.
  - by exists cs.
  - cbn [seq fold_left].
    destruct (lookup_lt_is_Some_2 cs k) as [car Hk]; [lia|].
    destruct cs as [|pc rest] eqn:Hcs; [by destruct Hok|]. rewrite <- Hcs in *.
    assert (cs !! player_index = Some pc) as Hp by (by rewrite Hcs).
    destruct Hok as [Hne Hall].
    assert (lanes_ok car) as Hcar.
    { rewrite Forall_forall in Hall. apply Hall. by apply list_elem_of_lookup_2 in Hk. }
    destruct (move_total k car cs fc pc (rnd k) Hcar) as (car' & Hm & Hcar').
    assert (move_at fc rnd (Some cs) k = Some (<[k := car']> cs)) as ->.
    { unfold move_at. simpl. rewrite Hk. simpl. rewrite Hp. simpl. rewrite Hm. done. }
    apply IH.
    + split.
      * intros Hnil. apply (f_equal length) in Hnil.
        rewrite length_insert, Hcs in Hnil. done.
      * by apply Forall_insert.
    + rewrite length_insert. lia.
Qed.

Lemma lanes_ok_flags (c c' : Car.t) : same_but_flags c c' -> lanes_ok c -> lanes_ok c'.
Proof. intros [->|[->| ->]] H; exact H. Qed.

Lemma check_collision_length (i : nat) (self : Car.t) (cars : list Car.t) :
  length (Car.update_sensors_and_check_collision i self cars) = length cars.
Proof.
  unfold Car.update_sensors_and_check_collision.
  destruct (Car.collided self); [done|].
  destruct (Car.first_hit _ _ _ _); [|done].
  by rewrite length_alter, length_insert.
Qed.

(** The step returns on every list of cars whose lanes are on the road,
    and such is the list it returns. *)
Lemma tick_total (fc : Z) (rnd : nat -> Draw) (cs : list Car.t) :
  world_ok cs -> exists cs', tick fc rnd cs = Some cs' /\ world_ok cs'.
Proof.
  intros Hok.
  destruct (moves_total fc rnd (length cs) 0 cs Hok) as (cm & Hm & Hne & Hall); [lia|].
  unfold tick, move_all. rewrite Hm. simpl.
  destruct cm as [|pm rest] eqn:Hcm; [done|]. rewrite <- Hcm in *.
  assert (cm !! player_index = Some pm) as Hp by (by rewrite Hcm).
  rewrite Hp. simpl. eexists. split; [done|]. split.
  - intros Hnil. apply (f_equal length) in Hnil.
    rewrite check_collision_length, Hcm in Hnil. done.
  - apply Forall_lookup. intros j c' Hj.
    assert (is_Some (cm !! j)) as [c Hc].
    { apply lookup_lt_is_Some. apply lookup_lt_Some in Hj.
      by rewrite check_collision_length in Hj. }
    destruct (check_collision_flags player_index pm cm j c Hp Hc) as (c2 & Hj2 & Hfl).
    assert (c2 = c') as -> by congruence.
    apply (lanes_ok_flags c c' Hfl).
    rewrite Forall_forall in Hall. apply Hall. by apply list_elem_of_lookup_2 in Hc.
Qed.

Lemma spawn_total (d : Draw) : exists c, spawn d = Some c /\ lanes_ok c.
Proof.
  unfold spawn.
  destruct (lane_center_Some _ (randint_lane (draw_lane d))) as [x_pos ->].
  cbn [mbind option_bind]. eexists. split; [done|].
  split; simpl; apply randint_lane.
Qed.

(** [reset_simulation] always returns, with every lane on the road. *)
Lemma reset_total (rnd : nat -> Draw) :
  exists s, reset_simulation rnd = Some s /\ world_ok (cars s).
Proof.
  unfold reset_simulation.
  destruct (lane_center_Some 1) as [px ->]; [unfold LANE_COUNT; lia|].
  cbn [mbind option_bind].
  destruct (mapM_is_Some_2 (fun k => spawn (rnd k)) (seq 0 12)) as [npcs Hn].
  { apply Forall_forall. intros k _. destruct (spawn_total (rnd k)) as (c & Hc & _).
    by exists c. }
  rewrite Hn. cbn [mbind option_bind]. eexists. split; [done|].
  split; [done|]. simpl. constructor.
  - split; simpl; unfold LANE_COUNT; lia.
  - apply mapM_Some in Hn. apply Forall_lookup. intros j c Hj.
    destruct (Forall2_lookup_r _ _ _ _ _ Hn Hj) as (k & _ & Hk).
    destruct (spawn_total (rnd k)) as (c0 & Hc0 & Hok). congruence.
Qed.

Lemma main_iter_total (rnd : nat -> Draw) (s : Sim) :
  world_ok (cars s) -> exists s', main_iter rnd s = Some s' /\ world_ok (cars s').
Proof.
  intros Hok. unfold main_iter.
  destruct (cars s) as [|p rest] eqn:Hcs; [by destruct Hok|].
  cbn [lookup list_lookup player_index mbind option_bind].
  destruct (Car.collided p); [apply reset_total|].
  destruct (tick_total (frame_count s + 1) rnd (p :: rest) Hok) as (cs' & -> & Hok').
  cbn [mbind option_bind]. by eexists.
Qed.

Lemma iterate_total (oracle : nat -> nat -> Draw) (n k : nat) (s : Sim) :
  world_ok (cars s) -> exists s', iterate oracle k n s = Some s' /\ world_ok (cars s').
Proof.
  revert k s. induction n as [|n IH]; intros k s Hok; [by exists s|].
  simpl. destruct (main_iter_total (oracle k) s Hok) as (s1 & -> & Hok1).
  cbn [mbind option_bind]. by apply IH.
Qed.

Lemma ticks_total (oracle : Z -> nat -> Draw) (n : nat) (fc : Z) (cs : list Car.t) :
  world_ok cs -> exists cs', ticks oracle fc n cs = Some cs' /\ world_ok cs'.
Proof.
  revert fc cs. induction n as [|n IH]; intros fc cs Hok; [by exists cs|].
  simpl. destruct (tick_total (fc + 1) (oracle (fc + 1)%Z) cs Hok) as (cs1 & -> & Hok1).
  cbn [mbind option_bind]. by apply IH.
Qed.

(** ** Collided cars *)

Lemma set_collided_id (c : Car.t) : Car.collided c = true -> Car.set_collided true c = c.
Proof. destruct c. simpl. by intros ->. Qed.

Lemma tick_collided_same (fc : Z) (rnd : nat -> Draw) (cs cs' : list Car.t) (j : nat)
      (c : Car.t) :
  tick fc rnd cs = Some cs' -> cs !! j = Some c -> Car.collided c = true ->
  cs' !! j = Some c.
Proof.
  intros H Hj Hc. apply tick_inv in H as (cm & pm & Hm & Hp & ->).
  destruct (move_all_rel (fun c c' => Car.collided c = true -> c' = c) fc rnd cs cm)
    with (j := j) (c := c) as (c1 & Hj1 & Hsame); [done| |done|done|].
  { intros i0 c0 cs0 pc d c0' H0 Hc0. by apply (move_collided_same _ _ _ _ _ _ _ H0). }
  rewrite (Hsame Hc) in Hj1. clear Hsame c1.
  rewrite (check_collision_lookup player_index pm cm j Hp).
  destruct (Car.collided pm) eqn:Hpm; [done|].
  destruct (Car.first_hit _ _ _ _) as [h|]; [|done].
  destruct (decide (j = player_index)) as [->|Hne]; [congruence|].
  destruct (decide (j = h)) as [->|Hnh]; [|done].
  rewrite Hj1. simpl. by rewrite set_collided_id.
Qed.

(** C8.  The step leaves a collided car exactly as it was: on every list
    the step can run on it returns a list, and in that list every car that
    was collided before the step is the same record, field by field, so its
    position, lane, speed and decision are those of the tick before. *)
Theorem collided_car_is_frozen (fc : Z) (rnd : nat -> Draw) (cs : list Car.t) :
  world_ok cs ->
  exists cs', tick fc rnd cs = Some cs' /\
    forall j c, cs !! j = Some c -> Car.collided c = true ->
      cs' !! j = Some c /\
      forall c', cs' !! j = Some c' ->
        Car.x c' = Car.x c /\ Car.y c' = Car.y c /\ Car.lane c' = Car.lane c /\
        Car.speed c' = Car.speed c /\ Car.lane_decision c' = Car.lane_decision c.
Proof.
  intros Hok. destruct (tick_total fc rnd cs Hok) as (cs' & H & _).
  exists cs'. split; [done|]. intros j c Hj Hc.
  pose proof (tick_collided_same fc rnd cs cs' j c H Hj Hc) as Hsame.
  split; [done|]. intros c' Hc'. rewrite Hsame in Hc'. by injection Hc' as <-.
Qed.

Lemma world_ok_wreck : world_ok [agent_A; wreck].
Proof.
  split; [done|]. repeat constructor; unfold LANE_COUNT; simpl; lia.
Qed.

Lemma collided_car_is_frozen_witness :
  exists cs', tick 1 rnd0 [agent_A; wreck] = Some cs' /\
    forall j c, [agent_A; wreck] !! j = Some c -> Car.collided c = true ->
      cs' !! j = Some c /\
      forall c', cs' !! j = Some c' ->
        Car.x c' = Car.x c /\ Car.y c' = Car.y c /\ Car.lane c' = Car.lane c /\
        Car.speed c' = Car.speed c /\ Car.lane_decision c' = Car.lane_decision c.
Proof.
  apply (collided_car_is_frozen 1 rnd0 [agent_A; wreck]).
  exact world_ok_wreck.
Defined.

(** ** Who gets marked as collided *)

Lemma same_but_flags_rect (c c' : Car.t) :
  same_but_flags c c' -> Car.body_rect c' = Car.body_rect c.
Proof. by intros [->|[->| ->]]. Qed.

Lemma check_collision_inv (i : nat) (self : Car.t) (cars : list Car.t) (j : nat)
      (c' : Car.t) :
  cars !! i = Some self ->
  Car.update_sensors_and_check_collision i self cars !! j = Some c' ->
  exists c, cars !! j = Some c /\ same_but_flags c c'.
Proof.
  intros Hi Hj.
  assert (is_Some (cars !! j)) as [c Hc].
  { apply lookup_lt_is_Some. apply lookup_lt_Some in Hj.
    by rewrite check_collision_length in Hj. }
  destruct (check_collision_flags i self cars j c Hi Hc) as (c2 & Hj2 & Hfl).
  exists c. split; [done|]. congruence.
Qed.

(** The first overlap is the same before and after the check wrote its
    flags. *)
Lemma first_overlap_check (i : nat) (self : Car.t) (cars : list Car.t) (r : Pygame.Rect)
      (j : nat) :
  cars !! i = Some self ->
  first_overlap i r (Car.update_sensors_and_check_collision i self cars) j ->
  first_overlap i r cars j.
Proof.
  intros Hi (Hne & (c' & Hc' & Hhit) & Hfirst).
  split; [done|]. split.
  - apply (check_collision_inv i self cars j c' Hi) in Hc' as (c & Hc & Hfl).
    exists c. split; [done|]. by rewrite <- (same_but_flags_rect c c' Hfl).
  - intros j1 c1 Hlt Hne1 Hc1.
    destruct (check_collision_flags i self cars j1 c1 Hi Hc1) as (c1' & Hc1' & Hfl).
    rewrite <- (same_but_flags_rect c1 c1' Hfl). by apply (Hfirst j1 c1').
Qed.

Lemma ticks_collided_same (oracle : Z -> nat -> Draw) (n : nat) (fc : Z)
      (cs cs' : list Car.t) (j : nat) (c : Car.t) :
  ticks oracle fc n cs = Some cs' -> cs !! j = Some c -> Car.collided c = true ->
  cs' !! j = Some c.
Proof.
  revert fc cs. induction n as [|n IH]; intros fc cs H Hj Hc; simpl in H.
  - by injection H as <-.
  - destruct (tick (fc + 1) (oracle (fc + 1)%Z) cs) as [cs1|] eqn:H1; simpl in H; [|done].
    apply (IH _ _ H); [|done].
    by apply (tick_collided_same _ _ _ _ _ _ H1).
Qed.

(** The agent after the step, from the agent after its move. *)
Lemma tick_player (fc : Z) (rnd : nat -> Draw) (cs cs' : list Car.t) (p : Car.t) :
  tick fc rnd cs = Some cs' -> cs !! player_index = Some p ->
  exists pm p',
    Car.move player_index p cs fc p (rnd player_index) = Some pm /\
    cs' !! player_index = Some p' /\ (p' = pm \/ p' = Car.crash pm).
Proof.
  intros H Hp. apply tick_inv in H as (cm & pm & Hm & Hpm & ->).
  destruct (move_all_player fc rnd cs cm p Hm Hp) as (pm' & Hmove & Hpm').
  assert (pm' = pm) as -> by congruence.
  exists pm. rewrite (check_collision_lookup player_index pm cm player_index Hpm).
  destruct (Car.collided pm); [exists pm; by auto|].
  destruct (Car.first_hit _ _ _ _) as [h|]; [|exists pm; by auto].
  rewrite decide_True by done. exists (Car.crash pm). by auto.
Qed.

(** What a step does to the [collided] flags. *)
Lemma tick_marks_first_overlap (fc : Z) (rnd : nat -> Draw) (cs cs' : list Car.t)
      (p p' : Car.t) :
  tick fc rnd cs = Some cs' ->
  cs !! player_index = Some p -> cs' !! player_index = Some p' ->
  (Car.collided p = false ->
   forall j c', j <> player_index -> cs' !! j = Some c' -> overlaps p' c' ->
     Car.collided p' = true /\
     (first_overlap player_index (Car.body_rect p') cs' j -> Car.collided c' = true)) /\
  (forall j c, cs !! j = Some c -> Car.collided c = true ->
     forall oracle n cs'', ticks oracle fc n cs' = Some cs'' ->
       cs' !! j = Some c /\ cs'' !! j = Some c).
Proof.
  intros H Hp Hp'. split.
  - intros Hcol j c' Hj Hc' Hov.
    apply tick_inv in H as (cm & pm & Hm & Hpm & ->).
    destruct (move_all_player fc rnd cs cm p Hm Hp) as (pm' & Hmove & Hpm').
    assert (pm' = pm) as -> by congruence.
    assert (Car.collided pm = false) as Hcolm.
    { by rewrite (move_collided _ _ _ _ _ _ _ Hmove). }
    assert (Car.body_rect p' = Car.body_rect pm) as Hrect.
    { destruct (check_collision_flags player_index pm cm player_index pm Hpm Hpm)
        as (p2 & Hp2 & Hfl).
      assert (p2 = p') as -> by congruence. by apply same_but_flags_rect. }
    destruct (check_collision_inv player_index pm cm j c' Hpm Hc') as (c1 & Hc1 & Hfl1).
    unfold overlaps in Hov.
    rewrite Hrect, (same_but_flags_rect c1 c' Hfl1) in Hov.
    pose proof (check_collision_lookup player_index pm cm) as Hlook.
    rewrite Hcolm in Hlook.
    destruct (Car.first_hit 0 player_index (Car.body_rect pm) cm) as [h|] eqn:Hh.
    + split.
      * specialize (Hlook player_index Hpm). rewrite decide_True in Hlook by done.
        rewrite Hlook in Hp'. by injection Hp' as <-.
      * intros Hfirst. rewrite Hrect in Hfirst.
        apply first_overlap_check in Hfirst; [|done].
        apply first_hit_overlap in Hfirst.
        assert (h = j) as -> by congruence.
        specialize (Hlook j Hpm).
        rewrite decide_False, decide_True, Hc1 in Hlook by done.
        rewrite Hlook in Hc'. by injection Hc' as <-.
    + rewrite (first_hit_None _ _ _ _ Hh j c1) in Hov; [done| |done].
      simpl. done.
  - intros j c Hj Hc oracle n cs'' Hn.
    pose proof (tick_collided_same _ _ _ _ _ _ H Hj Hc) as Hsame.
    split; [done|]. by apply (ticks_collided_same _ _ _ _ _ _ _ Hn).
Qed.

(** C10.  The check runs on the agent only.  A car whose [collided] flag
    the step turns on is the agent, or a car whose rectangle overlaps the
    rectangle of the agent, and in both cases the agent overlaps some other
    car.  A car other than the agent that does not overlap the agent keeps
    the flag it had, whichever other cars it overlaps. *)
Theorem collision_only_with_agent (fc : Z) (rnd : nat -> Draw) (cs cs' : list Car.t)
        (p' : Car.t) :
  tick fc rnd cs = Some cs' -> cs' !! player_index = Some p' ->
  forall j c c', cs !! j = Some c -> cs' !! j = Some c' ->
    (Car.collided c = false -> Car.collided c' = true ->
       (j = player_index \/ overlaps p' c') /\
       exists h ch, h <> player_index /\ cs' !! h = Some ch /\ overlaps p' ch) /\
    (j <> player_index -> ~ overlaps p' c' -> Car.collided c' = Car.collided c).
Proof.
  intros H Hp' j c c' Hj Hj'.
  apply tick_inv in H as (cm & pm & Hm & Hpm & ->).
  destruct (move_all_rel (fun c c' => Car.collided c' = Car.collided c) fc rnd cs cm)
    with (j := j) (c := c) as (c1 & Hc1 & Hflag); [done| |done|done|].
  { intros i0 c0 cs0 pc d c0' H0. by apply (move_collided _ _ _ _ _ _ _ H0). }
  assert (Car.body_rect p' = Car.body_rect pm) as Hrect.
  { destruct (check_collision_flags player_index pm cm player_index pm Hpm Hpm)
      as (p2 & Hp2 & Hfl).
    assert (p2 = p') as -> by congruence. by apply same_but_flags_rect. }
  pose proof (check_collision_lookup player_index pm cm) as Hlook.
  unfold overlaps. rewrite Hrect.
  destruct (Car.collided pm) eqn:Hcolm.
  { rewrite (Hlook j Hpm), Hc1 in Hj'. injection Hj' as <-.
    split; [congruence|done]. }
  destruct (Car.first_hit 0 player_index (Car.body_rect pm) cm) as [h|] eqn:Hh.
  - pose proof Hh as Hov.
    apply first_hit_overlap in Hov as (Hne & (ch & Hch & Hhit) & _).
    destruct (decide (j = player_index)) as [->|Hnj].
    + split; [|done]. intros _ _. split; [by left|].
      exists h. destruct (check_collision_flags player_index pm cm h ch Hpm Hch)
        as (ch' & Hch' & Hfl).
      exists ch'. split; [done|]. split; [done|].
      by rewrite (same_but_flags_rect ch ch' Hfl).
    + destruct (decide (j = h)) as [->|Hnh].
      * assert (ch = c1) as -> by congruence.
        rewrite (Hlook h Hpm), decide_False, decide_True, Hc1 in Hj' by done.
        injection Hj' as <-. rewrite body_rect_set_collided.
        split; [|done]. intros _ _. split; [by right|].
        exists h, (Car.set_collided true c1).
        split; [done|]. split; [|done].
        by rewrite (Hlook h Hpm), decide_False, decide_True, Hc1 by done.
      * rewrite (Hlook j Hpm), decide_False, decide_False, Hc1 in Hj' by done.
        injection Hj' as <-. split; [congruence|done].
  - rewrite (Hlook j Hpm), Hc1 in Hj'. injection Hj' as <-.
    split; [congruence|done].
Qed.

(** In [world_C] the agent overlaps both cars after the moves; the check
    marks the agent and the first car and stops: the second car overlaps
    the agent and is not marked. *)
Lemma overlap_beyond_first_unmarked :
  exists cs' p' c1 c2,
    tick 1 rnd0 world_C = Some cs' /\
    cs' !! 0%nat = Some p' /\ cs' !! 1%nat = Some c1 /\ cs' !! 2%nat = Some c2 /\
    overlaps p' c1 /\ overlaps p' c2 /\
    Car.collided p' = true /\ Car.collided c1 = true /\ Car.collided c2 = false.
Proof.
  do 4 eexists.
  split; [vm_compute; reflexivity|].
  split; [reflexivity|]. split; [reflexivity|]. split; [reflexivity|].
  repeat split; vm_compute; reflexivity.
Qed.

Lemma world_ok_C : world_ok world_C.
Proof.
  split; [done|]. repeat constructor; unfold LANE_COUNT; simpl; lia.
Qed.

(** The car the check marks is the first overlap of the list the check
    leaves. *)
Lemma first_overlap_marked (i : nat) (self : Car.t) (cars : list Car.t) (r : Pygame.Rect)
      (j : nat) :
  cars !! i = Some self ->
  first_overlap i r cars j ->
  first_overlap i r (Car.update_sensors_and_check_collision i self cars) j.
Proof.
  intros Hi (Hne & (c & Hc & Hhit) & Hfirst).
  split; [done|]. split.
  - destruct (check_collision_flags i self cars j c Hi Hc) as (c' & Hc' & Hfl).
    exists c'. split; [done|]. by rewrite (same_but_flags_rect c c' Hfl).
  - intros j1 c1' Hlt Hne1 Hc1'.
    apply (check_collision_inv i self cars j1 c1' Hi) in Hc1' as (c1 & Hc1 & Hfl).
    rewrite (same_but_flags_rect c1 c1' Hfl). by apply (Hfirst j1 c1).
Qed.

(** The check stops at the first overlap: every other car, whether it
    overlaps the agent or not, leaves the step with the flag it came
    with. *)
Lemma tick_beyond_first (fc : Z) (rnd : nat -> Draw) (cs cs' : list Car.t) (p' : Car.t) :
  tick fc rnd cs = Some cs' -> cs' !! player_index = Some p' ->
  forall j c c', j <> player_index -> cs !! j = Some c -> cs' !! j = Some c' ->
    ~ first_overlap player_index (Car.body_rect p') cs' j ->
    Car.collided c' = Car.collided c.
Proof.
  intros H Hp' j c c' Hnj Hj Hj' Hnot.
  apply tick_inv in H as (cm & pm & Hm & Hpm & ->).
  destruct (move_all_rel (fun c c' => Car.collided c' = Car.collided c) fc rnd cs cm)
    with (j := j) (c := c) as (c1 & Hc1 & Hflag); [done| |done|done|].
  { intros i0 c0 cs0 pc d c0' H0. by apply (move_collided _ _ _ _ _ _ _ H0). }
  assert (Car.body_rect p' = Car.body_rect pm) as Hrect.
  { destruct (check_collision_flags player_index pm cm player_index pm Hpm Hpm)
      as (p2 & Hp2 & Hfl).
    assert (p2 = p') as -> by congruence. by apply same_but_flags_rect. }
  rewrite Hrect in Hnot.
  pose proof (check_collision_lookup player_index pm cm j Hpm) as Hlook.
  destruct (Car.collided pm) eqn:Hcolm.
  { rewrite Hlook, Hc1 in Hj'. by injection Hj' as <-. }
  destruct (Car.first_hit 0 player_index (Car.body_rect pm) cm) as [h|] eqn:Hh.
  - destruct (Nat.eq_dec j h) as [->|Hnh].
    + destruct Hnot. apply first_overlap_marked; [done|].
      by apply first_hit_overlap.
    + rewrite decide_False, decide_False, Hc1 in Hlook by done.
      rewrite Hlook in Hj'. by injection Hj' as <-.
  - rewrite Hlook, Hc1 in Hj'. by injection Hj' as <-.
Qed.

(** C3 (as the code has it).  The step returns on every list of cars with
    lanes on the road.  When it runs on an agent that has not collided and,
    after the moves, the rectangle of the agent overlaps the rectangle of
    another car, the agent is marked collided, and so is the first such car
    in the order of the list; there the check stops: every car other than
    the agent and that first car, also one whose rectangle overlaps the
    agent's, leaves the step with the flag it came with.  A car that is
    marked collided is still marked, and unchanged, after any number of
    further steps. *)
Theorem collision_marks_first_overlap (fc : Z) (rnd : nat -> Draw) (cs : list Car.t)
        (p : Car.t) :
  world_ok cs -> cs !! player_index = Some p ->
  exists cs' p',
    tick fc rnd cs = Some cs' /\ cs' !! player_index = Some p' /\
    (Car.collided p = false ->
     forall j c', j <> player_index -> cs' !! j = Some c' -> overlaps p' c' ->
       Car.collided p' = true /\
       (first_overlap player_index (Car.body_rect p') cs' j -> Car.collided c' = true)) /\
    (forall j c c', j <> player_index -> cs !! j = Some c -> cs' !! j = Some c' ->
       ~ first_overlap player_index (Car.body_rect p') cs' j ->
       Car.collided c' = Car.collided c) /\
    (forall j c, cs !! j = Some c -> Car.collided c = true ->
       cs' !! j = Some c /\
       forall oracle n, exists cs'', ticks oracle fc n cs' = Some cs'' /\ cs'' !! j = Some c).
Proof.
  intros Hok Hp.
  destruct (tick_total fc rnd cs Hok) as (cs' & Ht & Hok').
  destruct cs' as [|p' rest] eqn:Hcs'; [by destruct Hok'|]. rewrite <- Hcs' in *.
  assert (cs' !! player_index = Some p') as Hp' by (by rewrite Hcs').
  exists cs', p'. split; [done|]. split; [done|].
  destruct (tick_marks_first_overlap fc rnd cs cs' p p' Ht Hp Hp') as [Hmark Hkeep].
  split; [done|].
  split; [by apply (tick_beyond_first fc rnd cs cs' p' Ht Hp')|].
  intros j c Hj Hc. split.
  - destruct (ticks_total (fun _ => rnd) 0 fc cs' Hok') as (cs0 & H0 & _).
    by destruct (Hkeep j c Hj Hc (fun _ => rnd) 0%nat cs0 H0).
  - intros oracle n.
    destruct (ticks_total oracle n fc cs' Hok') as (cs'' & Hn & _).
    exists cs''. split; [done|].
    by destruct (Hkeep j c Hj Hc oracle n cs'' Hn).
Qed.

Lemma collision_marks_first_overlap_witness :
  exists cs' p',
    tick 1 rnd0 world_C = Some cs' /\ cs' !! player_index = Some p' /\
    (Car.collided agent_A = false ->
     forall j c', j <> player_index -> cs' !! j = Some c' -> overlaps p' c' ->
       Car.collided p' = true /\
       (first_overlap player_index (Car.body_rect p') cs' j -> Car.collided c' = true)) /\
    (forall j c c', j <> player_index -> world_C !! j = Some c -> cs' !! j = Some c' ->
       ~ first_overlap player_index (Car.body_rect p') cs' j ->
       Car.collided c' = Car.collided c) /\
    (forall j c, world_C !! j = Some c -> Car.collided c = true ->
       cs' !! j = Some c /\
       forall oracle n, exists cs'', ticks oracle 1 n cs' = Some cs'' /\ cs'' !! j = Some c).
Proof.
  apply (collision_marks_first_overlap 1 rnd0 world_C agent_A).
  - exact world_ok_C.
  - reflexivity.
Defined.

Example npc_overlap_unmarked :
  exists cs' p' c1 c2,
    tick 1 rnd0 world_D = Some cs' /\
    cs' !! 0%nat = Some p' /\ cs' !! 1%nat = Some c1 /\ cs' !! 2%nat = Some c2 /\
    overlaps c1 c2 /\
    Car.collided p' = false /\ Car.collided c1 = false /\ Car.collided c2 = false.
Proof.
  do 4 eexists.
  split; [vm_compute; reflexivity|].
  split; [reflexivity|]. split; [reflexivity|]. split; [reflexivity|].
  repeat split; vm_compute; reflexivity.
Qed.

(** The rectangles are built on truncated coordinates: the frozen car of
    [world_G] spans 625.5 to 675.5 on the floats and 625 to 675 as a
    [pygame.Rect], which does not reach the agent at 675. *)
Example truncated_rect_misses :
  exists cs' p' c1,
    tick 1 rnd0 world_G = Some cs' /\
    cs' !! 0%nat = Some p' /\ cs' !! 1%nat = Some c1 /\
    Car.y p' - Qc_of_Z 25 < Car.y c1 + Qc_of_Z 25 /\
    Pygame.colliderect (Car.body_rect p') (Car.body_rect c1) = false /\
    Car.collided p' = false.
Proof.
  do 3 eexists.
  split; [vm_compute; reflexivity|].
  split; [reflexivity|]. split; [reflexivity|].
  split; [vm_compute; reflexivity|].
  split; vm_compute; reflexivity.
Qed.

Lemma collision_only_with_agent_witness :
  exists cs' p',
    tick 1 rnd0 world_C = Some cs' /\ cs' !! player_index = Some p' /\
    forall j c c', world_C !! j = Some c -> cs' !! j = Some c' ->
      (Car.collided c = false -> Car.collided c' = true ->
         (j = player_index \/ overlaps p' c') /\
         exists h ch, h <> player_index /\ cs' !! h = Some ch /\ overlaps p' ch) /\
      (j <> player_index -> ~ overlaps p' c' -> Car.collided c' = Car.collided c).
Proof.
  do 2 eexists.
  split; [vm_compute; reflexivity|].
  split; [reflexivity|].
  apply (collision_only_with_agent 1 rnd0 world_C).
  - vm_compute. reflexivity.
  - reflexivity.
Defined.

(** ** The cooldown *)

Lemma steer_changing_lane (fc : Z) (s s' : Car.t) :
  Car.steer fc s = Some s' -> Car.changing_lane s' = true -> Car.changing_lane s = true.
Proof. intros H. destruct (steer_steered fc s s' H); simpl; congruence. Qed.

Lemma autonomous_drive_initiates (i : nat) (self : Car.t) (cars : list Car.t) (fc : Z) :
  Car.changing_lane self = false ->
  Car.changing_lane (Car.autonomous_drive i self cars fc) = true ->
  ~ on_cooldown fc self.
Proof.
  intros Hch.
  destruct (autonomous_drive_decision i self cars fc); try congruence;
    unfold clear, brake; destruct (adjust_speed_set self) as [v ->]; simpl;
    try destruct (300 <? Car.stuck_timer self + 1)%Z; simpl; congruence.
Qed.

Lemma move_initiates (i : nat) (c : Car.t) (cs : list Car.t) (fc : Z) (pc : Car.t)
      (d : Draw) (c' : Car.t) :
  Car.move i c cs fc pc d = Some c' ->
  Car.changing_lane c = false -> Car.changing_lane c' = true ->
  ~ on_cooldown fc c.
Proof.
  intros H Hch Hch'.
  apply move_inv in H as [[_ ->]|[(_ & _ & H)|(_ & _ & c1 & H1 & H)]].
  - congruence.
  - apply (autonomous_drive_initiates i c cs fc Hch).
    by apply (steer_changing_lane fc _ c').
  - apply steer_changing_lane in H; [|done].
    apply drift_frame in H1 as (_ & _ & Hc1 & _). congruence.
Qed.

(** [last_lane_change_time] is written only when a lane change completes,
    and then with the current frame count. *)
Lemma move_stamp (i : nat) (c : Car.t) (cs : list Car.t) (fc : Z) (pc : Car.t)
      (d : Draw) (c' : Car.t) :
  Car.move i c cs fc pc d = Some c' ->
  Car.last_lane_change_time c' = Car.last_lane_change_time c \/
  (Car.last_lane_change_time c' = fc /\ Car.changing_lane c' = false /\
   Car.change_progress c' = #0.0 /\ Car.lane c' = Car.target_lane c').
Proof.
  intros H.
  apply move_inv in H as [[Hcol ->]|[(_ & _ & H)|(_ & _ & c1 & H1 & H)]].
  - by left.
  - destruct (autonomous_drive_frame i c cs fc) as (_ & _ & _ & _ & _ & _ & Hll).
    destruct (steer_steered fc _ c' H) as [v Hs|v Hs Hlt|v Hs Hle]; simpl;
      [by left|by left|by right].
  - apply drift_frame in H1 as (_ & _ & _ & _ & _ & _ & _ & Hll & _).
    destruct (steer_steered fc _ c' H) as [v Hs|v Hs Hlt|v Hs Hle]; simpl;
      [by left|by left|by right].
Qed.

(** A lane change that completes is stamped. *)
Lemma move_completes (i : nat) (c : Car.t) (cs : list Car.t) (fc : Z) (pc : Car.t)
      (d : Draw) (c' : Car.t) :
  Car.move i c cs fc pc d = Some c' ->
  Car.is_player c = true -> Car.collided c = false ->
  let s := Car.autonomous_drive i c cs fc in
  Car.changing_lane s = true -> #1.0 <= Car.change_progress s + #0.05 ->
  Car.last_lane_change_time c' = fc /\ Car.changing_lane c' = false /\
  Car.lane c' = Car.target_lane s.
Proof.
  intros H Hpl Hcol s Hch Hle.
  apply move_inv in H as [[Hcol' _]|[(_ & _ & H)|(_ & Hpl' & _)]]; [congruence| |congruence].
  fold s in H.
  destruct (steer_steered fc _ c' H) as [v Hs|v Hs Hlt|v Hs _]; simpl.
  - congruence.
  - by destruct (Qclt_not_le _ _ Hlt).
  - done.
Qed.

Lemma crash_frame (c c' : Car.t) :
  c' = c \/ c' = Car.crash c ->
  Car.changing_lane c' = Car.changing_lane c /\
  Car.last_lane_change_time c' = Car.last_lane_change_time c /\
  Car.change_progress c' = Car.change_progress c /\
  Car.lane c' = Car.lane c /\ Car.target_lane c' = Car.target_lane c /\
  Car.stuck_timer c' = Car.stuck_timer c /\ Car.target_speed c' = Car.target_speed c.
Proof. by intros [->| ->]. Qed.

(** The decision engine writes [target_lane] only in a commitment. *)
Lemma autonomous_drive_target_lane (i : nat) (self : Car.t) (cars : list Car.t) (fc : Z) :
  Car.changing_lane (Car.autonomous_drive i self cars fc) = false ->
  Car.target_lane (Car.autonomous_drive i self cars fc) = Car.target_lane self.
Proof.
  destruct (autonomous_drive_decision i self cars fc);
    unfold abort, clear, brake, commit; destruct (adjust_speed_set self) as [v ->];
    simpl; try destruct (300 <? Car.stuck_timer self + 1)%Z; simpl; congruence.
Qed.

(** A [move] that finds the agent not changing lane and leaves it changing
    lane, in another lane or with another target lane has gone through a
    commitment, also when the lane change it starts completes within the
    same call. *)
Lemma move_lane_written (i : nat) (c : Car.t) (cs : list Car.t) (fc : Z) (pc : Car.t)
      (d : Draw) (c' : Car.t) :
  Car.move i c cs fc pc d = Some c' ->
  Car.is_player c = true -> Car.changing_lane c = false ->
  Car.changing_lane c' = true \/ Car.lane c' <> Car.lane c
  \/ Car.target_lane c' <> Car.target_lane c ->
  Car.collided c = false /\
  Car.changing_lane (Car.autonomous_drive i c cs fc) = true.
Proof.
  intros H Hpl Hch Hw.
  apply move_inv in H as [[_ ->]|[(Hcol & _ & H)|(_ & Hnp & _)]]; [|split; [done|]|congruence].
  - destruct Hw as [?|[?|?]]; congruence.
  - destruct (Car.changing_lane (Car.autonomous_drive i c cs fc)) eqn:Hs; [done|].
    exfalso.
    pose proof (autonomous_drive_target_lane i c cs fc Hs) as Htl.
    destruct (autonomous_drive_frame i c cs fc) as (_ & _ & Hl & _).
    destruct (steer_steered fc _ c' H) as [v Hs'|v Hs' _|v Hs' _]; [|congruence|congruence].
    cbn in Hw. destruct Hw as [?|[?|?]]; congruence.
Qed.

(** C7.  On a tick with frame count [fc] the agent initiates a lane change
    only if [fc] minus its [last_lane_change_time] is 60 or more.  The
    initiation is the call of the decision engine of that tick that finds
    [changing_lane] false and sets it; on the states before and after the
    tick it shows as [changing_lane] that has become true or, when the
    lane change completes within the same tick (it can, on the progress an
    abort has left), as a lane or target lane that has changed.
    [last_lane_change_time] starts at 0, a tick leaves it as it is unless
    that tick completes a lane change, and a tick that completes a lane
    change sets it to the frame count of that tick. *)
Theorem cooldown_before_lane_change (fc : Z) (rnd : nat -> Draw) (cs cs' : list Car.t)
        (p p' : Car.t) :
  tick fc rnd cs = Some cs' ->
  cs !! player_index = Some p -> cs' !! player_index = Some p' ->
  (Car.changing_lane p = false -> Car.changing_lane p' = true ->
   (60 <= fc - Car.last_lane_change_time p)%Z) /\
  (Car.changing_lane p = false ->
   Car.changing_lane (Car.autonomous_drive player_index p cs fc) = true ->
   (60 <= fc - Car.last_lane_change_time p)%Z) /\
  (Car.is_player p = true -> Car.changing_lane p = false ->
   Car.changing_lane p' = true \/ Car.lane p' <> Car.lane p
   \/ Car.target_lane p' <> Car.target_lane p ->
   Car.collided p = false /\
   Car.changing_lane (Car.autonomous_drive player_index p cs fc) = true /\
   (60 <= fc - Car.last_lane_change_time p)%Z) /\
  (Car.last_lane_change_time p' = Car.last_lane_change_time p \/
   (Car.last_lane_change_time p' = fc /\ Car.changing_lane p' = false /\
    Car.change_progress p' = #0.0 /\ Car.lane p' = Car.target_lane p')) /\
  (Car.is_player p = true -> Car.collided p = false ->
   let s := Car.autonomous_drive player_index p cs fc in
   Car.changing_lane s = true -> #1.0 <= Car.change_progress s + #0.05 ->
   Car.last_lane_change_time p' = fc /\ Car.changing_lane p' = false /\
   Car.lane p' = Car.target_lane s) /\
  (forall x0 y0 lane0 speed0 is_player0,
      Car.last_lane_change_time (Car.init x0 y0 lane0 speed0 is_player0) = 0%Z).
Proof.
  intros H Hp Hp'.
  destruct (tick_player fc rnd cs cs' p H Hp) as (pm & p2 & Hm & Hp2 & Hcr).
  assert (p2 = p') as -> by congruence.
  destruct (crash_frame pm p' Hcr) as (Hch & Hll & Hpr & Hl & Htl & _).
  rewrite Hch, Hll, Hpr, Hl, Htl.
  split; [|split; [|split; [|split; [|split]]]].
  - intros Hc Hc'. pose proof (move_initiates _ _ _ _ _ _ _ Hm Hc Hc') as Hcool.
    unfold on_cooldown in Hcool. lia.
  - intros Hc Hs.
    pose proof (autonomous_drive_initiates player_index p cs fc Hc Hs) as Hcool.
    unfold on_cooldown in Hcool. lia.
  - intros Hpl Hc Hw.
    destruct (move_lane_written _ _ _ _ _ _ _ Hm Hpl Hc Hw) as [Hcol Hs].
    split; [done|]. split; [done|].
    pose proof (autonomous_drive_initiates player_index p cs fc Hc Hs) as Hcool.
    unfold on_cooldown in Hcool. lia.
  - by apply (move_stamp _ _ _ _ _ _ _ Hm).
  - intros Hpl Hcol. by apply (move_completes _ _ _ _ _ _ _ Hm).
  - done.
Qed.

(** The agent before the commitment of scenario A, in the list of cars. *)
Lemma cooldown_before_lane_change_witness :
  exists cs' p',
    tick 100 rnd0 world_A = Some cs' /\ cs' !! player_index = Some p' /\
    (Car.changing_lane agent_A = false -> Car.changing_lane p' = true ->
     (60 <= 100 - Car.last_lane_change_time agent_A)%Z) /\
    (Car.changing_lane agent_A = false ->
     Car.changing_lane (Car.autonomous_drive player_index agent_A world_A 100) = true ->
     (60 <= 100 - Car.last_lane_change_time agent_A)%Z) /\
    (Car.is_player agent_A = true -> Car.changing_lane agent_A = false ->
     Car.changing_lane p' = true \/ Car.lane p' <> Car.lane agent_A
     \/ Car.target_lane p' <> Car.target_lane agent_A ->
     Car.collided agent_A = false /\
     Car.changing_lane (Car.autonomous_drive player_index agent_A world_A 100) = true /\
     (60 <= 100 - Car.last_lane_change_time agent_A)%Z) /\
    (Car.last_lane_change_time p' = Car.last_lane_change_time agent_A \/
     (Car.last_lane_change_time p' = 100%Z /\ Car.changing_lane p' = false /\
      Car.change_progress p' = #0.0 /\ Car.lane p' = Car.target_lane p')) /\
    (Car.is_player agent_A = true -> Car.collided agent_A = false ->
     let s := Car.autonomous_drive player_index agent_A world_A 100 in
     Car.changing_lane s = true -> #1.0 <= Car.change_progress s + #0.05 ->
     Car.last_lane_change_time p' = 100%Z /\ Car.changing_lane p' = false /\
     Car.lane p' = Car.target_lane s) /\
    (forall x0 y0 lane0 speed0 is_player0,
        Car.last_lane_change_time (Car.init x0 y0 lane0 speed0 is_player0) = 0%Z).
Proof.
  do 2 eexists.
  split; [vm_compute; reflexivity|].
  split; [reflexivity|].
  eapply (cooldown_before_lane_change 100 rnd0 world_A).
  - vm_compute. reflexivity.
  - reflexivity.
  - reflexivity.
Defined.

(** On cooldown the blocked agent of scenario A brakes instead. *)
Example cooldown_holds_back :
  Car.changing_lane (Car.autonomous_drive 0 agent_A world_A 59) = false
  /\ Car.changing_lane (Car.autonomous_drive 0 agent_A world_A 60) = true.
Proof. split; vm_compute; reflexivity. Qed.

(** On the progress an abort has left a commitment can complete within
    the tick that makes it: [changing_lane] is false before and after the
    tick, and the agent is in another lane.  The cooldown holds all the
    same: at frame 59 the agent stays in its lane. *)
Example commit_completes_within_tick :
  exists cs' p' cs59 p59,
    tick 100 rnd0 world_H = Some cs' /\ cs' !! player_index = Some p' /\
    tick 59 rnd0 world_H = Some cs59 /\ cs59 !! player_index = Some p59 /\
    Car.changing_lane agent_H = false /\ Car.lane agent_H = 1%nat /\
    Car.changing_lane p' = false /\ Car.lane p' = 0%nat /\
    Car.last_lane_change_time p' = 100%Z /\
    Car.changing_lane p59 = false /\ Car.lane p59 = 1%nat /\
    Car.target_lane p59 = 1%nat.
Proof.
  do 4 eexists.
  split; [vm_compute; reflexivity|]. split; [reflexivity|].
  split; [vm_compute; reflexivity|]. split; [reflexivity|].
  split; [reflexivity|]. split; [reflexivity|].
  split; [vm_compute; reflexivity|]. split; [vm_compute; reflexivity|].
  split; [vm_compute; reflexivity|]. split; [vm_compute; reflexivity|].
  split; vm_compute; reflexivity.
Qed.

(** ** The order of the updates within a tick *)

Lemma move_npc (i : nat) (c : Car.t) (cs : list Car.t) (fc : Z) (pc : Car.t) (d : Draw) :
  Car.is_player c = false -> Car.move i c cs fc pc d = npc_move fc pc d c.
Proof.
  intros Hpl. unfold Car.move, npc_move. rewrite Hpl. cbv beta zeta iota.
  by rewrite Hpl.
Qed.

Lemma moves_npcs (fc : Z) (rnd : nat -> Draw) (p' : Car.t) (npcs pre : list Car.t) :
  pre !! player_index = Some p' ->
  Forall (fun c => Car.is_player c = false) npcs ->
  fold_left (move_at fc rnd) (seq (length pre) (length npcs)) (Some (pre ++ npcs))
  = (npcs' ← npc_moves fc rnd p' (length pre) npcs; Some (pre ++ npcs')).
Proof.
  revert pre. induction npcs as [|c rest IH]; intros pre Hp Hnpc.
  - simpl. done.
  - apply Forall_cons in Hnpc as [Hc Hrest].
    cbn [length seq fold_left npc_moves].
    assert (move_at fc rnd (Some (pre ++ c :: rest)) (length pre)
            = (c' ← npc_move fc p' (rnd (length pre)) c; Some ((pre ++ [c']) ++ rest)))
      as ->.
    { unfold move_at. cbn [mbind option_bind].
      rewrite (list_lookup_middle pre rest c (length pre) eq_refl). cbn [mbind option_bind].
      rewrite (lookup_app_l_Some _ _ _ _ Hp). cbn [mbind option_bind].
      rewrite (move_npc _ _ _ _ _ _ Hc).
      destruct (npc_move fc p' (rnd (length pre)) c) as [c'|]; [|done].
      cbn [mbind option_bind]. f_equal.
      rewrite <- app_assoc. simpl.
      replace (length pre) with (length pre + 0)%nat by lia.
      by rewrite insert_app_r. }
    destruct (npc_move fc p' (rnd (length pre)) c) as [c'|]; cbn [mbind option_bind];
      [|by rewrite moves_None].
    specialize (IH (pre ++ [c'])).
    rewrite length_app in IH. simpl in IH.
    replace (length pre + 1)%nat with (S (length pre)) in IH by lia.
    rewrite IH; [|by apply lookup_app_l_Some|done].
    destruct (npc_moves fc rnd p' (S (length pre)) rest) as [rest'|];
      cbn [mbind option_bind]; [|done].
    by rewrite <- app_assoc.
Qed.

(** C2 (as the code has it).  Within a tick the player, first in the list,
    moves first: its decision engine runs on the list as the previous tick
    left it, before any other car is repositioned.  The other cars are then
    repositioned relative to the speed the player has after that move, and
    the collision check comes last. *)
Theorem agent_decides_before_traffic_moves (fc : Z) (rnd : nat -> Draw) (p : Car.t)
        (npcs : list Car.t) :
  Forall (fun c => Car.is_player c = false) npcs ->
  tick fc rnd (p :: npcs) =
  (p' ← Car.move player_index p (p :: npcs) fc p (rnd player_index);
   npcs' ← npc_moves fc rnd p' 1 npcs;
   Some (Car.update_sensors_and_check_collision player_index p' (p' :: npcs'))).
Proof.
  intros Hnpc. unfold tick, move_all.
  change (length (p :: npcs)) with (S (length npcs)).
  cbn [seq fold_left].
  assert (move_at fc rnd (Some (p :: npcs)) 0
          = (p' ← Car.move player_index p (p :: npcs) fc p (rnd player_index);
             Some ([p'] ++ npcs))) as ->.
  { unfold move_at, player_index. simpl.
    by destruct (Car.move 0 p (p :: npcs) fc p (rnd 0%nat)). }
  destruct (Car.move player_index p (p :: npcs) fc p (rnd player_index)) as [p'|];
    cbn [mbind option_bind]; [|by rewrite moves_None].
  pose proof (moves_npcs fc rnd p' npcs [p'] eq_refl Hnpc) as Hn.
  cbn [length app] in Hn |- *. rewrite Hn.
  destruct (npc_moves fc rnd p' 1 npcs) as [npcs'|]; cbn [mbind option_bind]; done.
Qed.

Lemma agent_decides_before_traffic_moves_witness :
  tick 100 rnd0 (agent_A :: [front_E]) =
  (p' ← Car.move player_index agent_A (agent_A :: [front_E]) 100 agent_A (rnd0 player_index);
   npcs' ← npc_moves 100 rnd0 p' 1 [front_E];
   Some (Car.update_sensors_and_check_collision player_index p' (p' :: npcs'))).
Proof.
  apply (agent_decides_before_traffic_moves 100 rnd0 agent_A [front_E]).
  repeat constructor.
Defined.

(** In [world_E] the decision of the tick is "Road clear": the agent saw
    the car ahead where the previous tick left it.  On the positions the
    tick itself produces the decision engine answers with a lane change. *)
Lemma decision_sees_positions_of_last_tick :
  exists p' front',
    tick 100 rnd0 world_E = Some [p'; front'] /\
    Car.collided p' = false /\
    Car.lane_decision p' = "Road clear"%string /\
    Car.lane_decision (Car.autonomous_drive 0 agent_A [agent_A; front'] 100)
    = "Changing to Lane 1"%string /\
    Car.lane_decision (Car.autonomous_drive 0 agent_A world_E 100) = "Road clear"%string.
Proof.
  do 2 eexists.
  split; [vm_compute; reflexivity|].
  repeat split; vm_compute; reflexivity.
Qed.

(** ** Braking when no lane change is possible *)

Lemma stalledb_stalled (s : Sim) : stalledb s = true -> exists front, stalled s front.
Proof.
  unfold stalledb, stalled.
  destruct (cars s !! player_index) as [p|]; [|done].
  rewrite !andb_true_iff, !negb_true_iff.
  intros ((((Hpl & Hcol) & Hch) & Hfront) & Hno).
  destruct (Car.get_car_in_front player_index p (cars s) (Car.lane p))
    as [[front|] d] eqn:Hf; [|done].
  exists front, p. split; [done|]. split; [done|]. split; [done|]. split.
  - split; [done|]. exists d. split; [done|]. by apply ext_ltb_true.
  - apply orb_true_iff in Hno as [Hc|Hno].
    + left. unfold on_cooldown. by apply Z.ltb_lt.
    + right. intros l Hl. rewrite forallb_forall in Hno.
      apply negb_true_iff, Hno, list_elem_of_In. by apply possible_lanes_iff.
Qed.

Lemma all_stalled_stalled (oracle : nat -> nat -> Draw) (n k : nat) (s : Sim) :
  all_stalled oracle k n s = true ->
  forall j sj, (j < n)%nat -> iterate oracle k j s = Some sj -> exists front, stalled sj front.
Proof.
  revert k s. induction n as [|n IH]; intros k s Hall j sj Hj Hit; [lia|].
  simpl in Hall. apply andb_true_iff in Hall as [Hs Hall].
  destruct j as [|j]; simpl in Hit.
  - injection Hit as <-. by apply stalledb_stalled.
  - destruct (main_iter (oracle k) s) as [s1|]; simpl in Hit; [|done].
    apply (IH (S k) s1 Hall j sj); [lia|done].
Qed.

Lemma iterate_snoc (oracle : nat -> nat -> Draw) (n k : nat) (s : Sim) :
  iterate oracle k (S n) s = (sn ← iterate oracle k n s; main_iter (oracle (k + n)%nat) sn).
Proof.
  revert k s. induction n as [|n IH]; intros k s.
  - simpl. rewrite Nat.add_0_r. by destruct (main_iter (oracle k) s).
  - change (iterate oracle k (S (S n)) s)
      with (s' ← main_iter (oracle k) s; iterate oracle (S k) (S n) s').
    change (iterate oracle k (S n) s)
      with (s' ← main_iter (oracle k) s; iterate oracle (S k) n s').
    destruct (main_iter (oracle k) s) as [s1|]; cbn [mbind option_bind]; [|done].
    rewrite IH. by replace (S k + n)%nat with (k + S n)%nat by lia.
Qed.

Lemma brake_fields (self front : Car.t) :
  Car.changing_lane (brake self front) = Car.changing_lane self /\
  Car.stuck_timer (brake self front) = (Car.stuck_timer self + 1)%Z /\
  Car.target_speed (brake self front) =
  if (300 <? Car.stuck_timer self + 1)%Z then Car.speed front - #1.0
  else Car.speed front - #0.1.
Proof.
  unfold brake. destruct (adjust_speed_set self) as [v ->]. simpl.
  by destruct (300 <? Car.stuck_timer self + 1)%Z.
Qed.

(** One iteration on a stalled agent. *)
Lemma stalled_step (rnd : nat -> Draw) (s s' : Sim) (p front : Car.t) :
  main_iter rnd s = Some s' -> stalled s front -> cars s !! player_index = Some p ->
  exists p', cars s' !! player_index = Some p' /\
    Car.stuck_timer p' = (Car.stuck_timer p + 1)%Z /\
    Car.target_speed p' =
    if (300 <? Car.stuck_timer p')%Z then Car.speed front - #1.0
    else Car.speed front - #0.1.
Proof.
  intros Hit (p0 & Hp0 & Hpl & Hcol & Hb & Hno) Hp.
  assert (p0 = p) as -> by congruence.
  unfold main_iter in Hit. rewrite Hp in Hit. cbn [mbind option_bind] in Hit.
  rewrite Hcol in Hit.
  destruct (tick (frame_count s + 1) rnd (cars s)) as [cs'|] eqn:Ht;
    cbn [mbind option_bind] in Hit; [|done].
  injection Hit as <-. simpl.
  destruct (tick_player _ _ _ _ p Ht Hp) as (pm & p' & Hm & Hp' & Hcr).
  exists p'. split; [done|].
  destruct (crash_frame pm p' Hcr) as (_ & _ & _ & _ & _ & -> & ->).
  apply move_inv in Hm as [[Hc _]|[(_ & _ & Hm)|(_ & Hn & _)]]; [congruence| |congruence].
  rewrite (autonomous_drive_brake _ _ _ _ front Hb Hno) in Hm.
  apply steer_frame in Hm as (_ & _ & _ & -> & _ & _ & _ & ->).
  destruct (brake_fields p front) as (_ & -> & ->). done.
Qed.

(** [n] iterations on an agent that is stalled in each of them. *)
Lemma stalled_run (oracle : nat -> nat -> Draw) (n k : nat) (s sn : Sim) (p : Car.t) :
  cars s !! player_index = Some p ->
  (forall j sj, (j < n)%nat -> iterate oracle k j s = Some sj ->
                exists front, stalled sj front) ->
  iterate oracle k n s = Some sn ->
  exists pn, cars sn !! player_index = Some pn /\
             Car.stuck_timer pn = (Car.stuck_timer p + Z.of_nat n)%Z.
Proof.
  intros Hp. revert sn. induction n as [|n IH]; intros sn Hall Hit.
  - simpl in Hit. injection Hit as <-. exists p. split; [done|]. lia.
  - rewrite iterate_snoc in Hit.
    destruct (iterate oracle k n s) as [sm|] eqn:Hm; cbn [mbind option_bind] in Hit;
      [|done].
    destruct (IH sm) as (pm & Hpm & Htm); [|done|].
    { intros j sj Hj. apply Hall. lia. }
    destruct (Hall n sm) as [front Hst]; [lia|done|].
    destruct (stalled_step _ _ _ pm front Hit Hst Hpm) as (pn & Hpn & Htn & _).
    exists pn. split; [done|]. lia.
Qed.

(** A run of stalled iterations, when it returns. *)
Lemma stalled_run_brake (oracle : nat -> nat -> Draw) (k n : nat) (s sl s' : Sim)
      (p front : Car.t) :
  cars s !! player_index = Some p ->
  (forall j sj, (j < n)%nat -> iterate oracle k j s = Some sj ->
                exists f, stalled sj f) ->
  iterate oracle k n s = Some sl -> stalled sl front ->
  iterate oracle k (S n) s = Some s' ->
  exists p', cars s' !! player_index = Some p' /\
    Car.stuck_timer p' = (Car.stuck_timer p + Z.of_nat (S n))%Z /\
    Car.target_speed p' =
    if (300 <? Car.stuck_timer p')%Z then Car.speed front - #1.0
    else Car.speed front - #0.1.
Proof.
  intros Hp Hall Hl Hst Hit.
  destruct (stalled_run oracle n k s sl p Hp Hall Hl) as (pl & Hpl & Htl).
  rewrite iterate_snoc, Hl in Hit. cbn [mbind option_bind] in Hit.
  destruct (stalled_step _ _ _ pl front Hit Hst Hpl) as (p' & Hp' & Ht' & Hts).
  exists p'. split; [done|]. split; [lia|done].
Qed.

(** C5.  Whenever the agent is blocked and cannot start a lane change (it
    is on cooldown or no adjacent lane is safe) the tick adds one to
    [stuck_timer] and sets the target speed to the speed of the blocking
    car minus 1.0 if the new [stuck_timer] exceeds 300, minus 0.1 otherwise.
    A run of [n + 1] such iterations of the main loop, from a list of cars
    with lanes on the road, returns, and [stuck_timer] has grown by [n + 1]:
    starting from 0, iterations 1 to 300 brake gently and iteration 301 is
    the first to brake hard. *)
Theorem stuck_timer_escalates (oracle : nat -> nat -> Draw) (k n : nat) (s : Sim)
        (p : Car.t) :
  world_ok (cars s) -> cars s !! player_index = Some p ->
  (forall j sj, (j <= n)%nat -> iterate oracle k j s = Some sj ->
                exists f, stalled sj f) ->
  exists sl front s' p',
    iterate oracle k n s = Some sl /\ stalled sl front /\
    iterate oracle k (S n) s = Some s' /\ cars s' !! player_index = Some p' /\
    Car.stuck_timer p' = (Car.stuck_timer p + Z.of_nat (S n))%Z /\
    Car.target_speed p' =
    if (300 <? Car.stuck_timer p')%Z then Car.speed front - #1.0
    else Car.speed front - #0.1.
Proof.
  intros Hok Hp Hall.
  destruct (iterate_total oracle n k s Hok) as (sl & Hl & _).
  destruct (iterate_total oracle (S n) k s Hok) as (s' & Hit & _).
  destruct (Hall n sl) as [front Hst]; [lia|done|].
  destruct (stalled_run_brake oracle k n s sl s' p front Hp) as (p' & Hp' & Ht & Hts);
    [|done|done|done|].
  { intros j sj Hj. apply Hall. lia. }
  by exists sl, front, s', p'.
Qed.

Lemma world_ok_F : world_ok (cars sim_F).
Proof.
  split; [done|]. repeat constructor; unfold LANE_COUNT; simpl; lia.
Qed.

Lemma all_stalled_F : all_stalled oracle0 1 301 sim_F = true.
Proof. vm_compute. reflexivity. Qed.

Lemma stuck_timer_escalates_witness :
  exists sl front s' p',
    iterate oracle0 1 300 sim_F = Some sl /\ stalled sl front /\
    iterate oracle0 1 301 sim_F = Some s' /\ cars s' !! player_index = Some p' /\
    Car.stuck_timer p' = (Car.stuck_timer agent_A + Z.of_nat 301)%Z /\
    Car.target_speed p' =
    if (300 <? Car.stuck_timer p')%Z then Car.speed front - #1.0
    else Car.speed front - #0.1.
Proof.
  apply (stuck_timer_escalates oracle0 1 300 sim_F agent_A).
  - exact world_ok_F.
  - reflexivity.
  - intros j sj Hj. apply (all_stalled_stalled oracle0 301 1 sim_F all_stalled_F). lia.
Defined.

(** The run of scenario C, evaluated: gentle braking up to tick 300, hard
    braking at tick 301. *)
Example scenario_C :
  exists s300 s301 p300 p301,
    iterate oracle0 1 300 sim_F = Some s300 /\ cars s300 !! player_index = Some p300 /\
    iterate oracle0 1 301 sim_F = Some s301 /\ cars s301 !! player_index = Some p301 /\
    Car.lane_decision p300 = "Slowing: No safe lane"%string /\
    Car.stuck_timer p300 = 300%Z /\
    Car.lane_decision p301 = "Stuck! Braking hard."%string /\
    Car.stuck_timer p301 = 301%Z /\
    Car.target_speed p301 = Car.speed front_F - #1.0.
Proof.
  do 4 eexists.
  split; [vm_compute; reflexivity|]. split; [reflexivity|].
  split; [vm_compute; reflexivity|]. split; [reflexivity|].
  split; [vm_compute; reflexivity|]. split; [vm_compute; reflexivity|].
  split; [vm_compute; reflexivity|]. split; [vm_compute; reflexivity|].
  apply Qc_is_canon. vm_compute. reflexivity.
Qed.

(** ** The progress of a lane change *)

(** In exact arithmetic the progress stays in the interval from 0 to 1,
    1 excluded. *)
Lemma move_change_progress_range (i : nat) (c : Car.t) (cs : list Car.t) (fc : Z)
      (pc : Car.t) (d : Draw) (c' : Car.t) :
  Car.move i c cs fc pc d = Some c' ->
  #0.0 <= Car.change_progress c /\ Car.change_progress c < #1.0 ->
  #0.0 <= Car.change_progress c' /\ Car.change_progress c' < #1.0.
Proof.
  intros H [H0 H1].
  assert (#0.0 <= #0.05) as H5 by (by vm_compute).
  assert (#0.0 < #1.0) as H01 by (by vm_compute).
  assert (forall s, Car.change_progress s = Car.change_progress c ->
                    Car.steer fc s = Some c' ->
                    #0.0 <= Car.change_progress c' /\ Car.change_progress c' < #1.0) as Hs.
  { intros s Hpr Hst.
    destruct (steer_steered fc s c' Hst) as [v Hch|v Hch Hlt|v Hch Hle]; simpl.
    - by rewrite Hpr.
    - split; [|done]. rewrite Hpr. by apply Qcplus_nonneg_nonneg.
    - split; [apply Qcle_refl|done]. }
  apply move_inv in H as [[_ ->]|[(_ & _ & H)|(_ & _ & c1 & Hd & H)]].
  - done.
  - apply (Hs _ (proj1 (proj2 (proj2 (proj2 (proj2 (autonomous_drive_frame i c cs fc)))))) H).
  - apply (Hs c1); [|done]. by apply drift_frame in Hd as (_ & _ & _ & _ & -> & _).
Qed.

(** A lane change that completes resets the progress on the same tick. *)
Lemma complete_resets_progress (fc : Z) (s s' : Car.t) :
  Car.steer fc s = Some s' ->
  Car.changing_lane s = true -> #1.0 <= Car.change_progress s + #0.05 ->
  Car.changing_lane s' = false /\ Car.change_progress s' = #0.0.
Proof.
  intros H Hch Hle.
  destruct (steer_steered fc s s' H) as [v Hch'|v Hch' Hlt|v Hch' _]; simpl.
  - congruence.
  - by destruct (Qclt_not_le _ _ Hlt).
  - done.
Qed.

(** An abort clears [changing_lane] and leaves [change_progress] as it
    is: the agent ends the tick not changing lane, with the progress of the
    abandoned lane change. *)
Lemma abort_leaves_progress (i : nat) (c : Car.t) (cs : list Car.t) (fc : Z) (pc : Car.t)
      (d : Draw) (c' : Car.t) :
  Car.move i c cs fc pc d = Some c' ->
  Car.is_player c = true -> Car.collided c = false ->
  Car.changing_lane c = true ->
  Car.is_lane_safe i (Car.adjust_speed c) cs (Car.target_lane c) = false ->
  Car.changing_lane c' = false /\ Car.change_progress c' = Car.change_progress c.
Proof.
  intros H Hpl Hcol Hch Hun.
  apply move_inv in H as [[Hcol' _]|[(_ & _ & H)|(_ & Hpl' & _)]]; [congruence| |congruence].
  assert (Car.autonomous_drive i c cs fc = abort c) as Hab.
  { unfold Car.autonomous_drive.
    by rewrite adjust_speed_changing_lane, adjust_speed_target_lane, Hch, Hun. }
  rewrite Hab in H.
  assert (Car.changing_lane (abort c) = false) as Hf by done.
  assert (Car.change_progress (abort c) = Car.change_progress c) as Hpr.
  { unfold abort. by destruct (adjust_speed_set c) as [v ->]. }
  destruct (steer_steered fc _ c' H) as [v Hch'|v Hch' _|v Hch' _]; simpl; [done|congruence..].
Qed.

(** C1 fails on the code.  In the run of [main] with the draws
    [bug_oracle] the agent commits to lane 0 in iteration 289 and aborts in
    iteration 290; after that iteration it is not changing lane and its
    [change_progress] is 0.05, not 0. *)
Theorem abort_keeps_change_progress :
  exists s289 s290 p289 p290,
    run bug_oracle 289 = Some s289 /\ cars s289 !! player_index = Some p289 /\
    run bug_oracle 290 = Some s290 /\ cars s290 !! player_index = Some p290 /\
    Car.changing_lane p289 = true /\ Car.change_progress p289 = #0.05 /\
    Car.lane_decision p290 = "Target Unsafe! Aborting."%string /\
    Car.collided p290 = false /\
    Car.changing_lane p290 = false /\ Car.change_progress p290 = #0.05.
Proof.
  do 4 eexists.
  split; [vm_compute; reflexivity|]. split; [reflexivity|].
  split; [vm_compute; reflexivity|]. split; [reflexivity|].
  split; [vm_compute; reflexivity|].
  split; [apply Qc_is_canon; vm_compute; reflexivity|].
  split; [vm_compute; reflexivity|]. split; [vm_compute; reflexivity|].
  split; [vm_compute; reflexivity|].
  apply Qc_is_canon. vm_compute. reflexivity.
Qed.

Lemma init_progress_ok (x0 y0 : Qc) (lane0 : nat) (speed0 : Qc) (is_player0 : bool) :
  progress_ok (Car.init x0 y0 lane0 speed0 is_player0).
Proof. split; simpl; by vm_compute. Qed.

Lemma tick_progress_ok (fc : Z) (rnd : nat -> Draw) (cs cs' : list Car.t) :
  tick fc rnd cs = Some cs' -> Forall progress_ok cs -> Forall progress_ok cs'.
Proof.
  intros H Hall. apply tick_inv in H as (cm & pm & Hm & Hpm & ->).
  apply Forall_lookup. intros j c' Hj.
  destruct (check_collision_inv player_index pm cm j c' Hpm Hj) as (c1 & Hc1 & Hfl).
  assert (is_Some (cs !! j)) as [c Hc].
  { apply lookup_lt_is_Some. apply lookup_lt_Some in Hc1.
    unfold move_all in Hm. by rewrite (moves_length _ _ _ _ _ _ Hm) in Hc1. }
  destruct (move_all_rel (fun c c' => progress_ok c -> progress_ok c') fc rnd cs cm)
    with (j := j) (c := c) as (c2 & Hc2 & Hok); [done| |done|done|].
  { intros i0 c0 cs0 pc d c0' H0. by apply (move_change_progress_range _ _ _ _ _ _ _ H0). }
  assert (c2 = c1) as -> by congruence.
  assert (progress_ok c1) as Hok1.
  { apply Hok. rewrite Forall_lookup in Hall. by apply (Hall j). }
  by destruct Hfl as [->|[->| ->]].
Qed.

Lemma reset_progress_ok (rnd : nat -> Draw) (s : Sim) :
  reset_simulation rnd = Some s -> Forall progress_ok (cars s).
Proof.
  unfold reset_simulation.
  destruct (Car.lane_center 1) as [px|]; cbn [mbind option_bind]; [|done].
  destruct (mapM (fun k => spawn (rnd k)) (seq 0 12)) as [npcs|] eqn:Hn;
    cbn [mbind option_bind]; [|done].
  intros [= <-]. simpl. constructor; [apply init_progress_ok|].
  apply mapM_Some in Hn.
  apply Forall_lookup. intros j c Hj.
  destruct (Forall2_lookup_r _ _ _ _ _ Hn Hj) as (k & _ & Hk).
  unfold spawn in Hk.
  destruct (Car.lane_center _) as [x_pos|]; cbn [mbind option_bind] in Hk; [|done].
  injection Hk as <-. apply init_progress_ok.
Qed.

Lemma main_iter_progress_ok (rnd : nat -> Draw) (s s' : Sim) :
  main_iter rnd s = Some s' -> Forall progress_ok (cars s) -> Forall progress_ok (cars s').
Proof.
  unfold main_iter.
  destruct (cars s !! player_index) as [p|]; cbn [mbind option_bind]; [|done].
  destruct (Car.collided p).
  - intros H _. by apply (reset_progress_ok rnd).
  - destruct (tick (frame_count s + 1) rnd (cars s)) as [cs'|] eqn:Ht;
      cbn [mbind option_bind]; [|done].
    intros [= <-] Hall. simpl. by apply (tick_progress_ok _ _ _ _ Ht).
Qed.

(** In every state a run of [main] reaches, the progress of every car is
    in the interval from 0 to 1. *)
Lemma run_progress_ok (oracle : nat -> nat -> Draw) (n : nat) (s : Sim) :
  run oracle n = Some s -> Forall progress_ok (cars s).
Proof.
  unfold run.
  destruct (reset_simulation (oracle 0%nat)) as [s0|] eqn:H0; cbn [mbind option_bind];
    [|done].
  apply reset_progress_ok in H0. revert H0. generalize 1%nat as k. revert s0.
  induction n as [|n IH]; intros s0 k H0 Hit; simpl in Hit.
  - by injection Hit as <-.
  - destruct (main_iter (oracle k) s0) as [s1|] eqn:H1; cbn [mbind option_bind] in Hit;
      [|done].
    apply (IH s1 (S k)); [|done]. by apply (main_iter_progress_ok _ _ _ H1).
Qed.

Example scenario_D :
  exists p',
    Car.move 0 agent_D [agent_D; intruder_D] 100 agent_D (rnd0 0%nat) = Some p' /\
    Car.lane_decision p' = "Target Unsafe! Aborting."%string /\
    Car.changing_lane p' = false /\ Car.stuck_timer p' = 0%Z /\
    Car.change_progress p' = #0.4.
Proof.
  eexists. split; [vm_compute; reflexivity|].
  split; [vm_compute; reflexivity|]. split; [vm_compute; reflexivity|].
  split; [vm_compute; reflexivity|].
  apply Qc_is_canon. vm_compute. reflexivity.
Qed.

(** * Further properties *)

(** ** Arithmetic on floats *)

(** Goals and hypotheses on [Qc], taken to [Q] for [lra] and [ring]. *)
Ltac qc2q :=
  unfold Qcle, Qclt, Qcminus, Qcplus, Qcopp, Qcmult, Q2Qc, Qc_of_Z in *;
  cbn [this] in *;
  rewrite ?Qred_correct in *;
  unfold inject_Z in *.

(** ** Invariants of a run *)

(** A property that [reset_simulation] establishes and every iteration
    keeps holds after any run. *)
Lemma run_invariant (G : (nat -> Draw) -> Prop) (P : Sim -> Prop)
      (oracle : nat -> nat -> Draw) :
  (forall k, G (oracle k)) ->
  (forall rnd s, G rnd -> reset_simulation rnd = Some s -> P s) ->
  (forall rnd s s', G rnd -> P s -> main_iter rnd s = Some s' -> P s') ->
  forall n s, run oracle n = Some s -> P s.
Proof.
  intros HG Hreset Hstep n s. unfold run.
  destruct (reset_simulation (oracle 0%nat)) as [s0|] eqn:H0; cbn [mbind option_bind];
    [|done].
  apply (Hreset _ _ (HG 0%nat)) in H0. revert H0. generalize 1%nat as k. revert s0.
  induction n as [|n IH]; intros s0 k H0 Hit; simpl in Hit.
  - by injection Hit as <-.
  - destruct (main_iter (oracle k) s0) as [s1|] eqn:H1; cbn [mbind option_bind] in Hit;
      [|done].
    apply (IH s1 (S k)); [|done]. by apply (Hstep (oracle k) s0 s1).
Qed.

(** In the pass of [move] over the list every car is moved once. *)
Lemma moves_at (fc : Z) (rnd : nat -> Draw) (m k : nat) (cs cs' : list Car.t)
      (j : nat) (c : Car.t) :
  fold_left (move_at fc rnd) (seq k m) (Some cs) = Some cs' ->
  (k <= j < k + m)%nat -> cs !! j = Some c ->
  exists cs0 pc c', Car.move j c cs0 fc pc (rnd j) = Some c' /\ cs' !! j = Some c'.
Proof.
  revert k cs. induction m as [|m IH]; intros k cs H Hj Hc; [lia|].
  apply moves_step in H as (cs1 & H1 & H).
  apply move_at_Some in H1 as (car & pc & car' & Hk & _ & Hm & ->).
  destruct (decide (j = k)) as [->|Hne].
  - assert (car = c) as -> by congruence.
    exists cs, pc, car'. split; [done|].
    rewrite (moves_lookup_lt _ _ _ _ _ _ k H) by lia.
    apply list_lookup_insert_eq. by apply lookup_lt_Some in Hk.
  - apply (IH (S k) (<[k:=car']> cs) H); [lia|].
    by rewrite list_lookup_insert_ne.
Qed.

(** A property of single cars that [move] takes from [P] to [Q] and the
    flags of the collision check do not touch goes through the step. *)
Lemma tick_cars (P Q : Car.t -> Prop) (fc : Z) (rnd : nat -> Draw)
      (cs cs' : list Car.t) :
  (forall i c cs0 pc c', P c -> Car.move i c cs0 fc pc (rnd i) = Some c' -> Q c') ->
  (forall c c', same_but_flags c c' -> Q c -> Q c') ->
  tick fc rnd cs = Some cs' -> Forall P cs -> Forall Q cs'.
Proof.
  intros Hmove Hflags H Hall. apply tick_inv in H as (cm & pm & Hm & Hpm & ->).
  apply Forall_lookup. intros j c' Hj.
  destruct (check_collision_inv player_index pm cm j c' Hpm Hj) as (c1 & Hc1 & Hfl).
  unfold move_all in Hm.
  assert (j < length cs)%nat as Hlt.
  { apply lookup_lt_Some in Hc1. by rewrite (moves_length _ _ _ _ _ _ Hm) in Hc1. }
  destruct (lookup_lt_is_Some_2 cs j Hlt) as [c Hc].
  destruct (moves_at fc rnd (length cs) 0 cs cm j c Hm) as (cs0 & pc & c2 & Hmv & Hc2);
    [lia|done|].
  assert (c2 = c1) as -> by congruence.
  apply (Hflags c1 c' Hfl), (Hmove j c cs0 pc c1); [|done].
  rewrite Forall_lookup in Hall. by apply (Hall j).
Qed.

Lemma tick_length (fc : Z) (rnd : nat -> Draw) (cs cs' : list Car.t) :
  tick fc rnd cs = Some cs' -> length cs' = length cs.
Proof.
  intros H. apply tick_inv in H as (cm & pm & Hm & Hpm & ->).
  rewrite check_collision_length. unfold move_all in Hm.
  by apply (moves_length _ _ _ _ _ _ Hm).
Qed.

Lemma lane_center_values (l : nat) (cx : Qc) :
  Car.lane_center l = Some cx ->
  (l = 0%nat /\ cx = Qc_of_Z 350) \/ (l = 1%nat /\ cx = Qc_of_Z 500)
  \/ (l = 2%nat /\ cx = Qc_of_Z 650).
Proof.
  destruct l as [|[|[|l]]]; cbn; intros [= <-]; auto.
Qed.

(** A car [reset_simulation] spawns. *)
Lemma spawn_car (d : Draw) (c : Car.t) :
  spawn d = Some c ->
  exists lane0 x_pos y_pos,
    Car.lane_center lane0 = Some x_pos /\ (- 800 <= y_pos <= 0)%Z /\
    c = Car.init x_pos (Qc_of_Z y_pos) lane0
          (uniform NPC_SPEED_MIN NPC_SPEED_MAX (draw_unit d)) false.
Proof.
  unfold spawn.
  destruct (Car.lane_center (randint 0 (LANE_COUNT - 1) (draw_lane d))) as [x_pos|] eqn:Hx;
    cbn [mbind option_bind]; [|done].
  intros [= <-]. eexists _, x_pos, _. split; [exact Hx|]. split; [|done].
  unfold randintZ, HEIGHT.
  pose proof (Nat.mod_upper_bound (draw_y d) (S (Z.to_nat 800))). lia.
Qed.

(** The state [reset_simulation] builds. *)
Lemma reset_cars (rnd : nat -> Draw) (s : Sim) :
  reset_simulation rnd = Some s ->
  frame_count s = 0%Z /\ distance s = Qc_of_Z 0 /\
  exists npcs,
    cars s = Car.init (Qc_of_Z 500) (Qc_of_Z 700) 1 PLAYER_SPEED_MIN true :: npcs /\
    length npcs = 12%nat /\
    Forall (fun c => exists k, spawn (rnd k) = Some c) npcs.
Proof.
  unfold reset_simulation.
  destruct (Car.lane_center 1) as [px|] eqn:Hpx; cbn [mbind option_bind]; [|done].
  destruct (mapM (fun k => spawn (rnd k)) (seq 0 12)) as [npcs|] eqn:Hn;
    cbn [mbind option_bind]; [|done].
  intros [= <-]. split; [done|]. split; [done|]. exists npcs.
  apply lane_center_values in Hpx as [[? _]|[[_ ->]|[? _]]]; [done| |done].
  split; [done|]. apply mapM_Some in Hn. split.
  - apply Forall2_length in Hn. by rewrite length_seq in Hn.
  - apply Forall_lookup. intros j c Hj.
    destruct (Forall2_lookup_r _ _ _ _ _ Hn Hj) as (k & _ & Hk). by exists k.
Qed.

(** What an iteration of the main loop is. *)
Lemma main_iter_inv (rnd : nat -> Draw) (s s' : Sim) :
  main_iter rnd s = Some s' ->
  (exists p, cars s !! player_index = Some p /\ Car.collided p = true /\
             reset_simulation rnd = Some s') \/
  (exists p, cars s !! player_index = Some p /\ Car.collided p = false /\
             tick (frame_count s + 1) rnd (cars s) = Some (cars s') /\
             frame_count s' = (frame_count s + 1)%Z /\
             distance s' = distance s + Car.speed p).
Proof.
  unfold main_iter.
  destruct (cars s !! player_index) as [p|]; cbn [mbind option_bind]; [|done].
  destruct (Car.collided p) eqn:Hc.
  - intros H. left. by exists p.
  - destruct (tick (frame_count s + 1) rnd (cars s)) as [cs'|];
      cbn [mbind option_bind]; [|done].
    intros [= <-]. right. by exists p.
Qed.

(** A run of any length, on any draws, returns. *)
Lemma run_returns (oracle : nat -> nat -> Draw) (n : nat) :
  exists s, run oracle n = Some s /\ world_ok (cars s).
Proof.
  unfold run. destruct (reset_total (oracle 0%nat)) as (s0 & -> & Hok0).
  cbn [mbind option_bind].
  destruct (iterate_total oracle n 1 s0 Hok0) as (s & Hs & Hok).
  by exists s.
Qed.

Lemma same_but_flags_is_player (c c' : Car.t) :
  same_but_flags c c' -> Car.is_player c' = Car.is_player c.
Proof. by intros [->|[->| ->]]. Qed.

Lemma move_is_player (i : nat) (c : Car.t) (cs : list Car.t) (fc : Z) (pc : Car.t)
      (d : Draw) (c' : Car.t) :
  Car.move i c cs fc pc d = Some c' -> Car.is_player c' = Car.is_player c.
Proof.
  intros H. apply move_inv in H as [[_ ->]|[(_ & _ & H)|(_ & _ & c1 & H1 & H)]].
  - done.
  - apply steer_frame in H as (_ & _ & -> & _).
    by destruct (autonomous_drive_frame i c cs fc) as (_ & _ & _ & -> & _).
  - apply steer_frame in H as (_ & _ & -> & _).
    by apply drift_frame in H1 as (-> & _).
Qed.

Lemma tick_one_player (fc : Z) (rnd : nat -> Draw) (cs cs' : list Car.t) :
  tick fc rnd cs = Some cs' -> one_player cs -> one_player cs'.
Proof.
  intros H (p & npcs & -> & Hp & Hlen & Hnpc).
  pose proof (tick_length _ _ _ _ H) as Hl.
  destruct cs' as [|p' npcs']; [done|].
  exists p', npcs'. split; [done|].
  assert (forall j c c', (p :: npcs) !! j = Some c -> (p' :: npcs') !! j = Some c' ->
                         Car.is_player c' = Car.is_player c) as Hsame.
  { intros j c c' Hc Hc'.
    apply tick_inv in H as (cm & pm & Hm & Hpm & Heq).
    rewrite Heq in Hc'.
    destruct (check_collision_inv player_index pm cm j c' Hpm Hc') as (c1 & Hc1 & Hfl).
    rewrite (same_but_flags_is_player c1 c' Hfl).
    destruct (move_all_rel (fun a b => Car.is_player b = Car.is_player a) fc rnd
                           (p :: npcs) cm) with (j := j) (c := c)
      as (c2 & Hc2 & Hpl); [done| |done|done|].
    { intros i0 c0 cs0 pc d c0' H0. by apply (move_is_player _ _ _ _ _ _ _ H0). }
    congruence. }
  split; [by rewrite (Hsame 0%nat p p')|].
  split; [simpl in Hl; lia|].
  apply Forall_lookup. intros j c' Hc'.
  assert (is_Some (npcs !! j)) as [c Hc].
  { apply lookup_lt_is_Some. apply lookup_lt_Some in Hc'. simpl in Hl. lia. }
  rewrite (Hsame (S j) c c') by done.
  rewrite Forall_lookup in Hnpc. by apply (Hnpc j).
Qed.

Lemma reached_one_player (oracle : nat -> nat -> Draw) (n : nat) (s : Sim) :
  run oracle n = Some s -> one_player (cars s).
Proof.
  apply (run_invariant (fun _ => True) (fun s => one_player (cars s)) oracle); [done| |].
  - intros rnd s0 _ H0.
    apply reset_cars in H0 as (_ & _ & npcs & -> & Hlen & Hsp).
    eexists _, npcs. split; [done|]. split; [done|]. split; [done|].
    apply Forall_forall. intros c Hc. rewrite Forall_forall in Hsp.
    destruct (Hsp c Hc) as (k & Hk).
    by apply spawn_car in Hk as (l0 & x0 & y0 & _ & _ & ->).
  - intros rnd s0 s1 _ H0 H1.
    apply main_iter_inv in H1 as [(p & _ & _ & Hr)|(p & _ & _ & Ht & _)].
    + apply reset_cars in Hr as (_ & _ & npcs & -> & Hlen & Hsp).
      eexists _, npcs. split; [done|]. split; [done|]. split; [done|].
      apply Forall_forall. intros c Hc. rewrite Forall_forall in Hsp.
      destruct (Hsp c Hc) as (k & Hk).
      by apply spawn_car in Hk as (l0 & x0 & y0 & _ & _ & ->).
    + by apply (tick_one_player _ _ _ _ Ht).
Qed.

(** ** Where the cars are *)

(** The lateral position after the last block of [move]. *)
Lemma steer_x (fc : Z) (s s' : Car.t) :
  Car.steer fc s = Some s' ->
  (Car.changing_lane s = false /\ Car.lane s' = Car.lane s /\
   Car.changing_lane s' = false /\
   exists cx, Car.lane_center (Car.lane s) = Some cx /\
              Car.x s' = Car.x s + (cx - Car.x s) * #0.1) \/
  (Car.changing_lane s = true /\
   exists sx ex, Car.lane_center (Car.lane s) = Some sx /\
                 Car.lane_center (Car.target_lane s) = Some ex /\
                 ((Car.change_progress s + #0.05 < #1.0 /\
                   Car.x s' = sx + (ex - sx) * (Car.change_progress s + #0.05))
                  \/ (#1.0 <= Car.change_progress s + #0.05 /\ Car.x s' = ex))).
Proof.
  unfold Car.steer. destruct (Car.changing_lane s) eqn:Hch.
  - simpl.
    destruct (Car.lane_center (Car.lane s)) as [sx|] eqn:Hsx; simpl; [|done].
    destruct (Car.lane_center (Car.target_lane s)) as [ex|] eqn:Hex; simpl; [|done].
    destruct (Qcleb #1.0 (Car.change_progress s + #0.05)) eqn:Hp.
    + simpl. intros [= <-]. right. split; [done|].
      exists sx, ex. split; [done|]. split; [done|]. right.
      split; [by apply Qcleb_true|done].
    + intros [= <-]. right. split; [done|].
      exists sx, ex. split; [done|]. split; [done|]. left.
      split; [by apply Qcleb_false|done].
  - destruct (Car.lane_center (Car.lane s)) as [cx|] eqn:Hcx; simpl; [|done].
    intros [= <-]. left. split; [done|]. split; [done|]. split; [done|]. by exists cx.
Qed.

(** The relative motion of a car that is not the player: it drifts by
    the difference of the speeds, or it is put back above the screen. *)
Lemma drift_cases (pc : Car.t) (d : Draw) (s s' : Car.t) :
  Car.drift pc d s = Some s' ->
  (Car.y s' = Car.y s + (Car.speed pc - Car.speed s) /\ Car.y s' <= Qc_of_Z 900 /\
   Car.x s' = Car.x s /\ Car.lane s' = Car.lane s /\ Car.speed s' = Car.speed s) \/
  (Qc_of_Z 900 < Car.y s + (Car.speed pc - Car.speed s) /\
   Car.y s' = Qc_of_Z (- 250) /\
   (Car.lane s' < LANE_COUNT)%nat /\
   Car.lane s' = randint 0 (LANE_COUNT - 1) (draw_lane d) /\
   Car.lane_center (Car.lane s') = Some (Car.x s') /\
   Car.speed s' = uniform NPC_SPEED_MIN NPC_SPEED_MAX (draw_unit d)).
Proof.
  unfold Car.drift, Car.respawn. cbn [Car.y Car.set_y].
  destruct (Qcltb _ _) eqn:Hlt.
  - apply Qcltb_true in Hlt. cbn [Car.lane Car.set_lane].
    destruct (Car.lane_center _) as [cx|] eqn:Hcx; cbn [mbind option_bind]; [|done].
    intros [= <-]. right. split; [exact Hlt|]. split; [done|].
    split; [apply randint_lane|]. split; [done|]. split; [exact Hcx|done].
  - apply Qcltb_false in Hlt. intros [= <-]. left. done.
Qed.

Lemma lane_center_range (l : nat) (cx : Qc) :
  Car.lane_center l = Some cx -> Qc_of_Z 350 <= cx /\ cx <= Qc_of_Z 650.
Proof.
  intros H. apply lane_center_values in H as [[_ ->]|[[_ ->]|[_ ->]]]; by vm_compute.
Qed.

Lemma move_placed (i : nat) (c : Car.t) (cs : list Car.t) (fc : Z) (pc : Car.t)
      (d : Draw) (c' : Car.t) :
  Car.move i c cs fc pc d = Some c' ->
  placed c /\ progress_ok c -> placed c'.
Proof.
  intros H [(Hx0 & Hx1 & Hpl & Hnpc) [Hp0 Hp1]].
  apply move_inv in H as [[_ ->]|[(_ & Hplayer & H)|(_ & Hnp & c1 & Hd & H)]].
  - done.
  - destruct (autonomous_drive_frame i c cs fc) as (Hx & Hy & Hl & Hip & Hpr & _).
    pose proof (steer_frame _ _ _ H) as (Hy' & _ & Hip' & _).
    split; [|split; [|split]].
    3: { intros _. rewrite Hy', Hy. by apply Hpl. }
    3: { rewrite Hip', Hip, Hplayer. done. }
    all: apply steer_x in H as [(_ & _ & _ & cx & Hcx & ->)|(_ & sx & ex & Hsx & Hex & Hcase)];
      rewrite ?Hx, ?Hpr in *.
    all: try (destruct (lane_center_range _ _ Hcx) as [Hc0 Hc1]).
    all: try (destruct (lane_center_range _ _ Hsx) as [Hs0 Hs1];
              destruct (lane_center_range _ _ Hex) as [He0 He1];
              destruct Hcase as [[Hlt ->]|[_ ->]]; [|done]).
    all: qc2q; nra.
  - pose proof (steer_frame _ _ _ H) as (Hy' & _ & Hip' & _).
    pose proof (drift_frame _ _ _ _ Hd) as (Hip1 & _ & Hch1 & _).
    destruct (Hnpc Hnp) as (Hy & Hch & Hcx).
    assert (Car.y c1 <= Qc_of_Z 900 /\ Car.lane_center (Car.lane c1) = Some (Car.x c1))
      as [Hy1 Hcx1].
    { apply drift_cases in Hd as [(_ & Hle & -> & -> & _)|(_ & -> & _ & _ & Hc & _)];
        [done|]. split; [by vm_compute|done]. }
    apply steer_x in H as [(_ & Hl' & Hch' & cx & Hcx' & Hx')|(Hch' & _)];
      [|congruence].
    assert (cx = Car.x c1) as -> by congruence.
    assert (Car.x c' = Car.x c1) as Hxeq.
    { rewrite Hx'. apply Qc_is_canon. qc2q. ring. }
    destruct (lane_center_range _ _ Hcx1) as [Hc0 Hc1].
    unfold placed. rewrite Hxeq, Hy', Hl', Hip', Hip1, Hnp.
    split; [done|]. split; [done|]. split; [done|]. done.
Qed.

Lemma same_but_flags_placed (c c' : Car.t) :
  same_but_flags c c' -> placed c /\ progress_ok c -> placed c' /\ progress_ok c'.
Proof. by intros [->|[->| ->]]. Qed.

Lemma init_player_placed :
  placed (Car.init (Qc_of_Z 500) (Qc_of_Z 700) 1 PLAYER_SPEED_MIN true).
Proof.
  split; [by vm_compute|]. split; [by vm_compute|]. split; [done|]. done.
Qed.

Lemma spawn_placed (d : Draw) (c : Car.t) : spawn d = Some c -> placed c.
Proof.
  intros H. apply spawn_car in H as (l0 & x0 & y0 & Hx & Hy & ->).
  destruct (lane_center_range _ _ Hx) as [H0 H1].
  split; [done|]. split; [done|]. split; [done|]. intros _.
  split; [|done]. cbn [Car.y Car.init]. qc2q. unfold Qle. simpl. lia.
Qed.

Lemma reset_placed (rnd : nat -> Draw) (s : Sim) :
  reset_simulation rnd = Some s -> Forall (fun c => placed c /\ progress_ok c) (cars s).
Proof.
  intros H. pose proof (reset_progress_ok _ _ H) as Hpr.
  apply reset_cars in H as (_ & _ & npcs & Hcs & _ & Hsp). rewrite Hcs in *.
  apply Forall_cons in Hpr as [Hp Hn].
  constructor; [split; [apply init_player_placed|done]|].
  apply Forall_lookup. intros j c Hj.
  rewrite Forall_lookup in Hsp, Hn.
  destruct (Hsp j c Hj) as [k Hk]. split; [by apply (spawn_placed (rnd k))|].
  by apply (Hn j).
Qed.

Lemma reached_cars_placed (oracle : nat -> nat -> Draw) (n : nat) (s : Sim) :
  run oracle n = Some s -> Forall placed (cars s).
Proof.
  intros H.
  assert (Forall (fun c => placed c /\ progress_ok c) (cars s)) as Hall.
  { revert n s H.
    apply (run_invariant (fun _ => True)
             (fun s => Forall (fun c => placed c /\ progress_ok c) (cars s)) oracle);
      [done| |].
    - intros rnd s0 _. apply reset_placed.
    - intros rnd s0 s1 _ H0 H1.
      apply main_iter_inv in H1 as [(p & _ & _ & Hr)|(p & _ & _ & Ht & _)];
        [by apply (reset_placed rnd)|].
      apply (tick_cars (fun c => placed c /\ progress_ok c)
                       (fun c => placed c /\ progress_ok c) _ _ _ _) with (4 := H0) in Ht;
        [done| |].
      + intros i c cs0 pc c' HP Hm. split.
        * by apply (move_placed _ _ _ _ _ _ _ Hm).
        * apply (move_change_progress_range _ _ _ _ _ _ _ Hm). by destruct HP.
      + apply same_but_flags_placed. }
  apply (Forall_impl _ _ _ Hall). by intros c [Hc _].
Qed.

(** ** The counters *)

Lemma autonomous_drive_stuck_timer (i : nat) (self : Car.t) (cars : list Car.t) (fc : Z) :
  let t := Car.stuck_timer (Car.autonomous_drive i self cars fc) in
  t = 0%Z \/ t = Car.stuck_timer self \/ t = (Car.stuck_timer self + 1)%Z.
Proof.
  intros t. subst t.
  destruct (autonomous_drive_decision i self cars fc);
    unfold abort, clear, brake, commit;
    destruct (adjust_speed_set self) as [v ->]; simpl;
    try destruct (300 <? Car.stuck_timer self + 1)%Z; simpl; auto.
Qed.

Lemma move_counters (i : nat) (c : Car.t) (cs : list Car.t) (fc : Z) (pc : Car.t)
      (d : Draw) (c' : Car.t) :
  Car.move i c cs (fc + 1) pc d = Some c' ->
  counters_ok fc c -> counters_ok (fc + 1) c'.
Proof.
  intros H [Hl Hs]. split.
  - destruct (move_stamp _ _ _ _ _ _ _ H) as [->|[-> _]]; lia.
  - apply move_inv in H as [[_ ->]|[(_ & _ & H)|(_ & _ & c1 & H1 & H)]].
    + lia.
    + apply steer_frame in H as (_ & _ & _ & _ & _ & _ & _ & ->).
      destruct (autonomous_drive_stuck_timer i c cs (fc + 1)) as [->|[->| ->]]; lia.
    + apply steer_frame in H as (_ & _ & _ & _ & _ & _ & _ & ->).
      apply drift_frame in H1 as (_ & _ & _ & _ & _ & _ & _ & _ & ->). lia.
Qed.

Lemma same_but_flags_counters (fc : Z) (c c' : Car.t) :
  same_but_flags c c' -> counters_ok fc c -> counters_ok fc c'.
Proof. by intros [->|[->| ->]]. Qed.

Lemma reset_counters (rnd : nat -> Draw) (s : Sim) :
  reset_simulation rnd = Some s ->
  frame_count s = 0%Z /\ Forall (counters_ok 0) (cars s).
Proof.
  intros H. apply reset_cars in H as (-> & _ & npcs & -> & _ & Hsp). split; [done|].
  constructor; [by vm_compute|].
  apply Forall_forall. intros c Hc. rewrite Forall_forall in Hsp.
  destruct (Hsp c Hc) as [k Hk].
  apply spawn_car in Hk as (l0 & x0 & y0 & _ & _ & ->). by vm_compute.
Qed.

Lemma reached_counters (oracle : nat -> nat -> Draw) (n : nat) (s : Sim) :
  run oracle n = Some s ->
  (0 <= frame_count s)%Z /\ Forall (counters_ok (frame_count s)) (cars s).
Proof.
  revert n s.
  apply (run_invariant (fun _ => True)
           (fun s => (0 <= frame_count s)%Z
                     /\ Forall (counters_ok (frame_count s)) (cars s)) oracle); [done| |].
  - intros rnd s0 _ H. apply reset_counters in H as [-> H]. split; [lia|done].
  - intros rnd s0 s1 _ [Hf Hc] H1.
    apply main_iter_inv in H1 as [(p & _ & _ & Hr)|(p & _ & _ & Ht & Hfc & _)].
    + apply reset_counters in Hr as [-> H]. split; [lia|done].
    + rewrite Hfc. split; [lia|].
      apply (tick_cars (counters_ok (frame_count s0))
                       (counters_ok (frame_count s0 + 1)) _ _ _ _) with (4 := Hc) in Ht;
        [done| |].
      * intros i c cs0 pc c' HP Hm. by apply (move_counters _ _ _ _ _ _ _ Hm).
      * apply same_but_flags_counters.
Qed.

(** ** Collisions *)

Lemma move_all_crash_free (fc : Z) (rnd : nat -> Draw) (cs cm : list Car.t) :
  move_all fc rnd cs = Some cm -> crash_free cs -> crash_free cm.
Proof.
  intros Hm Hall. unfold move_all in Hm.
  apply Forall_lookup. intros j c1 Hc1.
  assert (j < length cs)%nat as Hlt.
  { apply lookup_lt_Some in Hc1. by rewrite (moves_length _ _ _ _ _ _ Hm) in Hc1. }
  destruct (lookup_lt_is_Some_2 cs j Hlt) as [c Hc].
  destruct (moves_at fc rnd (length cs) 0 cs cm j c Hm) as (cs0 & pc & c2 & Hmv & Hc2);
    [lia|done|].
  assert (c2 = c1) as -> by congruence.
  rewrite (move_collided _ _ _ _ _ _ _ Hmv).
  unfold crash_free in Hall. rewrite Forall_lookup in Hall. by apply (Hall j).
Qed.

(** What a step makes of a list without collided cars. *)
Lemma tick_crash_state (fc : Z) (rnd : nat -> Draw) (cs cs' : list Car.t) :
  tick fc rnd cs = Some cs' -> crash_free cs ->
  crash_free cs' \/ exists h, crashed_with cs' h.
Proof.
  intros H Hall. apply tick_inv in H as (cm & pm & Hm & Hpm & ->).
  apply (move_all_crash_free _ _ _ _ Hm) in Hall.
  assert (Car.collided pm = false) as Hpc.
  { unfold crash_free in Hall. rewrite Forall_lookup in Hall. by apply (Hall player_index). }
  pose proof (check_collision_lookup player_index pm cm) as Hlk.
  unfold Car.update_sensors_and_check_collision in *. rewrite Hpc in *.
  destruct (Car.first_hit 0 player_index (Car.body_rect pm) cm) as [h|] eqn:Hh;
    [|by left].
  right. exists h.
  apply first_hit_Some in Hh as (j0 & -> & Hne & (c & Hc & Hov) & _). simpl in *.
  split; [done|]. exists (Car.crash pm), (Car.set_collided true c).
  split; [by rewrite (Hlk player_index Hpm), decide_True|].
  split; [by rewrite (Hlk j0 Hpm), decide_False, decide_True, Hc|].
  split; [done|]. split; [done|].
  intros j c'. rewrite (Hlk j Hpm).
  destruct (decide (j = player_index)) as [->|Hj0]; [intros [= <-]; split; [intros _; by left|done]|].
  destruct (decide (j = j0)) as [->|Hjh].
  - rewrite Hc. intros [= <-]. split; [intros _; by right|done].
  - intros Hj. unfold crash_free in Hall. rewrite Forall_lookup in Hall.
    rewrite (Hall j c' Hj). split; [done|]. intros [?|?]; done.
Qed.

Lemma reset_crash_free (rnd : nat -> Draw) (s : Sim) :
  reset_simulation rnd = Some s -> crash_free (cars s).
Proof.
  intros H. apply reset_cars in H as (_ & _ & npcs & -> & _ & Hsp).
  constructor; [done|].
  apply Forall_forall. intros c Hc. rewrite Forall_forall in Hsp.
  destruct (Hsp c Hc) as [k Hk].
  by apply spawn_car in Hk as (l0 & x0 & y0 & _ & _ & ->).
Qed.

Lemma reached_crash_state (oracle : nat -> nat -> Draw) (n : nat) (s : Sim) :
  run oracle n = Some s ->
  crash_free (cars s) \/ exists h, crashed_with (cars s) h.
Proof.
  revert n s.
  apply (run_invariant (fun _ => True)
           (fun s => crash_free (cars s) \/ exists h, crashed_with (cars s) h) oracle);
    [done| |].
  - intros rnd s0 _ H. left. by apply (reset_crash_free rnd).
  - intros rnd s0 s1 _ Hinv H1.
    apply main_iter_inv in H1 as [(p & _ & _ & Hr)|(p & Hp & Hpc & Ht & _)].
    + left. by apply (reset_crash_free rnd).
    + apply (tick_crash_state _ _ _ _ Ht).
      destruct Hinv as [Hfree|(h & _ & p0 & c0 & Hp0 & _ & _ & _ & Hmarks)]; [done|].
      assert (Car.collided p = true); [|congruence].
      apply (Hmarks player_index p Hp). by left.
Qed.

(** ** The car in front *)

(** X6.  [get_car_in_front] returns no car exactly when no non-player car is
    ahead in the lane, and then the distance is infinite; a car it returns
    is a nearest one ahead, at a positive distance, which is the distance
    returned. *)
Theorem get_car_in_front_nearest (i : nat) (self : Car.t) (cars : list Car.t) (l : nat) :
  let r := Car.get_car_in_front i self cars l in
  (fst r = None <-> forall c, visible i cars c -> ~ ahead_in self l c) /\
  (fst r = None -> snd r = PInf) /\
  (forall c, fst r = Some c ->
     nearest_ahead i self cars l c /\ snd r = Fin (Car.y self - Car.y c) /\
     Qc_of_Z 0 < Car.y self - Car.y c).
Proof.
  intros r. subst r.
  destruct (Car.get_car_in_front i self cars l) as [[c|] d] eqn:H; cbn [fst snd].
  - apply get_car_in_front_Some in H as [-> Hn]. split; [split; [done|]|].
    + intros Hnone. destruct Hn as (Hv & Ha & _). by destruct (Hnone c Hv).
    + split; [done|]. intros c0 [= <-]. split; [done|]. split; [done|].
      destruct Hn as (_ & [_ Hy] & _). qc2q. lra.
  - apply get_car_in_front_None in H as [-> Hn]. split; [done|]. split; [done|]. done.
Qed.

(** ** The speed controller *)

Lemma Qcabs_cases (x : Qc) :
  (Qc_of_Z 0 <= x /\ Qcabs x = x) \/ (x <= Qc_of_Z 0 /\ Qcabs x = - x).
Proof.
  destruct (Qclt_le_dec x (Qc_of_Z 0)) as [H|H].
  - right. apply Qclt_le_weak in H. split; [done|]. by apply Qcabs_neg.
  - left. split; [done|]. by apply Qcabs_pos.
Qed.

(** The three branches of the speed controller. *)
Lemma adjust_speed_cases (self : Car.t) :
  let s := Car.speed self in
  let t := Car.target_speed self in
  exists v, Car.adjust_speed self = Car.set_speed v self /\
    ((s + #0.05 < t /\ v = s + #0.02) \/
     (t + #0.05 < s /\ v = s - #0.1) \/
     (t - #0.05 <= s /\ s <= t + #0.05 /\ v = t)).
Proof.
  intros s t. subst s t. unfold Car.adjust_speed.
  destruct (Qcltb _ (Qcabs _)) eqn:Hgap.
  - apply Qcltb_true in Hgap.
    destruct (Qcltb (Car.speed self) (Car.target_speed self)) eqn:Hlt.
    + apply Qcltb_true in Hlt. eexists. split; [done|]. left. split; [|done].
      destruct (Qcabs_cases (Car.speed self - Car.target_speed self)) as [[H0 He]|[H0 He]];
        rewrite He in Hgap; qc2q; lra.
    + apply Qcltb_false in Hlt. eexists. split; [done|]. right. left. split.
      * destruct (Qcabs_cases (Car.speed self - Car.target_speed self))
          as [[H0 He]|[H0 He]]; rewrite He in Hgap; qc2q; lra.
      * apply Qc_is_canon. qc2q. ring.
  - apply Qcltb_false in Hgap. eexists. split; [done|]. right. right.
    apply Qcabs_Qcle_condition in Hgap as [H1 H2].
    split; [qc2q; lra|]. split; [qc2q; lra|done].
Qed.

Lemma Qc_of_Z_succ (z : Z) : Qc_of_Z (Z.succ z) = Qc_of_Z z + Qc_of_Z 1.
Proof.
  apply Qc_is_canon. unfold Qc_of_Z, Qcplus, Q2Qc. cbn [this].
  rewrite !Qred_correct. unfold Z.succ. by rewrite inject_Z_plus.
Qed.

Lemma Qc_of_Z_nonneg (z : Z) : (0 <= z)%Z -> Qc_of_Z 0 <= Qc_of_Z z.
Proof.
  intros H. unfold Qc_of_Z, Qcle, Q2Qc. cbn [this]. by rewrite <- Zle_Qle.
Qed.


Lemma adjust_speed_gap (k : Qc) (self : Car.t) :
  Qc_of_Z 0 <= k ->
  Qcabs (Car.speed self - Car.target_speed self) <= #0.05 + #0.02 * (k + Qc_of_Z 1) ->
  Qcabs (Car.speed (Car.adjust_speed self) - Car.target_speed self) <= #0.05 + #0.02 * k.
Proof.
  intros Hk Hgap. destruct (adjust_speed_cases self) as (v & -> & Hv).
  cbn [Car.speed Car.set_speed].
  set (s := Car.speed self) in *. set (t := Car.target_speed self) in *.
  apply Qcabs_Qcle_condition in Hgap as [Hg1 Hg2].
  apply Qcabs_Qcle_condition.
  destruct Hv as [[H ->]|[[H ->]|(H1 & H2 & ->)]]; qc2q; split; lra.
Qed.

Lemma adjust_speed_target_speed (self : Car.t) :
  Car.target_speed (Car.adjust_speed self) = Car.target_speed self.
Proof. destruct (adjust_speed_set self) as [v ->]. done. Qed.

(** In exact arithmetic a gap of at most [0.05 + 0.02 * k] is closed by
    [k + 1] calls. *)
Lemma adjust_speed_reaches (k : nat) (self : Car.t) :
  Qcabs (Car.speed self - Car.target_speed self)
    <= #0.05 + #0.02 * Qc_of_Z (Z.of_nat k) ->
  Car.speed (Nat.iter (S k) Car.adjust_speed self) = Car.target_speed self.
Proof.
  revert self. induction k as [|k IH]; intros self Hgap.
  - cbn [Nat.iter nat_rect]. destruct (adjust_speed_cases self) as (v & -> & Hv).
    cbn [Car.speed Car.set_speed].
    apply Qcabs_Qcle_condition in Hgap as [Hg1 Hg2].
    destruct Hv as [[H _]|[[H _]|(_ & _ & ->)]]; [| |done]; exfalso;
      change (Z.of_nat 0) with 0%Z in *; qc2q; lra.
  - rewrite Nat.iter_succ_r, IH; [apply adjust_speed_target_speed|].
    rewrite adjust_speed_target_speed. apply adjust_speed_gap.
    + apply Qc_of_Z_nonneg. lia.
    + by rewrite <- Qc_of_Z_succ, <- Nat2Z.inj_succ.
Qed.

(** A speed that is the target speed stays the target speed. *)
Lemma adjust_speed_keeps (n : nat) (self : Car.t) :
  Car.speed self = Car.target_speed self ->
  Car.speed (Nat.iter n Car.adjust_speed self) = Car.target_speed self /\
  Car.target_speed (Nat.iter n Car.adjust_speed self) = Car.target_speed self.
Proof.
  intros Heq. induction n as [|n [IH1 IH2]]; [done|].
  rewrite Nat.iter_succ, adjust_speed_target_speed. split; [|done].
  destruct (adjust_speed_cases (Nat.iter n Car.adjust_speed self)) as (v & -> & Hc).
  cbn [Car.speed Car.set_speed]. rewrite IH1, IH2 in Hc.
  destruct Hc as [[H _]|[[H _]|(_ & _ & ->)]]; [| |done]; exfalso; qc2q; lra.
Qed.

(** X8.  The speed controller settles.  For speeds in the range of the
    simulation, between 0 and [PLAYER_SPEED_MAX], and as long as the target
    speed is not rewritten, a gap of at most [0.05 + 0.02 * k] between speed
    and target speed is closed after [k + 2] calls, and stays closed: from
    then on the speed is the target speed.  (On the exact numbers of this
    model [k + 1] calls are enough; the statement leaves one call for the
    rounding of the additions of 0.02 and 0.1 in binary floating point,
    which the range keeps far below one step of the controller.) *)
Theorem adjust_speed_converges (k : nat) (self : Car.t) :
  Qc_of_Z 0 <= Car.speed self -> Car.speed self <= PLAYER_SPEED_MAX ->
  Qc_of_Z 0 <= Car.target_speed self -> Car.target_speed self <= PLAYER_SPEED_MAX ->
  Qcabs (Car.speed self - Car.target_speed self)
    <= #0.05 + #0.02 * Qc_of_Z (Z.of_nat k) ->
  forall n, (k + 2 <= n)%nat ->
    Car.speed (Nat.iter n Car.adjust_speed self) = Car.target_speed self /\
    Car.target_speed (Nat.iter n Car.adjust_speed self) = Car.target_speed self.
Proof.
  intros _ _ _ _ Hgap n Hn.
  replace n with ((n - S k) + S k)%nat by lia.
  rewrite Nat.iter_add.
  pose proof (adjust_speed_reaches k self Hgap) as Hreach.
  assert (Car.target_speed (Nat.iter (S k) Car.adjust_speed self)
          = Car.target_speed self) as Htarget.
  { clear. induction (S k) as [|m IH]; [done|].
    by rewrite Nat.iter_succ, adjust_speed_target_speed. }
  destruct (adjust_speed_keeps (n - S k) (Nat.iter (S k) Car.adjust_speed self))
    as [H1 H2]; [congruence|].
  rewrite H1, H2. done.
Qed.

Lemma adjust_speed_converges_witness :
  Car.speed (Nat.iter 50 Car.adjust_speed (Car.set_speed (#3.99) agent_A))
  = PLAYER_SPEED_MAX /\
  Car.target_speed (Nat.iter 50 Car.adjust_speed (Car.set_speed (#3.99) agent_A))
  = PLAYER_SPEED_MAX.
Proof.
  apply (adjust_speed_converges 48 (Car.set_speed (#3.99) agent_A));
    [by vm_compute|by vm_compute|by vm_compute|by vm_compute|by vm_compute|].
  simpl. lia.
Defined.

(** ** The range of the speeds *)

(** A property of the whole list that every single [move] keeps goes
    through the step. *)
Lemma moves_forall (R : Car.t -> Prop) (fc : Z) (rnd : nat -> Draw) (m k : nat)
      (cs cs' : list Car.t) :
  (forall i c cs0 pc c',
     Forall R cs0 -> cs0 !! i = Some c -> Car.move i c cs0 fc pc (rnd i) = Some c' -> R c') ->
  fold_left (move_at fc rnd) (seq k m) (Some cs) = Some cs' ->
  Forall R cs -> Forall R cs'.
Proof.
  intros Hmove. revert k cs. induction m as [|m IH]; intros k cs H Hall.
  - simpl in H. by injection H as <-.
  - apply moves_step in H as (cs1 & H1 & H).
    apply move_at_Some in H1 as (car & pc & car' & Hk & _ & Hm & ->).
    apply (IH (S k) _ H). apply Forall_insert; [done|].
    by apply (Hmove k car cs pc car').
Qed.

Lemma tick_forall (R : Car.t -> Prop) (fc : Z) (rnd : nat -> Draw) (cs cs' : list Car.t) :
  (forall i c cs0 pc c',
     Forall R cs0 -> cs0 !! i = Some c -> Car.move i c cs0 fc pc (rnd i) = Some c' -> R c') ->
  (forall c c', same_but_flags c c' -> R c -> R c') ->
  tick fc rnd cs = Some cs' -> Forall R cs -> Forall R cs'.
Proof.
  intros Hmove Hflags H Hall. apply tick_inv in H as (cm & pm & Hm & Hpm & ->).
  unfold move_all in Hm. apply (moves_forall R _ _ _ _ _ _ Hmove Hm) in Hall.
  apply Forall_lookup. intros j c' Hj.
  destruct (check_collision_inv player_index pm cm j c' Hpm Hj) as (c1 & Hc1 & Hfl).
  apply (Hflags c1 c' Hfl). rewrite Forall_lookup in Hall. by apply (Hall j).
Qed.

Lemma uniform_range (a b u : Qc) :
  a <= b -> Qc_of_Z 0 <= u -> u <= Qc_of_Z 1 ->
  a <= uniform a b u /\ uniform a b u <= b.
Proof.
  intros Hab H0 H1. unfold uniform. qc2q. split; nra.
Qed.

Lemma NPC_SPEED_range : NPC_SPEED_MIN <= NPC_SPEED_MAX.
Proof. by vm_compute. Qed.

(** The field [speed] and [target_speed] after the decision engine. *)
Lemma autonomous_drive_speeds (i : nat) (self : Car.t) (cars : list Car.t) (fc : Z) :
  let self' := Car.autonomous_drive i self cars fc in
  Car.speed self' = Car.speed (Car.adjust_speed self) /\
  (Car.target_speed self' = Car.target_speed self \/
   Car.target_speed self' = PLAYER_SPEED_MAX \/
   exists front, visible i cars front /\
     (Car.target_speed self' = Car.speed front - #1.0 \/
      Car.target_speed self' = Car.speed front - #0.1)).
Proof.
  intros self'. subst self'.
  destruct (autonomous_drive_decision i self cars fc) as [? ?|? ?|? ?|front Hb ?|? ? ? ? ? ?].
  - unfold abort. cbn. split; [done|]. left. apply adjust_speed_target_speed.
  - split; [done|]. left. apply adjust_speed_target_speed.
  - unfold clear. cbn. split; [done|]. by right; left.
  - unfold brake. destruct Hb as (_ & d & Hfront & _).
    apply get_car_in_front_Some in Hfront as (_ & Hvis & _).
    destruct (300 <? _)%Z; cbn; (split; [done|]); right; right; exists front;
      (split; [done|]); [by left|by right].
  - unfold commit. cbn. split; [done|]. by right; left.
Qed.

Lemma move_speeds (i : nat) (c : Car.t) (cs : list Car.t) (fc : Z) (pc : Car.t)
      (d : Draw) (c' : Car.t) :
  Qc_of_Z 0 <= draw_unit d -> draw_unit d <= Qc_of_Z 1 ->
  Forall speeds_ok cs -> speeds_ok c ->
  Car.move i c cs fc pc d = Some c' -> speeds_ok c'.
Proof.
  intros Hu0 Hu1 Hall Hc H.
  pose proof (move_is_player _ _ _ _ _ _ _ H) as Hip.
  apply move_inv in H as [[_ ->]|[(_ & Hp & H)|(_ & Hp & c1 & H1 & H)]]; [done| |].
  - apply steer_frame in H as (_ & Hs & _ & Ht & _).
    unfold speeds_ok in *. rewrite Hip, Hp in *. rewrite Hs, Ht. clear Hs Ht.
    destruct (autonomous_drive_speeds i c cs fc) as [-> Ht].
    destruct Hc as [[Hs1 Hs2] [Ht1 Ht2]].
    assert (#2.0 <= Car.target_speed (Car.autonomous_drive i c cs fc) /\
            Car.target_speed (Car.autonomous_drive i c cs fc) <= PLAYER_SPEED_MAX) as Ht'.
    { destruct Ht as [->|[->|(front & (j & Hj & _ & Hnp) & Hf)]]; [done|by vm_compute|].
      rewrite Forall_lookup in Hall. specialize (Hall j front Hj). rewrite Hnp in Hall.
      unfold NPC_SPEED_MIN, NPC_SPEED_MAX, PLAYER_SPEED_MAX in *.
      destruct Hall as [Hf1 Hf2]. destruct Hf as [-> | ->]; qc2q; split; lra. }
    split; [|done].
    destruct (adjust_speed_cases c) as (v & -> & Hv). cbn [Car.speed Car.set_speed].
    unfold PLAYER_SPEED_MAX in *.
    destruct Hv as [[Hv ->]|[[Hv ->]|(Hv1 & Hv2 & ->)]]; qc2q; split; lra.
  - apply steer_frame in H as (_ & Hs & _).
    unfold speeds_ok in *. rewrite Hip, Hp in *. rewrite Hs.
    apply drift_cases in H1 as [(_ & _ & _ & _ & ->)|(_ & _ & _ & _ & _ & ->)]; [done|].
    apply uniform_range; [apply NPC_SPEED_range|done|done].
Qed.

Lemma same_but_flags_speeds (c c' : Car.t) :
  same_but_flags c c' -> speeds_ok c -> speeds_ok c'.
Proof. by intros [->|[->| ->]]. Qed.

Lemma reset_speeds (rnd : nat -> Draw) (s : Sim) :
  unit_draws rnd -> reset_simulation rnd = Some s -> Forall speeds_ok (cars s).
Proof.
  intros Hu H. apply reset_cars in H as (_ & _ & npcs & -> & _ & Hsp).
  constructor; [by vm_compute|].
  apply Forall_forall. intros c Hc. rewrite Forall_forall in Hsp.
  destruct (Hsp c Hc) as [k Hk].
  apply spawn_car in Hk as (l0 & x0 & y0 & _ & _ & ->).
  unfold speeds_ok. cbn [Car.is_player Car.speed Car.init].
  destruct (Hu k). apply uniform_range; [apply NPC_SPEED_range|done|done].
Qed.

Lemma reached_speeds (oracle : nat -> nat -> Draw) (n : nat) (s : Sim) :
  (forall k, unit_draws (oracle k)) ->
  run oracle n = Some s -> Forall speeds_ok (cars s).
Proof.
  intros Hu. revert n s.
  apply (run_invariant unit_draws (fun s => Forall speeds_ok (cars s)) oracle); [done| |].
  - intros rnd s0 Hr. by apply reset_speeds.
  - intros rnd s0 s1 Hr Hinv H1.
    apply main_iter_inv in H1 as [(p & _ & _ & H)|(p & _ & _ & Ht & _)];
      [by apply (reset_speeds rnd)|].
    apply (tick_forall speeds_ok _ _ _ _) with (3 := Ht); [| |done].
    + intros i c cs0 pc c' Hall Hi Hm. destruct (Hr i).
      apply (move_speeds _ _ _ _ _ _ _ H H0 Hall) with (2 := Hm).
      rewrite Forall_lookup in Hall. by apply (Hall i).
    + apply same_but_flags_speeds.
Qed.

(** ** The odometer *)

Lemma main_iter_odometer (rnd : nat -> Draw) (s s' : Sim) :
  (0 <= frame_count s)%Z -> one_player (cars s) -> Forall speeds_ok (cars s) ->
  odometer_ok s -> main_iter rnd s = Some s' -> odometer_ok s'.
Proof.
  intros Hfc (p0 & npcs & Hcs & Hp0 & _) Hsp [Hd1 Hd2] H.
  apply main_iter_inv in H as [(p & _ & _ & Hr)|(p & Hp & _ & _ & Hfc' & Hd')].
  - apply reset_cars in Hr as (Hf & Hd & _). unfold odometer_ok. rewrite Hf, Hd.
    by vm_compute.
  - rewrite Hcs in Hp, Hsp. injection Hp as <-.
    apply Forall_cons in Hsp as [Hsp _]. unfold speeds_ok in Hsp. rewrite Hp0 in Hsp.
    destruct Hsp as [[Hs1 Hs2] _].
    unfold odometer_ok. rewrite Hfc', Hd'.
    change (frame_count s + 1)%Z with (Z.succ (frame_count s)). rewrite Qc_of_Z_succ.
    pose proof (Qc_of_Z_nonneg _ Hfc) as Hk. revert Hk Hd1 Hd2.
    generalize (Qc_of_Z (frame_count s)) as k. generalize (distance s) as d.
    intros d k Hk Hd1 Hd2. unfold PLAYER_SPEED_MAX in *. qc2q. split; lra.
Qed.

Lemma reached_odometer (oracle : nat -> nat -> Draw) (n : nat) (s : Sim) :
  (forall k, unit_draws (oracle k)) ->
  run oracle n = Some s -> odometer_ok s.
Proof.
  intros Hu H.
  assert ((0 <= frame_count s)%Z /\ one_player (cars s) /\ Forall speeds_ok (cars s)
          /\ odometer_ok s) as (_ & _ & _ & Hod); [|done].
  revert n s H.
  apply (run_invariant unit_draws
           (fun s => (0 <= frame_count s)%Z /\ one_player (cars s)
                     /\ Forall speeds_ok (cars s) /\ odometer_ok s) (fun k => oracle k));
    [done| |].
  - intros rnd s0 Hr H0.
    pose proof (reached_one_player (fun _ => rnd) 0 s0) as H1.
    pose proof (reached_counters (fun _ => rnd) 0 s0) as H2.
    unfold run in H1, H2. rewrite H0 in H1, H2. cbn in H1, H2.
    split; [by apply H2|]. split; [by apply H1|].
    split; [by apply (reset_speeds rnd)|].
    apply reset_cars in H0 as (Hf & Hd & _). unfold odometer_ok. rewrite Hf, Hd.
    by vm_compute.
  - intros rnd s0 s1 Hr (Hfc & H1p & Hsp & Hod) H1.
    split; [|split; [|split]].
    + apply main_iter_inv in H1 as [(p & _ & _ & H)|(p & _ & _ & _ & -> & _)]; [|lia].
      apply reset_cars in H as (-> & _). lia.
    + apply main_iter_inv in H1 as [(p & _ & _ & H)|(p & _ & _ & Ht & _)].
      * pose proof (reached_one_player (fun _ => rnd) 0 s1) as H1.
        unfold run in H1. rewrite H in H1. by apply H1.
      * by apply (tick_one_player _ _ _ _ Ht).
    + apply main_iter_inv in H1 as [(p & _ & _ & H)|(p & _ & _ & Ht & _)];
        [by apply (reset_speeds rnd)|].
      apply (tick_forall speeds_ok _ _ _ _) with (3 := Ht); [| |done].
      * intros i c cs0 pc c' Hall Hi Hm. destruct (Hr i).
        apply (move_speeds _ _ _ _ _ _ _ H H0 Hall) with (2 := Hm).
        rewrite Forall_lookup in Hall. by apply (Hall i).
      * apply same_but_flags_speeds.
    + by apply (main_iter_odometer rnd s0 s1).
Qed.

(** ** Lane changes *)

Lemma same_but_flags_change_ok (c c' : Car.t) :
  same_but_flags c c' -> change_ok c -> change_ok c'.
Proof. by intros [->|[->| ->]]. Qed.

Lemma autonomous_drive_change_ok (i : nat) (self : Car.t) (cars : list Car.t) (fc : Z) :
  Car.is_player self = true -> change_ok self ->
  change_ok (Car.autonomous_drive i self cars fc).
Proof.
  intros Hp Hok.
  destruct (autonomous_drive_decision i self cars fc)
    as [? ?|Hch ?|Hch ?|front Hb ?|front best ? ? Hadj ?].
  - unfold abort. by intros Hc.
  - destruct (adjust_speed_set self) as [v ->]. intros _. by apply Hok.
  - unfold clear. destruct (adjust_speed_set self) as [v ->]. intros Hc. cbn in Hc.
    congruence.
  - destruct Hb as [Hch _]. unfold brake. destruct (adjust_speed_set self) as [v ->].
    intros Hc. destruct (300 <? _)%Z; cbn in Hc; congruence.
  - unfold commit. destruct (adjust_speed_set self) as [v ->]. intros _.
    split; [done|]. exact Hadj.
Qed.

Lemma steer_change_ok (fc : Z) (s s' : Car.t) :
  Car.steer fc s = Some s' -> change_ok s -> change_ok s'.
Proof.
  intros H Hok. destruct (steer_steered fc s s' H) as [v Hch|v Hch _|v Hch _].
  - intros Hc. cbn in Hc. congruence.
  - intros _. by apply Hok.
  - by intros Hc.
Qed.

Lemma move_change_ok (i : nat) (c : Car.t) (cs : list Car.t) (fc : Z) (pc : Car.t)
      (d : Draw) (c' : Car.t) :
  Car.move i c cs fc pc d = Some c' -> change_ok c -> change_ok c'.
Proof.
  intros H Hok. apply move_inv in H as [[_ ->]|[(_ & Hp & H)|(_ & Hp & c1 & H1 & H)]].
  - done.
  - apply (steer_change_ok _ _ _ H). by apply autonomous_drive_change_ok.
  - apply (steer_change_ok _ _ _ H).
    apply drift_frame in H1 as (_ & _ & Hch & _).
    intros Hc. rewrite Hch in Hc. destruct (Hok Hc) as [Hpl _]. congruence.
Qed.

Lemma reset_change_ok (rnd : nat -> Draw) (s : Sim) :
  reset_simulation rnd = Some s -> Forall change_ok (cars s).
Proof.
  intros H. apply reset_cars in H as (_ & _ & npcs & -> & _ & Hsp).
  constructor; [done|].
  apply Forall_forall. intros c Hc. rewrite Forall_forall in Hsp.
  destruct (Hsp c Hc) as [k Hk].
  by apply spawn_car in Hk as (l0 & x0 & y0 & _ & _ & ->).
Qed.

Lemma reached_change_ok (oracle : nat -> nat -> Draw) (n : nat) (s : Sim) :
  run oracle n = Some s -> Forall change_ok (cars s).
Proof.
  revert n s.
  apply (run_invariant (fun _ => True) (fun s => Forall change_ok (cars s)) oracle);
    [done| |].
  - intros rnd s0 _. apply reset_change_ok.
  - intros rnd s0 s1 _ H0 H1.
    apply main_iter_inv in H1 as [(p & _ & _ & Hr)|(p & _ & _ & Ht & _)];
      [by apply (reset_change_ok rnd)|].
    apply (tick_cars change_ok change_ok _ _ _ _) with (4 := H0) in Ht; [done| |].
    + intros i c cs0 pc c' HP Hm. by apply (move_change_ok _ _ _ _ _ _ _ Hm).
    + apply same_but_flags_change_ok.
Qed.

(** ** The course of a lane change *)

Lemma Qc_of_Z_le (a b : Z) : (a <= b)%Z -> Qc_of_Z a <= Qc_of_Z b.
Proof.
  intros H. unfold Qc_of_Z, Qcle, Q2Qc. cbn [this]. by rewrite <- Zle_Qle.
Qed.

Lemma steers_snoc (fc : Z) (k : nat) (s : Car.t) :
  steers fc (S k) s = (s' ← steers fc k s; Car.steer (fc + Z.of_nat k) s').
Proof.
  revert fc s. induction k as [|k IH]; intros fc s.
  - cbn [steers]. change (Z.of_nat 0) with 0%Z. rewrite Z.add_0_r.
    cbn [mbind option_bind]. by destruct (Car.steer fc s).
  - change (steers fc (S (S k)) s) with (s' ← Car.steer fc s; steers (fc + 1) (S k) s').
    change (steers fc (S k) s) with (s' ← Car.steer fc s; steers (fc + 1) k s').
    destruct (Car.steer fc s) as [s1|]; cbn [mbind option_bind]; [|done].
    rewrite IH. by replace (fc + 1 + Z.of_nat k)%Z with (fc + Z.of_nat (S k))%Z by lia.
Qed.

(** A frame of a lane change that does not end it. *)
Lemma steer_advances (fc : Z) (s : Car.t) (sx ex : Qc) :
  Car.changing_lane s = true ->
  Car.lane_center (Car.lane s) = Some sx ->
  Car.lane_center (Car.target_lane s) = Some ex ->
  Car.change_progress s + #0.05 < #1.0 ->
  Car.steer fc s =
  Some (Car.set_x (sx + (ex - sx) * (Car.change_progress s + #0.05))
          (Car.set_change_progress (Car.change_progress s + #0.05) s)).
Proof.
  intros Hch Hsx Hex Hp. unfold Car.steer. rewrite Hch. cbn.
  rewrite Hsx. cbn. rewrite Hex. cbn.
  apply Qcleb_false in Hp. by rewrite Hp.
Qed.

(** The frame that ends a lane change. *)
Lemma steer_arrives (fc : Z) (s : Car.t) (sx ex : Qc) :
  Car.changing_lane s = true ->
  Car.lane_center (Car.lane s) = Some sx ->
  Car.lane_center (Car.target_lane s) = Some ex ->
  #1.0 <= Car.change_progress s + #0.05 ->
  exists s', Car.steer fc s = Some s' /\
    Car.changing_lane s' = false /\ Car.lane s' = Car.target_lane s /\
    Car.target_lane s' = Car.target_lane s /\ Car.x s' = ex /\
    Car.change_progress s' = #0.0 /\ Car.last_lane_change_time s' = fc.
Proof.
  intros Hch Hsx Hex Hp. unfold Car.steer. rewrite Hch. cbn.
  rewrite Hsx. cbn. rewrite Hex. cbn.
  apply Qcleb_true in Hp. rewrite Hp. cbn.
  eexists. split; [done|]. done.
Qed.

Lemma steers_advance (sx ex : Qc) (k j : nat) (fc : Z) (s : Car.t) :
  Car.changing_lane s = true ->
  Car.change_progress s = #0.05 * Qc_of_Z (Z.of_nat j) ->
  (j + k < 20)%nat ->
  Car.lane_center (Car.lane s) = Some sx ->
  Car.lane_center (Car.target_lane s) = Some ex ->
  exists s', steers fc k s = Some s' /\
    Car.changing_lane s' = true /\ Car.lane s' = Car.lane s /\
    Car.target_lane s' = Car.target_lane s /\
    Car.last_lane_change_time s' = Car.last_lane_change_time s /\
    Car.change_progress s' = #0.05 * Qc_of_Z (Z.of_nat (j + k)) /\
    (k <> 0%nat -> Car.x s' = sx + (ex - sx) * Car.change_progress s').
Proof.
  revert j fc s. induction k as [|k IH]; intros j fc s Hch Hp Hjk Hsx Hex.
  - exists s. rewrite Nat.add_0_r. by repeat split.
  - assert (Car.change_progress s + #0.05 = #0.05 * Qc_of_Z (Z.of_nat (S j))) as Hp1.
    { rewrite Hp, Nat2Z.inj_succ, Qc_of_Z_succ. apply Qc_is_canon. qc2q. ring. }
    assert (Car.change_progress s + #0.05 < #1.0) as Hlt.
    { rewrite Hp1. pose proof (Qc_of_Z_le (Z.of_nat (S j)) 19 ltac:(lia)) as Hle.
      revert Hle. generalize (Qc_of_Z (Z.of_nat (S j))) as q. intros q Hle.
      qc2q. lra. }
    cbn [steers]. rewrite (steer_advances fc s sx ex Hch Hsx Hex Hlt).
    cbn [mbind option_bind].
    destruct (IH (S j) (fc + 1)%Z
                (Car.set_x (sx + (ex - sx) * (Car.change_progress s + #0.05))
                   (Car.set_change_progress (Car.change_progress s + #0.05) s)))
      as (s' & Hs' & Hch' & Hl' & Ht' & Hll' & Hp' & Hx'); [done|done|lia|done|done|].
    exists s'. split; [done|]. split; [done|]. split; [done|]. split; [done|].
    split; [done|]. split; [by rewrite Hp', Nat.add_succ_r|].
    intros _. destruct k as [|k]; [|by apply Hx'].
    cbn [steers] in Hs'. by injection Hs' as <-.
Qed.

(** X13.  A lane change that nothing interrupts takes 20 frames.  If the
    last block of [move] runs on a car that starts a lane change, frame
    after frame, then after each of the first 19 frames the car is still
    changing lane, still counted in its old lane and heading for the same
    target, its progress is strictly between 0 and 1, it is between the two
    lane centres, and [last_lane_change_time] has not been written; the
    twentieth frame puts it on the centre of the target lane, makes that its
    lane, resets the progress to 0.0 and stamps the frame count.  (On the
    exact numbers of this model the progress after [k] frames is [0.05 * k]
    and the position is on the straight line; in binary floating point
    both are off in the last digits, and the sum of 0.05 also reaches 1.0
    at the twentieth addition.) *)
Theorem lane_change_takes_20_frames (fc : Z) (s : Car.t) (sx ex : Qc) :
  Car.changing_lane s = true ->
  Car.change_progress s = #0.0 ->
  Car.lane_center (Car.lane s) = Some sx ->
  Car.lane_center (Car.target_lane s) = Some ex ->
  (forall k, (0 < k < 20)%nat ->
     exists s', steers fc k s = Some s' /\
       Car.changing_lane s' = true /\ Car.lane s' = Car.lane s /\
       Car.target_lane s' = Car.target_lane s /\
       Car.last_lane_change_time s' = Car.last_lane_change_time s /\
       (#0.0 < Car.change_progress s' /\ Car.change_progress s' < #1.0) /\
       ((sx <= Car.x s' /\ Car.x s' <= ex) \/ (ex <= Car.x s' /\ Car.x s' <= sx))) /\
  exists s', steers fc 20 s = Some s' /\
    Car.changing_lane s' = false /\ Car.lane s' = Car.target_lane s /\
    Car.x s' = ex /\ Car.change_progress s' = #0.0 /\
    Car.last_lane_change_time s' = (fc + 19)%Z.
Proof.
  intros Hch Hp Hsx Hex.
  assert (Car.change_progress s = #0.05 * Qc_of_Z (Z.of_nat 0)) as Hp0.
  { rewrite Hp. apply Qc_is_canon. by vm_compute. }
  split.
  - intros k Hk.
    destruct (steers_advance sx ex k 0 fc s Hch Hp0 ltac:(lia) Hsx Hex)
      as (s' & Hs' & Hch' & Hl' & Ht' & Hll' & Hp' & Hx').
    cbn [Nat.add] in Hp'.
    exists s'. split; [done|]. split; [done|]. split; [done|]. split; [done|].
    split; [done|].
    rewrite (Hx' ltac:(lia)), Hp'.
    pose proof (Qc_of_Z_le 1 (Z.of_nat k) ltac:(lia)) as Hk1.
    pose proof (Qc_of_Z_le (Z.of_nat k) 19 ltac:(lia)) as Hk2.
    revert Hk1 Hk2. generalize (Qc_of_Z (Z.of_nat k)) as q. intros q Hk1 Hk2.
    split; [qc2q; split; lra|].
    destruct (Qclt_le_dec ex sx) as [Hlt|Hle]; [right|left]; qc2q; split; nra.
  - destruct (steers_advance sx ex 19 0 fc s Hch Hp0 ltac:(lia) Hsx Hex)
      as (s1 & Hs1 & Hch1 & Hl1 & Ht1 & _ & Hp1 & _).
    cbn [Nat.add] in Hp1. rewrite steers_snoc, Hs1. cbn [mbind option_bind].
    rewrite <- Hl1 in Hsx. rewrite <- Ht1 in Hex.
    destruct (steer_arrives (fc + Z.of_nat 19) s1 sx ex Hch1 Hsx Hex)
      as (s' & Hs' & Hch' & Hl' & _ & Hx' & Hp' & Hst').
    { rewrite Hp1. apply Qcleb_true. by vm_compute. }
    exists s'. split; [done|]. split; [done|]. split; [congruence|].
    split; [done|]. split; [done|]. rewrite Hst'. lia.
Qed.

Lemma lane_change_takes_20_frames_witness :
  (forall k, (0 < k < 20)%nat ->
     exists s', steers 1 k changer = Some s' /\
       Car.changing_lane s' = true /\ Car.lane s' = 1%nat /\
       Car.target_lane s' = 2%nat /\
       Car.last_lane_change_time s' = 0%Z /\
       (#0.0 < Car.change_progress s' /\ Car.change_progress s' < #1.0) /\
       ((Qc_of_Z 500 <= Car.x s' /\ Car.x s' <= Qc_of_Z 650)
        \/ (Qc_of_Z 650 <= Car.x s' /\ Car.x s' <= Qc_of_Z 500))) /\
  exists s', steers 1 20 changer = Some s' /\
    Car.changing_lane s' = false /\ Car.lane s' = 2%nat /\
    Car.x s' = Qc_of_Z 650 /\ Car.change_progress s' = #0.0 /\
    Car.last_lane_change_time s' = 20%Z.
Proof.
  apply (lane_change_takes_20_frames 1 changer (Qc_of_Z 500) (Qc_of_Z 650));
    reflexivity.
Defined.

(** ** Back to the lane centre *)






(** ** The geometry of a collision *)

(** The C cast moves a float by less than 1. *)
Lemma to_int_bounds (q : Qc) :
  Qc_of_Z (Pygame.to_int q) - Qc_of_Z 1 < q /\ q < Qc_of_Z (Pygame.to_int q) + Qc_of_Z 1.
Proof.
  unfold Pygame.to_int. destruct q as [[a b] Hq]. cbn [this Qnum Qden].
  pose proof (Z.quot_rem' a (Z.pos b)) as Hqr.
  pose proof (Z.rem_bound_abs a (Z.pos b) ltac:(lia)) as Hr.
  unfold Qclt, Qcminus, Qcplus, Qcopp, Qc_of_Z, Q2Qc. cbn [this].
  rewrite !Qred_correct. unfold Qlt, Qplus, Qopp, inject_Z. cbn [Qnum Qden].
  split; nia.
Qed.

Lemma Qc_of_Z_plus (a b : Z) : Qc_of_Z (a + b) = Qc_of_Z a + Qc_of_Z b.
Proof.
  apply Qc_is_canon. unfold Qc_of_Z, Qcplus, Q2Qc. cbn [this].
  rewrite !Qred_correct. by rewrite inject_Z_plus.
Qed.

Lemma Qc_of_Z_lt (a b : Z) : (a < b)%Z <-> Qc_of_Z a < Qc_of_Z b.
Proof. unfold Qc_of_Z, Qclt, Q2Qc. cbn [this]. by rewrite <- Zlt_Qlt. Qed.

(** The rectangle of a car, 30 by 50, and the test on two of them. *)
Lemma body_rect_collide (a b : Car.t) :
  let la := Pygame.to_int (Car.x a - Qc_of_Z 15) in
  let lb := Pygame.to_int (Car.x b - Qc_of_Z 15) in
  let ta := Pygame.to_int (Car.y a - Qc_of_Z 25) in
  let tb := Pygame.to_int (Car.y b - Qc_of_Z 25) in
  Pygame.colliderect (Car.body_rect a) (Car.body_rect b) = true <->
  (la < lb + 30 /\ lb < la + 30 /\ ta < tb + 50 /\ tb < ta + 50)%Z.
Proof.
  intros la lb ta tb. unfold Car.body_rect, Pygame.rect, Pygame.colliderect.
  cbn [Pygame.left Pygame.top Pygame.width Pygame.height].
  replace (Qc_of_Z CAR_WIDTH / #2) with (Qc_of_Z 15)
    by (apply Qc_is_canon; by vm_compute).
  replace (Qc_of_Z CAR_HEIGHT / #2) with (Qc_of_Z 25)
    by (apply Qc_is_canon; by vm_compute).
  change (Pygame.to_int (Qc_of_Z CAR_WIDTH)) with 30%Z.
  change (Pygame.to_int (Qc_of_Z CAR_HEIGHT)) with 50%Z.
  fold la lb ta tb. cbn [Z.eqb orb].
  rewrite !andb_true_iff, !Z.ltb_lt. lia.
Qed.

Lemma overlaps_near (a b : Car.t) :
  overlaps a b ->
  Qcabs (Car.x a - Car.x b) < Qc_of_Z 31 /\ Qcabs (Car.y a - Car.y b) < Qc_of_Z 51.
Proof.
  unfold overlaps. rewrite body_rect_collide.
  destruct (to_int_bounds (Car.x a - Qc_of_Z 15)) as [Hla1 Hla2].
  destruct (to_int_bounds (Car.x b - Qc_of_Z 15)) as [Hlb1 Hlb2].
  destruct (to_int_bounds (Car.y a - Qc_of_Z 25)) as [Hta1 Hta2].
  destruct (to_int_bounds (Car.y b - Qc_of_Z 25)) as [Htb1 Htb2].
  revert Hla1 Hla2 Hlb1 Hlb2 Hta1 Hta2 Htb1 Htb2.
  generalize (Pygame.to_int (Car.x a - Qc_of_Z 15)) as la.
  generalize (Pygame.to_int (Car.x b - Qc_of_Z 15)) as lb.
  generalize (Pygame.to_int (Car.y a - Qc_of_Z 25)) as ta.
  generalize (Pygame.to_int (Car.y b - Qc_of_Z 25)) as tb.
  intros tb ta lb la Hla1 Hla2 Hlb1 Hlb2 Hta1 Hta2 Htb1 Htb2 (H1 & H2 & H3 & H4).
  replace (lb + 30)%Z with (Z.succ (lb + 29)) in H1 by lia.
  replace (la + 30)%Z with (Z.succ (la + 29)) in H2 by lia.
  replace (tb + 50)%Z with (Z.succ (tb + 49)) in H3 by lia.
  replace (ta + 50)%Z with (Z.succ (ta + 49)) in H4 by lia.
  apply Zlt_succ_le, Qc_of_Z_le in H1, H2, H3, H4.
  rewrite Qc_of_Z_plus in H1, H2, H3, H4.
  revert Hla1 Hla2 Hlb1 Hlb2 Hta1 Hta2 Htb1 Htb2 H1 H2 H3 H4.
  generalize (Qc_of_Z la) as qla. generalize (Qc_of_Z lb) as qlb.
  generalize (Qc_of_Z ta) as qta. generalize (Qc_of_Z tb) as qtb.
  intros qtb qta qlb qla Hla1 Hla2 Hlb1 Hlb2 Hta1 Hta2 Htb1 Htb2 H1 H2 H3 H4.
  split.
  - destruct (Qcabs_cases (Car.x a - Car.x b)) as [[H0 ->]|[H0 ->]]; qc2q; lra.
  - destruct (Qcabs_cases (Car.y a - Car.y b)) as [[H0 ->]|[H0 ->]]; qc2q; lra.
Qed.

(** X15.  When the collision check fires, for cars whose coordinates are
    at most 10^9 in size, far inside the range of the C [int] a
    [pygame.Rect] stores.  The rectangles are built on coordinates
    truncated to integers, so the test is not the one on the floats: two
    cars whose rectangles collide are less than 31 apart sideways and less
    than 51 lengthways, and two cars at most 28 apart sideways and 48
    lengthways do collide.  In between the truncation decides. *)
Theorem collision_geometry (a b : Car.t) :
  in_int_range a -> in_int_range b ->
  (overlaps a b ->
   Qcabs (Car.x a - Car.x b) < Qc_of_Z 31 /\ Qcabs (Car.y a - Car.y b) < Qc_of_Z 51) /\
  (Qcabs (Car.x a - Car.x b) <= Qc_of_Z 28 -> Qcabs (Car.y a - Car.y b) <= Qc_of_Z 48 ->
   overlaps a b).
Proof.
  intros _ _. split; [apply overlaps_near|].
  unfold overlaps. rewrite body_rect_collide.
  destruct (to_int_bounds (Car.x a - Qc_of_Z 15)) as [Hla1 Hla2].
  destruct (to_int_bounds (Car.x b - Qc_of_Z 15)) as [Hlb1 Hlb2].
  destruct (to_int_bounds (Car.y a - Qc_of_Z 25)) as [Hta1 Hta2].
  destruct (to_int_bounds (Car.y b - Qc_of_Z 25)) as [Htb1 Htb2].
  revert Hla1 Hla2 Hlb1 Hlb2 Hta1 Hta2 Htb1 Htb2.
  generalize (Pygame.to_int (Car.x a - Qc_of_Z 15)) as la.
  generalize (Pygame.to_int (Car.x b - Qc_of_Z 15)) as lb.
  generalize (Pygame.to_int (Car.y a - Qc_of_Z 25)) as ta.
  generalize (Pygame.to_int (Car.y b - Qc_of_Z 25)) as tb.
  intros tb ta lb la Hla1 Hla2 Hlb1 Hlb2 Hta1 Hta2 Htb1 Htb2 Hx Hy.
  apply Qcabs_Qcle_condition in Hx as [Hx1 Hx2].
  apply Qcabs_Qcle_condition in Hy as [Hy1 Hy2].
  rewrite !Qc_of_Z_lt, !Qc_of_Z_plus.
  revert Hla1 Hla2 Hlb1 Hlb2 Hta1 Hta2 Htb1 Htb2.
  generalize (Qc_of_Z la) as qla. generalize (Qc_of_Z lb) as qlb.
  generalize (Qc_of_Z ta) as qta. generalize (Qc_of_Z tb) as qtb.
  intros qtb qta qlb qla Hla1 Hla2 Hlb1 Hlb2 Hta1 Hta2 Htb1 Htb2.
  qc2q. repeat split; lra.
Qed.

Lemma collision_geometry_witness :
  (overlaps agent_A npc_C1 ->
   Qcabs (Car.x agent_A - Car.x npc_C1) < Qc_of_Z 31
   /\ Qcabs (Car.y agent_A - Car.y npc_C1) < Qc_of_Z 51) /\
  (Qcabs (Car.x agent_A - Car.x npc_C1) <= Qc_of_Z 28 ->
   Qcabs (Car.y agent_A - Car.y npc_C1) <= Qc_of_Z 48 ->
   overlaps agent_A npc_C1).
Proof.
  apply (collision_geometry agent_A npc_C1); by vm_compute.
Defined.

(** ** The first frames of an episode *)

(** In the pass of [move] over the list every car is moved once, in a
    list that satisfies what every [move] keeps. *)
Lemma moves_at_ctx (R : Car.t -> Prop) (fc : Z) (rnd : nat -> Draw) (m k : nat)
      (cs cs' : list Car.t) (j : nat) (c : Car.t) :
  (forall i c cs0 pc c',
     Forall R cs0 -> cs0 !! i = Some c -> Car.move i c cs0 fc pc (rnd i) = Some c' -> R c') ->
  fold_left (move_at fc rnd) (seq k m) (Some cs) = Some cs' ->
  Forall R cs -> (k <= j < k + m)%nat -> cs !! j = Some c ->
  exists cs0 pc c',
    Forall R cs0 /\ cs0 !! player_index = Some pc /\
    Car.move j c cs0 fc pc (rnd j) = Some c' /\ cs' !! j = Some c'.
Proof.
  intros Hmove. revert k cs. induction m as [|m IH]; intros k cs H Hall Hj Hc; [lia|].
  apply moves_step in H as (cs1 & H1 & H).
  apply move_at_Some in H1 as (car & pc & car' & Hk & Hpc & Hm & ->).
  destruct (decide (j = k)) as [->|Hne].
  - assert (car = c) as -> by congruence.
    exists cs, pc, car'. split; [done|]. split; [done|]. split; [done|].
    rewrite (moves_lookup_lt _ _ _ _ _ _ k H) by lia.
    apply list_lookup_insert_eq. by apply lookup_lt_Some in Hk.
  - apply (IH (S k) (<[k:=car']> cs) H); [|lia|by rewrite list_lookup_insert_ne].
    apply Forall_insert; [done|]. by apply (Hmove k car cs pc car').
Qed.

Lemma speeds_ok_max (c : Car.t) : speeds_ok c -> Car.speed c <= PLAYER_SPEED_MAX.
Proof.
  unfold speeds_ok. destruct (Car.is_player c); [by intros [[_ H] _]|].
  intros [_ H]. unfold NPC_SPEED_MAX, PLAYER_SPEED_MAX in *. qc2q. lra.
Qed.

Lemma move_behind (i : nat) (c : Car.t) (cs : list Car.t) (fc : Z) (pc : Car.t)
      (d : Draw) (c' : Car.t) :
  (0 <= fc)%Z -> speeds_ok c -> Car.speed pc <= PLAYER_SPEED_MAX ->
  Car.move i c cs (fc + 1) pc d = Some c' -> behind fc c -> behind (fc + 1) c'.
Proof.
  intros Hfc Hsp Hpc H Hb Hnp.
  pose proof (move_is_player _ _ _ _ _ _ _ H) as Hip. rewrite Hnp in Hip.
  symmetry in Hip. specialize (Hb Hip).
  change (fc + 1)%Z with (Z.succ fc). rewrite Qc_of_Z_succ.
  pose proof (Qc_of_Z_nonneg _ Hfc) as Hk. revert Hk Hb.
  generalize (Qc_of_Z fc) as k. intros k Hk Hb.
  apply move_inv in H as [[_ ->]|[(_ & Hp & _)|(_ & _ & c1 & H1 & H)]];
    [qc2q; lra|congruence|].
  apply steer_frame in H as (-> & _).
  unfold speeds_ok in Hsp. rewrite Hip in Hsp. destruct Hsp as [Hs1 _].
  unfold NPC_SPEED_MIN, PLAYER_SPEED_MAX in *.
  apply drift_cases in H1 as [(-> & _)|(_ & -> & _)]; qc2q; lra.
Qed.

Lemma same_but_flags_behind (fc : Z) (c c' : Car.t) :
  same_but_flags c c' -> behind fc c -> behind fc c'.
Proof. by intros [->|[->| ->]]. Qed.

Lemma tick_behind (fc : Z) (rnd : nat -> Draw) (cs cs' : list Car.t) :
  (0 <= fc)%Z -> unit_draws rnd ->
  Forall speeds_ok cs -> Forall (behind fc) cs ->
  tick (fc + 1) rnd cs = Some cs' -> Forall (behind (fc + 1)) cs'.
Proof.
  intros Hfc Hu Hsp Hb H. apply tick_inv in H as (cm & pm & Hm & Hpm & ->).
  apply Forall_lookup. intros j c' Hj.
  destruct (check_collision_inv player_index pm cm j c' Hpm Hj) as (c1 & Hc1 & Hfl).
  apply (same_but_flags_behind _ _ _ Hfl). unfold move_all in Hm.
  assert (j < length cs)%nat as Hlt.
  { apply lookup_lt_Some in Hc1. by rewrite (moves_length _ _ _ _ _ _ Hm) in Hc1. }
  destruct (lookup_lt_is_Some_2 cs j Hlt) as [c Hc].
  destruct (moves_at_ctx speeds_ok (fc + 1) rnd (length cs) 0 cs cm j c)
    as (cs0 & pc & c2 & Hall0 & Hpc & Hmv & Hc2); [|done|done|lia|done|].
  { intros i c0 cs0 pc c0' Hall Hi Hm0. destruct (Hu i).
    apply (move_speeds i c0 cs0 (fc + 1) pc (rnd i) c0'); try done.
    rewrite Forall_lookup in Hall. by apply (Hall i). }
  assert (c2 = c1) as -> by congruence.
  rewrite Forall_lookup in Hsp, Hb, Hall0.
  apply (move_behind j c cs0 fc pc (rnd j) c1); try done.
  - by apply (Hsp j).
  - apply speeds_ok_max. by apply (Hall0 player_index).
  - by apply (Hb j).
Qed.

Lemma reset_behind (rnd : nat -> Draw) (s : Sim) :
  reset_simulation rnd = Some s -> Forall (behind 0) (cars s).
Proof.
  intros H. apply reset_cars in H as (_ & _ & npcs & -> & _ & Hsp).
  constructor; [done|].
  apply Forall_forall. intros c Hc. rewrite Forall_forall in Hsp.
  destruct (Hsp c Hc) as [k Hk].
  apply spawn_car in Hk as (l0 & x0 & y0 & _ & Hy & ->). intros _.
  cbn [Car.y Car.init]. apply (Qc_of_Z_le y0 0). lia.
Qed.

Lemma reached_behind (oracle : nat -> nat -> Draw) (n : nat) (s : Sim) :
  (forall k, unit_draws (oracle k)) ->
  run oracle n = Some s -> Forall (behind (frame_count s)) (cars s).
Proof.
  intros Hu H.
  assert ((0 <= frame_count s)%Z /\ Forall speeds_ok (cars s)
          /\ Forall (behind (frame_count s)) (cars s)) as (_ & _ & Hb); [|done].
  revert n s H.
  apply (run_invariant unit_draws
           (fun s => (0 <= frame_count s)%Z /\ Forall speeds_ok (cars s)
                     /\ Forall (behind (frame_count s)) (cars s)) oracle); [done| |].
  - intros rnd s0 Hr H0. split; [|split].
    + apply reset_cars in H0 as (-> & _). lia.
    + by apply (reset_speeds rnd).
    + pose proof (reset_behind _ _ H0) as Hb.
      apply reset_cars in H0 as (-> & _). done.
  - intros rnd s0 s1 Hr (Hfc & Hsp & Hb) H1.
    apply main_iter_inv in H1 as [(p & _ & _ & H)|(p & _ & _ & Ht & Hfc' & _)].
    + split; [|split].
      * apply reset_cars in H as (-> & _). lia.
      * by apply (reset_speeds rnd).
      * pose proof (reset_behind _ _ H) as Hb0.
        apply reset_cars in H as (-> & _). done.
    + rewrite Hfc'. split; [lia|]. split.
      * apply (tick_forall speeds_ok _ _ _ _) with (3 := Ht); [| |done].
        -- intros i c cs0 pc c' Hall Hi Hm. destruct (Hr i).
           apply (move_speeds _ _ _ _ _ _ _ H H0 Hall) with (2 := Hm).
           rewrite Forall_lookup in Hall. by apply (Hall i).
        -- apply same_but_flags_speeds.
      * by apply (tick_behind _ rnd (cars s0)).
Qed.

(** What a crash needs: the car hit is at least 649 down the screen. *)
Lemma crashed_with_frames (s : Sim) (h : nat) :
  one_player (cars s) -> Forall placed (cars s) ->
  Forall (behind (frame_count s)) (cars s) ->
  crashed_with (cars s) h -> (325 <= frame_count s)%Z.
Proof.
  intros (p0 & npcs & Hcs & Hp0 & _ & Hnpc) Hpl Hb (Hh & p & c & Hp & Hc & Hov & _).
  rewrite Forall_lookup in Hpl, Hb.
  pose proof (Hpl _ _ Hp) as (_ & _ & Hy & _).
  pose proof (Hb _ _ Hc) as Hbc.
  rewrite Hcs in Hp, Hc. injection Hp as <-.
  destruct h as [|h]; [done|]. cbn in Hc.
  rewrite Forall_lookup in Hnpc. specialize (Hnpc _ _ Hc).
  specialize (Hy Hp0). specialize (Hbc Hnpc).
  destruct (overlaps_near p0 c Hov) as [_ Hdy].
  rewrite Hy in Hdy.
  destruct (Z_lt_le_dec (frame_count s) 325) as [Hlt|Hge]; [|done]. exfalso.
  pose proof (Qc_of_Z_le (frame_count s) 324 ltac:(lia)) as Hk.
  revert Hk Hbc Hdy. generalize (Qc_of_Z (frame_count s)) as k. intros k Hk Hbc Hdy.
  destruct (Qcabs_cases (Qc_of_Z 700 - Car.y c)) as [[H0 He]|[H0 He]];
    rewrite He in Hdy; qc2q; lra.
Qed.

(** ** The fields of a car that changes lane *)

Lemma move_change_fields (i : nat) (c : Car.t) (cs : list Car.t) (fc : Z) (pc : Car.t)
      (d : Draw) (c' : Car.t) :
  Car.move i c cs fc pc d = Some c' -> change_fields c -> change_fields c'.
Proof.
  intros H Hok. apply move_inv in H as [[_ ->]|[(_ & Hp & H)|(_ & Hp & c1 & H1 & H)]].
  - done.
  - assert (change_fields (Car.autonomous_drive i c cs fc)) as Hd.
    { destruct (autonomous_drive_decision i c cs fc)
        as [? ?|Hch ?|Hch ?|front Hb ?|front best ? ? Hadj ?].
      - unfold abort. by intros Hc.
      - destruct (adjust_speed_set c) as [v ->]. intros _. by apply Hok.
      - unfold clear. destruct (adjust_speed_set c) as [v ->]. intros Hc. cbn in Hc.
        congruence.
      - destruct Hb as [Hch _]. unfold brake. destruct (adjust_speed_set c) as [v ->].
        intros Hc. destruct (300 <? _)%Z; cbn in Hc; congruence.
      - unfold commit. by intros _. }
    intros Hc.
    destruct (steer_steered fc _ c' H) as [v Hch|v Hch _|v Hch _]; [| |done].
    + cbn in Hc. congruence.
    + by apply Hd.
  - intros Hc. apply drift_frame in H1 as (_ & Ht1 & Hch1 & _ & _ & _ & _ & _ & Hs1).
    destruct (steer_steered fc _ c' H) as [v Hch|v Hch _|v Hch _]; [| |done].
    + cbn in Hc. congruence.
    + cbn. rewrite Hs1, Ht1. apply Hok. congruence.
Qed.

Lemma same_but_flags_change_fields (c c' : Car.t) :
  same_but_flags c c' -> change_fields c -> change_fields c'.
Proof. by intros [->|[->| ->]]. Qed.

Lemma reached_change_fields (oracle : nat -> nat -> Draw) (n : nat) (s : Sim) :
  run oracle n = Some s -> Forall change_fields (cars s).
Proof.
  revert n s.
  assert (forall rnd s, reset_simulation rnd = Some s -> Forall change_fields (cars s))
    as Hreset.
  { intros rnd s H. apply reset_cars in H as (_ & _ & npcs & -> & _ & Hsp).
    constructor; [done|].
    apply Forall_forall. intros c Hc. rewrite Forall_forall in Hsp.
    destruct (Hsp c Hc) as [k Hk].
    by apply spawn_car in Hk as (l0 & x0 & y0 & _ & _ & ->). }
  apply (run_invariant (fun _ => True) (fun s => Forall change_fields (cars s)) oracle);
    [done| |].
  - intros rnd s0 _. apply Hreset.
  - intros rnd s0 s1 _ H0 H1.
    apply main_iter_inv in H1 as [(p & _ & _ & Hr)|(p & _ & _ & Ht & _)];
      [by apply (Hreset rnd)|].
    apply (tick_cars change_fields change_fields _ _ _ _) with (4 := H0) in Ht; [done| |].
    + intros i c cs0 pc c' HP Hm. by apply (move_change_fields _ _ _ _ _ _ _ Hm).
    + apply same_but_flags_change_fields.
Qed.

(** ** What every run keeps *)

(** X1.  A run of [main] of any length, on any draws, returns: no lookup in
    [LANE_CENTERS] is ever out of range, and both lanes of every car stay
    lanes of the road. *)
Theorem run_never_fails (oracle : nat -> nat -> Draw) (n : nat) :
  exists s, run oracle n = Some s /\
            cars s <> [] /\
            Forall (fun c => (Car.lane c < LANE_COUNT)%nat
                             /\ (Car.target_lane c < LANE_COUNT)%nat) (cars s).
Proof.
  destruct (run_returns oracle n) as (s & H & Hne & Hok). by exists s.
Qed.

(** X2.  After any run the list holds the player, first, and twelve cars that
    are not the player: no car is added or dropped, and [player_car] is
    always [cars[0]]. *)
Theorem run_one_player (oracle : nat -> nat -> Draw) (n : nat) :
  exists s, run oracle n = Some s /\ one_player (cars s).
Proof.
  destruct (run_returns oracle n) as (s & H & _). exists s. split; [done|].
  by apply (reached_one_player oracle n).
Qed.

(** X3.  After any run each car is laterally between the centres of the outer
    lanes, hence on the road.  The player keeps the height 700; every other
    car is at most 900 down the screen, is not changing lane and sits
    exactly on the centre of its lane. *)
Theorem run_cars_placed (oracle : nat -> nat -> Draw) (n : nat) :
  exists s, run oracle n = Some s /\ Forall placed (cars s).
Proof.
  destruct (run_returns oracle n) as (s & H & _). exists s. split; [done|].
  by apply (reached_cars_placed oracle n).
Qed.

(** X4.  After any run the frame count is not negative and, for every car,
    [last_lane_change_time] and [stuck_timer] lie between 0 and the frame
    count: the cooldown test never sees a negative elapsed time, and the
    agent has never been stuck for longer than the episode lasts. *)
Theorem run_counters (oracle : nat -> nat -> Draw) (n : nat) :
  exists s, run oracle n = Some s /\
            (0 <= frame_count s)%Z /\ Forall (counters_ok (frame_count s)) (cars s).
Proof.
  destruct (run_returns oracle n) as (s & H & _). exists s. split; [done|].
  by apply (reached_counters oracle n).
Qed.

(** X5.  After any run either no car is marked as collided, or the player is,
    together with exactly one other car, whose rectangle collides with the
    player's; the player then shows the label of the crash.  No state has
    two crashed pairs, and no car is marked without the player. *)
Theorem run_crash_state (oracle : nat -> nat -> Draw) (n : nat) :
  exists s, run oracle n = Some s /\
            (crash_free (cars s) \/ exists h, crashed_with (cars s) h).
Proof.
  destruct (run_returns oracle n) as (s & H & _). exists s. split; [done|].
  by apply (reached_crash_state oracle n).
Qed.

(** X11.  After any run a car that is changing lane is the player, and the lane
    it is heading for is next to the lane it is counted in: the agent never
    skips a lane. *)
Theorem run_change_ok (oracle : nat -> nat -> Draw) (n : nat) :
  exists s, run oracle n = Some s /\ Forall change_ok (cars s).
Proof.
  destruct (run_returns oracle n) as (s & H & _). exists s. split; [done|].
  by apply (reached_change_ok oracle n).
Qed.

(** X12.  After any run a car that is changing lane has [stuck_timer] 0 and
    aims at [PLAYER_SPEED_MAX]: the agent accelerates through every lane
    change and does not count its frames as time spent stuck. *)
Theorem run_change_fields (oracle : nat -> nat -> Draw) (n : nat) :
  exists s, run oracle n = Some s /\ Forall change_fields (cars s).
Proof.
  destruct (run_returns oracle n) as (s & H & _). exists s. split; [done|].
  by apply (reached_change_fields oracle n).
Qed.

(** X9.  If [random.random()] stays in the unit interval, then after any run
    every non-player car drives at a speed between [NPC_SPEED_MIN] and
    [NPC_SPEED_MAX], and the player aims at a speed between 2 and
    [PLAYER_SPEED_MAX] and drives between 1.95 and [PLAYER_SPEED_MAX]: it
    never stops or reverses, and never goes below [PLAYER_SPEED_MIN] by more
    than the brake behind the slowest car asks for. *)
Theorem run_speeds (oracle : nat -> nat -> Draw) (n : nat) :
  (forall k, unit_draws (oracle k)) ->
  exists s, run oracle n = Some s /\ Forall speeds_ok (cars s).
Proof.
  intros Hu. destruct (run_returns oracle n) as (s & H & _). exists s.
  split; [done|]. by apply (reached_speeds oracle n).
Qed.

Lemma run_speeds_witness :
  exists s, run oracle0 3 = Some s /\ Forall speeds_ok (cars s).
Proof.
  apply (run_speeds oracle0 3). intros k j. by vm_compute.
Defined.

(** X10.  If [random.random()] stays in the unit interval, then after any run
    the distance covered in the episode is between 1.95 and
    [PLAYER_SPEED_MAX] per frame of the episode. *)
Theorem run_odometer (oracle : nat -> nat -> Draw) (n : nat) :
  (forall k, unit_draws (oracle k)) ->
  exists s, run oracle n = Some s /\ odometer_ok s.
Proof.
  intros Hu. destruct (run_returns oracle n) as (s & H & _). exists s.
  split; [done|]. by apply (reached_odometer oracle n).
Qed.

Lemma run_odometer_witness :
  exists s, run oracle0 3 = Some s /\ odometer_ok s.
Proof.
  apply (run_odometer oracle0 3). intros k j. by vm_compute.
Defined.

(** X16.  If [random.random()] stays in the unit interval, no episode ends in
    its first 324 frames.  The other cars start at the top of the screen or
    above it and come down by at most 2 a frame, the most the player can be
    faster than the slowest of them; the player is at 700; so for 324 frames
    no rectangle reaches the player's. *)
Theorem run_no_early_crash (oracle : nat -> nat -> Draw) (n : nat) :
  (forall k, unit_draws (oracle k)) ->
  exists s, run oracle n = Some s /\
            ((frame_count s <= 324)%Z -> crash_free (cars s)).
Proof.
  intros Hu. destruct (run_returns oracle n) as (s & H & _). exists s.
  split; [done|]. intros Hfc.
  destruct (reached_crash_state oracle n s H) as [Hfree|[h Hh]]; [done|].
  apply crashed_with_frames in Hh; [lia| | |].
  - by apply (reached_one_player oracle n).
  - by apply (reached_cars_placed oracle n).
  - by apply (reached_behind oracle n).
Qed.

Lemma run_no_early_crash_witness :
  exists s, run oracle0 3 = Some s /\
            ((frame_count s <= 324)%Z -> crash_free (cars s)).
Proof.
  apply (run_no_early_crash oracle0 3). intros k j. by vm_compute.
Defined.
